(** * Deep Vision front end: interview flow and Mermaid repair

    A shallow embedding of the interview logic of the [deepVision()]
    component (dimension traversal, answer selection and composition,
    question fetching, answer submission, progress) and of the text
    repair that [renderMermaidCharts] applies to a diagram definition
    before handing it to the renderer.

    JavaScript strings are sequences of UTF-16 code units; they are
    modelled as [list Z].  Object keys that the component itself spells
    out (the dimension keys) are [string]s, and the [dimensions] object of
    a session is a [gmap string Dimension].  An operation that can throw
    returns an [option]; [None] is the thrown exception. *)

From Stdlib Require Import ZArith QArith Qround Lia List Bool Ascii String DecimalString.
From Stdlib Require Floats Uint63.
From stdpp Require Import base option list gmap strings.

Local Open Scope Z_scope.

(** ** JavaScript strings *)

Module Js.

(** Code units of an ASCII literal. *)
Definition u (s : string) : list Z :=
  List.map (fun a => Z.of_nat (nat_of_ascii a)) (list_ascii_of_string s).

(** [WhiteSpace] and [LineTerminator] code units: what [trim] strips and
    what the pattern [\s] accepts. *)
Definition is_space (c : Z) : bool :=
  ((9 <=? c) && (c <=? 13)) || (c =? 32) || (c =? 160) || (c =? 5760)
  || ((8192 <=? c) && (c <=? 8202)) || (c =? 8232) || (c =? 8233)
  || (c =? 8239) || (c =? 8287) || (c =? 12288) || (c =? 65279).

Fixpoint trimStart (s : list Z) : list Z :=
  match s with
  | c :: s' => if is_space c then trimStart s' else s
  | [] => []
  end.

Definition trimEnd (s : list Z) : list Z := rev (trimStart (rev s)).

(** [String.prototype.trim] *)
Definition trim (s : list Z) : list Z := trimEnd (trimStart s).

(** [Array.prototype.join] on an array of strings. *)
Fixpoint join (sep : list Z) (items : list (list Z)) : list Z :=
  match items with
  | [] => []
  | [x] => x
  | x :: rest => x ++ sep ++ join sep rest
  end.

(** [Array.prototype.indexOf]; -1 when the element is absent. *)
Fixpoint indexOf_from {A} `{EqDecision A} (i : Z) (l : list A) (x : A) : Z :=
  match l with
  | [] => -1
  | y :: l' => if decide (y = x) then i else indexOf_from (i + 1) l' x
  end.

Definition indexOf {A} `{EqDecision A} (l : list A) (x : A) : Z :=
  indexOf_from 0 l x.

(** Element access [l[i]]; [None] is [undefined]. *)
Definition at_index {A} (l : list A) (i : Z) : option A :=
  if i <? 0 then None else l !! Z.to_nat i.

(** [Math.round] on a rational: the nearest integer, ties towards
    positive infinity. *)
Definition Math_round (q : Q) : Z := Qfloor (q + (1 # 2))%Q.

(** Truthiness of a string: every string but the empty one. *)
Definition truthy (s : list Z) : bool :=
  match s with [] => false | _ => true end.

End Js.

(** ** Data model *)

(** An entry of [session.dimensions]. *)
Record Dimension := { coverage : Z }.

Record LogEntry := {
  log_question : list Z;
  log_answer : list Z;
  log_dimension : string;
  log_options : list (list Z);
  log_multi_select : bool
}.

Record Session := {
  session_id : list Z;
  dimensions : gmap string Dimension;
  interview_log : list LogEntry
}.

(** [currentQuestion] *)
Record Question := {
  text : list Z;
  options : list (list Z);
  multiSelect : bool;
  isFollowUp : bool;
  followUpReason : option (list Z);
  conflictDetected : bool;
  conflictDescription : option (list Z);
  aiGenerated : bool;
  serviceError : bool;
  errorTitle : list Z;
  errorDetail : list Z
}.

Inductive ToastType := toast_success | toast_error | toast_warning.

Record Toast := { toast_message : list Z; toast_type : ToastType }.

(** The fields of the component that the interview flow reads or writes.
    [webSearchPollInterval] is kept as a flag: whether the timer runs. *)
Record State := {
  currentSession : option Session;
  currentDimension : string;
  currentQuestion : Question;
  selectedAnswers : list (list Z);
  otherAnswerText : list Z;
  otherSelected : bool;
  loadingQuestion : bool;
  isGoingPrev : bool;
  webSearchPollInterval : bool;
  webSearching : bool;
  toast : option Toast
}.

Definition dimensionOrder : list string :=
  ["customer_needs"; "business_process"; "tech_constraints"; "project_constraints"]%string.

(** *** Field updates *)

Definition set_currentSession (v : option Session) (st : State) : State :=
  {| currentSession := v; currentDimension := currentDimension st;
     currentQuestion := currentQuestion st; selectedAnswers := selectedAnswers st;
     otherAnswerText := otherAnswerText st; otherSelected := otherSelected st;
     loadingQuestion := loadingQuestion st; isGoingPrev := isGoingPrev st;
     webSearchPollInterval := webSearchPollInterval st;
     webSearching := webSearching st; toast := toast st |}.

Definition set_currentDimension (v : string) (st : State) : State :=
  {| currentSession := currentSession st; currentDimension := v;
     currentQuestion := currentQuestion st; selectedAnswers := selectedAnswers st;
     otherAnswerText := otherAnswerText st; otherSelected := otherSelected st;
     loadingQuestion := loadingQuestion st; isGoingPrev := isGoingPrev st;
     webSearchPollInterval := webSearchPollInterval st;
     webSearching := webSearching st; toast := toast st |}.

Definition set_currentQuestion (v : Question) (st : State) : State :=
  {| currentSession := currentSession st; currentDimension := currentDimension st;
     currentQuestion := v; selectedAnswers := selectedAnswers st;
     otherAnswerText := otherAnswerText st; otherSelected := otherSelected st;
     loadingQuestion := loadingQuestion st; isGoingPrev := isGoingPrev st;
     webSearchPollInterval := webSearchPollInterval st;
     webSearching := webSearching st; toast := toast st |}.

Definition set_selectedAnswers (v : list (list Z)) (st : State) : State :=
  {| currentSession := currentSession st; currentDimension := currentDimension st;
     currentQuestion := currentQuestion st; selectedAnswers := v;
     otherAnswerText := otherAnswerText st; otherSelected := otherSelected st;
     loadingQuestion := loadingQuestion st; isGoingPrev := isGoingPrev st;
     webSearchPollInterval := webSearchPollInterval st;
     webSearching := webSearching st; toast := toast st |}.

Definition set_otherAnswerText (v : list Z) (st : State) : State :=
  {| currentSession := currentSession st; currentDimension := currentDimension st;
     currentQuestion := currentQuestion st; selectedAnswers := selectedAnswers st;
     otherAnswerText := v; otherSelected := otherSelected st;
     loadingQuestion := loadingQuestion st; isGoingPrev := isGoingPrev st;
     webSearchPollInterval := webSearchPollInterval st;
     webSearching := webSearching st; toast := toast st |}.

Definition set_otherSelected (v : bool) (st : State) : State :=
  {| currentSession := currentSession st; currentDimension := currentDimension st;
     currentQuestion := currentQuestion st; selectedAnswers := selectedAnswers st;
     otherAnswerText := otherAnswerText st; otherSelected := v;
     loadingQuestion := loadingQuestion st; isGoingPrev := isGoingPrev st;
     webSearchPollInterval := webSearchPollInterval st;
     webSearching := webSearching st; toast := toast st |}.

Definition set_loadingQuestion (v : bool) (st : State) : State :=
  {| currentSession := currentSession st; currentDimension := currentDimension st;
     currentQuestion := currentQuestion st; selectedAnswers := selectedAnswers st;
     otherAnswerText := otherAnswerText st; otherSelected := otherSelected st;
     loadingQuestion := v; isGoingPrev := isGoingPrev st;
     webSearchPollInterval := webSearchPollInterval st;
     webSearching := webSearching st; toast := toast st |}.

Definition set_isGoingPrev (v : bool) (st : State) : State :=
  {| currentSession := currentSession st; currentDimension := currentDimension st;
     currentQuestion := currentQuestion st; selectedAnswers := selectedAnswers st;
     otherAnswerText := otherAnswerText st; otherSelected := otherSelected st;
     loadingQuestion := loadingQuestion st; isGoingPrev := v;
     webSearchPollInterval := webSearchPollInterval st;
     webSearching := webSearching st; toast := toast st |}.

Definition set_webSearchPollInterval (v : bool) (st : State) : State :=
  {| currentSession := currentSession st; currentDimension := currentDimension st;
     currentQuestion := currentQuestion st; selectedAnswers := selectedAnswers st;
     otherAnswerText := otherAnswerText st; otherSelected := otherSelected st;
     loadingQuestion := loadingQuestion st; isGoingPrev := isGoingPrev st;
     webSearchPollInterval := v;
     webSearching := webSearching st; toast := toast st |}.

Definition set_webSearching (v : bool) (st : State) : State :=
  {| currentSession := currentSession st; currentDimension := currentDimension st;
     currentQuestion := currentQuestion st; selectedAnswers := selectedAnswers st;
     otherAnswerText := otherAnswerText st; otherSelected := otherSelected st;
     loadingQuestion := loadingQuestion st; isGoingPrev := isGoingPrev st;
     webSearchPollInterval := webSearchPollInterval st;
     webSearching := v; toast := toast st |}.

Definition set_toast (v : option Toast) (st : State) : State :=
  {| currentSession := currentSession st; currentDimension := currentDimension st;
     currentQuestion := currentQuestion st; selectedAnswers := selectedAnswers st;
     otherAnswerText := otherAnswerText st; otherSelected := otherSelected st;
     loadingQuestion := loadingQuestion st; isGoingPrev := isGoingPrev st;
     webSearchPollInterval := webSearchPollInterval st;
     webSearching := webSearching st; toast := v |}.

(** ** String constants of the component *)

(** '服务错误' *)
Definition msg_service_error : list Z := [26381; 21153; 38169; 35823].
(** '请稍后重试' *)
Definition msg_retry_later : list Z := [35831; 31245; 21518; 37325; 35797].
(** '网络错误' *)
Definition msg_network_error : list Z := [32593; 32476; 38169; 35823].
(** '无法连接到服务器，请检查网络连接后重试' *)
Definition msg_cannot_connect : list Z :=
  [26080; 27861; 36830; 25509; 21040; 26381; 21153; 22120; 65292; 35831;
   26816; 26597; 32593; 32476; 36830; 25509; 21518; 37325; 35797].
(** '所有问题已完成！您可以确认需求并生成报告。' *)
Definition msg_all_done : list Z :=
  [25152; 26377; 38382; 39064; 24050; 23436; 25104; 65281; 24744; 21487;
   20197; 30830; 35748; 38656; 27714; 24182; 29983; 25104; 25253; 21578; 12290].
(** '提交回答失败' *)
Definition msg_submit_failed : list Z := [25552; 20132; 22238; 31572; 22833; 36133].
(** '；', the full-width semicolon U+FF1B *)
Definition answer_delimiter : list Z := [65307].

(** ** Dimension traversal and progress *)

(** [showToast(message, type)]; the timer that hides it later is not part
    of the interview state. *)
Definition showToast (message : list Z) (type : ToastType) (st : State) : State :=
  set_toast (Some {| toast_message := message; toast_type := type |}) st.

(** The [for ... of] loop of [getNextIncompleteDimension] over the
    remaining keys.  Outer [None]: reading [.coverage] of a missing entry
    throws.  Inner [None]: the loop ran to its end. *)
Fixpoint scanIncomplete (dims : gmap string Dimension) (order : list string)
  : option (option string) :=
  match order with
  | [] => Some None
  | dim :: rest =>
      match dims !! dim with
      | None => None
      | Some d => if coverage d <? 100 then Some (Some dim) else scanIncomplete dims rest
      end
  end.

Definition getNextIncompleteDimension (st : State) : option string :=
  match currentSession st with
  | None => None
  | Some sess =>
      match scanIncomplete (dimensions sess) dimensionOrder with
      | None => None
      | Some (Some dim) => Some dim
      | Some None => dimensionOrder !! 0%nat
      end
  end.

(** [Object.values(dimensions)] *)
Definition Object_values (dims : gmap string Dimension) : list Dimension :=
  (map_to_list dims).*2.

(** [getTotalProgress].  Coverages are integers, so the quotient is a
    rational that [Math.round] sees exactly.  [None] stands for [NaN]
    (a session whose [dimensions] object is empty). *)
Definition getTotalProgress (st : State) : option Z :=
  match currentSession st with
  | None => Some 0
  | Some sess =>
      let dims := Object_values (dimensions sess) in
      let total :=
        foldl (fun sum d => sum + (if coverage d =? 0 then 0 else coverage d)) 0 dims in
      match dims with
      | [] => None
      | _ => Some (Js.Math_round (inject_Z total / inject_Z (Z.of_nat (length dims)))%Q)
      end
  end.

(** ** Answer selection *)

(** [canSubmitAnswer] *)
Definition canSubmitAnswer (st : State) : bool :=
  let q := currentQuestion st in
  if negb (Js.truthy (text q)) || (length (options q) =? 0)%nat then false
  else if multiSelect q then
    let hasSelectedOptions := (0 <? length (selectedAnswers st))%nat in
    let hasValidOther :=
      otherSelected st && (0 <? length (Js.trim (otherAnswerText st)))%nat in
    hasSelectedOptions || hasValidOther
  else if otherSelected st then (0 <? length (Js.trim (otherAnswerText st)))%nat
  else (0 <? length (selectedAnswers st))%nat.

(** [splice(index, 1)] *)
Definition splice1 {A} (index : nat) (l : list A) : list A :=
  take index l ++ drop (S index) l.

(** [toggleOption(option)] *)
Definition toggleOption (option : list Z) (st : State) : State :=
  if multiSelect (currentQuestion st) then
    let index := Js.indexOf (selectedAnswers st) option in
    if -1 <? index then
      set_selectedAnswers (splice1 (Z.to_nat index) (selectedAnswers st)) st
    else
      set_selectedAnswers (selectedAnswers st ++ [option]) st
  else
    set_otherAnswerText [] (set_otherSelected false (set_selectedAnswers [option] st)).

(** [toggleOther()] *)
Definition toggleOther (st : State) : State :=
  if multiSelect (currentQuestion st) then
    let st := set_otherSelected (negb (otherSelected st)) st in
    if negb (otherSelected st) then set_otherAnswerText [] st else st
  else
    set_otherSelected true (set_selectedAnswers [] st).

(** The answer that [submitAnswer] builds before it calls the server.
    [None] is [undefined] ([selectedAnswers[0]] of an empty array). *)
Definition composeAnswer (st : State) : option (list Z) :=
  if multiSelect (currentQuestion st) then
    let answers := selectedAnswers st in
    let answers :=
      if otherSelected st && Js.truthy (Js.trim (otherAnswerText st))
      then answers ++ [Js.trim (otherAnswerText st)] else answers in
    Some (Js.join answer_delimiter answers)
  else
    if otherSelected st then Some (Js.trim (otherAnswerText st))
    else selectedAnswers st !! 0%nat.

(** ** Talking to the server *)

(** The parsed body of a [next-question] response. A field that is absent
    from the JSON is [None] (or [false] for a flag). *)
Record NextQuestionBody := {
  r_error : option (list Z);
  r_detail : option (list Z);
  r_completed : bool;
  r_question : list Z;
  r_options : option (list (list Z));
  r_multi_select : bool;
  r_is_follow_up : bool;
  r_follow_up_reason : option (list Z);
  r_conflict_detected : bool;
  r_conflict_description : option (list Z);
  r_ai_generated : bool
}.

(** How one [fetch] of [next-question] settles: the promise rejects (the
    server cannot be reached, or the body is not JSON), or a response
    arrives with its [ok] flag and parsed body. *)
Inductive FetchReply :=
| FetchRejected
| FetchResolved (ok : bool) (result : NextQuestionBody).

(** How one [apiCall] settles: [fetch] rejects, the response is not [ok]
    (both make [apiCall] throw), or the parsed body is returned. *)
Inductive ApiReply (A : Type) :=
| ApiUnreachable
| ApiNotOk (error : list Z)
| ApiOk (a : A).
Arguments ApiUnreachable {A}.
Arguments ApiNotOk {A} error.
Arguments ApiOk {A} a.

(** The JSON body of a [submit-answer] request. *)
Record SubmitBody := {
  body_question : list Z;
  body_answer : option (list Z);
  body_dimension : string;
  body_options : list (list Z);
  body_multi_select : bool
}.

(** [x || dflt] on an optional string. *)
Definition or_default (x : option (list Z)) (dflt : list Z) : list Z :=
  match x with
  | Some s => if Js.truthy s then s else dflt
  | None => dflt
  end.

Definition truthy_opt (x : option (list Z)) : bool :=
  match x with Some s => Js.truthy s | None => false end.

Definition errorQuestion (title detail : list Z) : Question :=
  {| text := []; options := []; multiSelect := false; isFollowUp := false;
     followUpReason := None; conflictDetected := false;
     conflictDescription := None; aiGenerated := false;
     serviceError := true; errorTitle := title; errorDetail := detail |}.

Definition allDoneQuestion : Question :=
  {| text := msg_all_done; options := []; multiSelect := false;
     isFollowUp := false; followUpReason := None; conflictDetected := false;
     conflictDescription := None; aiGenerated := false;
     serviceError := false; errorTitle := []; errorDetail := [] |}.

Definition questionOf (result : NextQuestionBody) : Question :=
  {| text := r_question result;
     options := default [] (r_options result);
     multiSelect := r_multi_select result;
     isFollowUp := r_is_follow_up result;
     followUpReason := r_follow_up_reason result;
     conflictDetected := r_conflict_detected result;
     conflictDescription := r_conflict_description result;
     aiGenerated := r_ai_generated result;
     serviceError := false; errorTitle := []; errorDetail := [] |}.

Definition startWebSearchPolling (st : State) : State :=
  if webSearchPollInterval st then st else set_webSearchPollInterval true st.

Definition stopWebSearchPolling (st : State) : State :=
  set_webSearching false
    (if webSearchPollInterval st then set_webSearchPollInterval false st else st).

(** The [for (let i = 1; i <= length; i++)] loop that [fetchNextQuestion]
    runs when the server answers [completed]: the keys after the current
    one, wrapping around. Outer [None]: a property read throws. Inner
    [None]: no key has coverage below 100. *)
Fixpoint scanAfter (dims : gmap string Dimension) (currentIdx : Z) (steps : list Z)
  : option (option string) :=
  match steps with
  | [] => Some None
  | i :: steps' =>
      match Js.at_index dimensionOrder
              (Z.rem (currentIdx + i) (Z.of_nat (length dimensionOrder))) with
      | None => None
      | Some nextDim =>
          match dims !! nextDim with
          | None => None
          | Some d =>
              if coverage d <? 100 then Some (Some nextDim)
              else scanAfter dims currentIdx steps'
          end
      end
  end.

(** The [catch] block of [fetchNextQuestion]. *)
Definition fetchFailed (st : State) : State :=
  set_currentQuestion (errorQuestion msg_network_error msg_cannot_connect)
    (showToast msg_network_error toast_error st).

(** The [finally] block of [fetchNextQuestion]. *)
Definition fetchSettled (st : State) : State :=
  set_isGoingPrev false (stopWebSearchPolling (set_loadingQuestion false st)).

(** [fetchNextQuestion]. [replies] are the outcomes of the successive
    requests, in order; the rest of them is returned. The result is [None]
    when a request is still pending ([replies] ran out). *)
Fixpoint fetchNextQuestion (replies : list FetchReply) (st : State)
  : option (State * list FetchReply) :=
  let st := set_loadingQuestion true st in
  let st := startWebSearchPolling st in
  let st := set_selectedAnswers [] st in
  let st := set_otherAnswerText [] st in
  let st := set_otherSelected false st in
  match currentSession st with
  | None => Some (fetchSettled (fetchFailed st), replies)
  | Some sess =>
      match replies with
      | [] => None
      | FetchRejected :: rest => Some (fetchSettled (fetchFailed st), rest)
      | FetchResolved ok result :: rest =>
          if negb ok || truthy_opt (r_error result) then
            let title := or_default (r_error result) msg_service_error in
            let detail := or_default (r_detail result) msg_retry_later in
            Some (fetchSettled
                    (set_currentQuestion (errorQuestion title detail)
                       (showToast title toast_error st)), rest)
          else if r_completed result then
            let currentIdx := Js.indexOf dimensionOrder (currentDimension st) in
            match scanAfter (dimensions sess) currentIdx
                    (seqZ 1 (Z.of_nat (length dimensionOrder))) with
            | None => Some (fetchSettled (fetchFailed st), rest)
            | Some (Some nextDim) =>
                match fetchNextQuestion rest (set_currentDimension nextDim st) with
                | None => None
                | Some (st', rest') => Some (fetchSettled st', rest')
                end
            | Some None =>
                Some (fetchSettled (set_currentQuestion allDoneQuestion st), rest)
            end
          else
            Some (fetchSettled (set_currentQuestion (questionOf result) st), rest)
      end
  end.

(** [submitAnswer]. [api] is the server's reaction to the [submit-answer]
    request. *)
Definition submitAnswer (api : SubmitBody -> ApiReply Session)
    (replies : list FetchReply) (st : State) : option (State * list FetchReply) :=
  if negb (canSubmitAnswer st) then Some (st, replies)
  else
    let answer := composeAnswer st in
    let failed := Some (showToast msg_submit_failed toast_error st, replies) in
    match currentSession st with
    | None => failed
    | Some _ =>
        match api {| body_question := text (currentQuestion st);
                     body_answer := answer;
                     body_dimension := currentDimension st;
                     body_options := options (currentQuestion st);
                     body_multi_select := multiSelect (currentQuestion st) |} with
        | ApiUnreachable | ApiNotOk _ => failed
        | ApiOk updatedSession =>
            let st := set_currentSession (Some updatedSession) st in
            let failed := Some (showToast msg_submit_failed toast_error st, replies) in
            match dimensions updatedSession !! currentDimension st with
            | None => failed
            | Some d =>
                if 100 <=? coverage d then
                  match getNextIncompleteDimension st with
                  | None => failed
                  | Some dim => fetchNextQuestion replies (set_currentDimension dim st)
                  end
                else fetchNextQuestion replies st
            end
        end
    end.

(** ** Regular expressions

    The fragment of JavaScript patterns that the repair uses: sequences of
    literals, character classes, quantified character classes (greedy
    [*] and [+], lazy [*?]), the multi-line anchor [^], the word boundary
    [\b] and an alternation of literals. Capture groups do not change what
    a pattern matches and the repair never reads them back, so they are
    left out. Matching is the backtracking search of the language: the
    first alternative that lets the rest of the pattern match wins. *)

Module Regex.

Inductive atom :=
| Lit (w : list Z)            (* literal text *)
| Cls (p : Z -> bool)         (* one code unit of a class *)
| Star (p : Z -> bool)        (* [p]*, greedy *)
| Plus (p : Z -> bool)        (* [p]+, greedy *)
| StarLazy (p : Z -> bool)    (* [p]*?, lazy *)
| Bol                         (* ^ under the m flag *)
| WordB                       (* \b *)
| Alts (ws : list (list Z)).  (* (w1|w2|...) *)

Definition regex := list atom.

(** Continuations take the code unit before the current position
    ([None] at the start of the input) and the rest of the input. *)
Definition cont := option Z -> list Z -> option (list Z).

Definition is_digit (c : Z) : bool := (48 <=? c) && (c <=? 57).

(** [\w] *)
Definition is_word (c : Z) : bool :=
  is_digit c || ((65 <=? c) && (c <=? 90)) || ((97 <=? c) && (c <=? 122)) || (c =? 95).

(** Line terminators, after which [^] matches under the m flag. *)
Definition is_line_terminator (c : Z) : bool :=
  (c =? 10) || (c =? 13) || (c =? 8232) || (c =? 8233).

Definition at_line_start (prev : option Z) : bool :=
  match prev with None => true | Some c => is_line_terminator c end.

Definition word_opt (c : option Z) : bool :=
  match c with None => false | Some c => is_word c end.

Definition at_word_boundary (prev : option Z) (s : list Z) : bool :=
  xorb (word_opt prev) (word_opt (head s)).

Fixpoint lit (w : list Z) (k : cont) (prev : option Z) (s : list Z) : option (list Z) :=
  match w with
  | [] => k prev s
  | c :: w' =>
      match s with
      | d :: s' => if d =? c then lit w' k (Some d) s' else None
      | [] => None
      end
  end.

Fixpoint star_greedy (p : Z -> bool) (k : cont) (prev : option Z) (s : list Z)
  : option (list Z) :=
  match s with
  | c :: s' =>
      if p c then
        match star_greedy p k (Some c) s' with
        | Some r => Some r
        | None => k prev s
        end
      else k prev s
  | [] => k prev s
  end.

Fixpoint star_lazy (p : Z -> bool) (k : cont) (prev : option Z) (s : list Z)
  : option (list Z) :=
  match k prev s with
  | Some r => Some r
  | None =>
      match s with
      | c :: s' => if p c then star_lazy p k (Some c) s' else None
      | [] => None
      end
  end.

Fixpoint alts (ws : list (list Z)) (k : cont) (prev : option Z) (s : list Z)
  : option (list Z) :=
  match ws with
  | [] => None
  | w :: ws' =>
      match lit w k prev s with
      | Some r => Some r
      | None => alts ws' k prev s
      end
  end.

(** [match_here r prev s]: the input left after the match of [r] that
    starts at the head of [s], if there is one. *)
Fixpoint match_here (r : regex) (prev : option Z) (s : list Z) : option (list Z) :=
  match r with
  | [] => Some s
  | a :: r' =>
      let k := match_here r' in
      match a with
      | Lit w => lit w k prev s
      | Cls p =>
          match s with
          | c :: s' => if p c then k (Some c) s' else None
          | [] => None
          end
      | Star p => star_greedy p k prev s
      | Plus p =>
          match s with
          | c :: s' => if p c then star_greedy p k (Some c) s' else None
          | [] => None
          end
      | StarLazy p => star_lazy p k prev s
      | Bol => if at_line_start prev then k prev s else None
      | WordB => if at_word_boundary prev s then k prev s else None
      | Alts ws => alts ws k prev s
      end
  end.

(** Length of the match that starts here. *)
Definition match_length (r : regex) (prev : option Z) (s : list Z) : option nat :=
  match match_here r prev s with
  | Some rest => Some (length s - length rest)%nat
  | None => None
  end.

(** [regex.test(s)] and the truth value of [s.match(regex)] for a
    pattern without the g flag: is there a match anywhere. *)
Fixpoint test_from (r : regex) (prev : option Z) (s : list Z) : bool :=
  match match_here r prev s with
  | Some _ => true
  | None =>
      match s with
      | [] => false
      | c :: s' => test_from r (Some c) s'
      end
  end.

Definition test (r : regex) (s : list Z) : bool := test_from r None s.

(** [s.replace(regex, f)] under the g flag. The scan goes left to right;
    [skip] counts the code units of the current match still to be
    dropped, [n] the matches found so far ([f] gets the number of the
    match, which is how the callbacks of the repair number their
    names). An empty match puts the replacement in and moves on by one
    code unit. *)
Fixpoint replace_go (r : regex) (f : nat -> list Z) (n skip : nat)
    (prev : option Z) (s : list Z) : list Z :=
  match s with
  | [] =>
      match skip, match_here r prev [] with
      | O, Some _ => f n
      | _, _ => []
      end
  | c :: s' =>
      match skip with
      | S k => replace_go r f n k (Some c) s'
      | O =>
          match match_length r prev s with
          | Some (S k) => f n ++ replace_go r f (S n) k (Some c) s'
          | Some O => f n ++ c :: replace_go r f (S n) 0 (Some c) s'
          | None => c :: replace_go r f n 0 (Some c) s'
          end
      end
  end.

Definition replace (r : regex) (f : nat -> list Z) (s : list Z) : list Z :=
  replace_go r f 0 0 None s.

(** [(s.match(regex) || []).length] under the g flag. *)
Fixpoint count_go (r : regex) (skip : nat) (prev : option Z) (s : list Z) : nat :=
  match s with
  | [] =>
      match skip, match_here r prev [] with
      | O, Some _ => 1
      | _, _ => 0
      end
  | c :: s' =>
      match skip with
      | S k => count_go r k (Some c) s'
      | O =>
          match match_length r prev s with
          | Some (S k) => S (count_go r k (Some c) s')
          | Some O => S (count_go r 0 (Some c) s')
          | None => count_go r 0 (Some c) s'
          end
      end
  end.

Definition count (r : regex) (s : list Z) : nat := count_go r 0 None s.

Fixpoint is_prefix (w s : list Z) : bool :=
  match w, s with
  | [], _ => true
  | c :: w', d :: s' => (d =? c) && is_prefix w' s'
  | _ :: _, [] => false
  end.

(** [s.includes(w)] *)
Fixpoint includes (w s : list Z) : bool :=
  is_prefix w s
  || match s with
     | [] => false
     | _ :: s' => includes w s'
     end.

End Regex.

(** ** Diagram repair *)

Module Mermaid.
Import Regex.

(** The class [\u4e00-\u9fa5]. *)
Definition is_cjk (c : Z) : bool := (19968 <=? c) && (c <=? 40869).

(** [^\n] *)
Definition not_nl (c : Z) : bool := negb (c =? 10).
(** [^:\n] and [^\n:] *)
Definition not_colon_nl (c : Z) : bool := negb ((c =? 58) || (c =? 10)).
(** The negated class of the bracket, the double quote and the newline. *)
Definition not_bracket_quote_nl (c : Z) : bool :=
  negb ((c =? 91) || (c =? 34) || (c =? 10)).
(** [\d.] *)
Definition digit_or_dot (c : Z) : bool := is_digit c || (c =? 46).

Definition kw_quadrant_prefix : list Z := Eval cbv in Js.u "quadrant-".
Definition kw_quadrant (k : Z) : list Z := kw_quadrant_prefix ++ [48 + k].
Definition kw_title : list Z := Eval cbv in Js.u "title".
Definition kw_x_axis : list Z := Eval cbv in Js.u "x-axis".
Definition kw_y_axis : list Z := Eval cbv in Js.u "y-axis".

Definition q1_label : list Z := Eval cbv in Js.u "quadrant-1 P1 High Priority".
Definition q2_label : list Z := Eval cbv in Js.u "quadrant-2 P2 Plan".
Definition q3_label : list Z := Eval cbv in Js.u "quadrant-3 P3 Later".
Definition q4_label : list Z := Eval cbv in Js.u "quadrant-4 Low Priority".
Definition title_label : list Z := Eval cbv in Js.u "title Priority Matrix".
Definition x_axis_label : list Z := Eval cbv in Js.u "x-axis Low --> High".
Definition y_axis_label : list Z := Eval cbv in Js.u "y-axis Low --> High".
Definition sample_point : list Z := Eval cbv in 10 :: Js.u "    Sample: [0.5, 0.5]".
Definition end_line : list Z := Eval cbv in 10 :: Js.u "    end".
Definition quadrantChart : list Z := Eval cbv in Js.u "quadrantChart".
Definition kw_graph : list Z := Eval cbv in Js.u "graph".
Definition kw_flowchart : list Z := Eval cbv in Js.u "flowchart".
Definition kw_subgraph : list Z := Eval cbv in Js.u "subgraph".
Definition kw_end : list Z := Eval cbv in Js.u "end".
Definition req_prefix : list Z := Eval cbv in Js.u "    Req".
Definition req_suffix : list Z := Eval cbv in Js.u ": [".
Definition sg_prefix : list Z := Eval cbv in Js.u "subgraph SG".
Definition node_prefix : list Z := Eval cbv in Js.u "    N".

(** [/quadrant-k\s+[^:\n]*:\s*[^\n]*/g] *)
Definition re_quadrant_colon (k : Z) : regex :=
  [Lit (kw_quadrant k); Plus Js.is_space; Star not_colon_nl; Lit [58];
   Star Js.is_space; Star not_nl].

(** [/kw\s+[^\n]*[\u4e00-\u9fa5]+[^\n]*/g] for the keywords
    [quadrant-k], [title], [x-axis] and [y-axis]. *)
Definition re_cjk_line (kw : list Z) : regex :=
  [Lit kw; Plus Js.is_space; Star not_nl; Plus is_cjk; Star not_nl].

(** [/^\s*([^\n:]*[\u4e00-\u9fa5]+[^\n:]*?):\s*\[/gm] *)
Definition re_cjk_point : regex :=
  [Bol; Star Js.is_space; Star not_colon_nl; Plus is_cjk; StarLazy not_colon_nl;
   Lit [58]; Star Js.is_space; Lit [91]].

(** [/\w+:\s*\[\s*[\d.]+\s*,\s*[\d.]+\s*\]/] *)
Definition re_data_point : regex :=
  [Plus is_word; Lit [58]; Star Js.is_space; Lit [91]; Star Js.is_space;
   Plus digit_or_dot; Star Js.is_space; Lit [44]; Star Js.is_space;
   Plus digit_or_dot; Star Js.is_space; Lit [93]].

(** [/^(graph|flowchart)\s/m] *)
Definition re_flow_header : regex :=
  [Bol; Alts [kw_graph; kw_flowchart]; Cls Js.is_space].

(** [/subgraph\s/g] *)
Definition re_subgraph : regex := [Lit kw_subgraph; Cls Js.is_space].

(** [/\bend\b/g] *)
Definition re_end : regex := [WordB; Lit kw_end; WordB].

(** [subgraph\s+] then one code unit of [\u4e00-\u9fa5], then any
    number of code units other than the bracket, the double quote and
    the newline, then the bracket; g flag. *)
Definition re_cjk_subgraph : regex :=
  [Lit kw_subgraph; Plus Js.is_space; Cls is_cjk; Star not_bracket_quote_nl;
   Lit [91]].

(** [/^\s*([\u4e00-\u9fa5]+)\[/gm] *)
Definition re_cjk_node : regex := [Bol; Star Js.is_space; Plus is_cjk; Lit [91]].

(** Decimal digits of a counter, as in a template literal. *)
Definition decimal (n : nat) : list Z :=
  Js.u (NilEmpty.string_of_uint (Nat.to_uint n)).

(** The callbacks; the counters start at 1. *)
Definition req_name (n : nat) : list Z :=
  req_prefix ++ decimal (S n) ++ req_suffix.
Definition sg_name (n : nat) : list Z :=
  sg_prefix ++ decimal (S n) ++ [91].
Definition node_name (n : nat) : list Z :=
  node_prefix ++ decimal (S n) ++ [91].

(** Fix 1, the body of [if (fixedDefinition.includes('quadrantChart'))]. *)
Definition fixQuadrant (d : list Z) : list Z :=
  let d := replace (re_quadrant_colon 1) (fun _ => q1_label) d in
  let d := replace (re_quadrant_colon 2) (fun _ => q2_label) d in
  let d := replace (re_quadrant_colon 3) (fun _ => q3_label) d in
  let d := replace (re_quadrant_colon 4) (fun _ => q4_label) d in
  let d := replace (re_cjk_line (kw_quadrant 1)) (fun _ => q1_label) d in
  let d := replace (re_cjk_line (kw_quadrant 2)) (fun _ => q2_label) d in
  let d := replace (re_cjk_line (kw_quadrant 3)) (fun _ => q3_label) d in
  let d := replace (re_cjk_line (kw_quadrant 4)) (fun _ => q4_label) d in
  let d := replace (re_cjk_line kw_title) (fun _ => title_label) d in
  let d := replace (re_cjk_line kw_x_axis) (fun _ => x_axis_label) d in
  let d := replace (re_cjk_line kw_y_axis) (fun _ => y_axis_label) d in
  let d := replace re_cjk_point req_name d in
  if negb (test re_data_point d) then d ++ sample_point else d.

(** The [for] loop that appends the missing [end] lines. *)
Fixpoint append_ends (j : nat) (d : list Z) : list Z :=
  match j with
  | O => d
  | S j' => append_ends j' (d ++ end_line)
  end.

(** Fix 2, the body of [if (fixedDefinition.match(/^(graph|flowchart)\s/m))]. *)
Definition fixFlow (d : list Z) : list Z :=
  let subgraphCount := count re_subgraph d in
  let endCount := count re_end d in
  let d :=
    if (endCount <? subgraphCount)%nat
    then append_ends (subgraphCount - endCount) d else d in
  let d := replace re_cjk_subgraph sg_name d in
  replace re_cjk_node node_name d.

(** The preprocessing of one diagram: [fixedDefinition] as it is handed
    to [mermaid.render], from [graphDefinition]. *)
Definition fixDefinition (graphDefinition : list Z) : list Z :=
  let d := graphDefinition in
  let d := if includes quadrantChart d then fixQuadrant d else d in
  if test re_flow_header d then fixFlow d else d.

(** From the text of the element: [element.textContent.trim()] first. *)
Definition repair (textContent : list Z) : list Z :=
  fixDefinition (Js.trim textContent).

End Mermaid.

(** ** Notions used to reason about the matcher *)

(** The code unit before the position reached after reading [seg]. *)
Definition prev_after (prev : option Z) (seg : list Z) : option Z :=
  foldl (fun _ c => Some c) prev seg.

(** Where a star over [p] has to stop. *)
Definition stops (p : Z -> bool) (rest : list Z) : Prop :=
  match rest with [] => True | c :: _ => p c = false end.

(** An atom that cannot match without reading a code unit of class [q]. *)
Definition atom_requires (q : Z -> bool) (a : Regex.atom) : Prop :=
  match a with
  | Regex.Lit w => Exists (fun c => q c = true) w
  | Regex.Cls p | Regex.Plus p => forall c, p c = true -> q c = true
  | _ => False
  end.

(** A continuation gives the same answer when the text goes on with
    [tail], and the rest then goes on with [tail] too. *)
Definition tail_ok (tail : list Z) (k : Regex.cont) : Prop :=
  ∀ prev x, k prev (x ++ tail) = (fun r => r ++ tail) <$> k prev x.

(** A continuation fails on every text without the code unit [b]. *)
Definition tail_none (b : Z) (k : Regex.cont) : Prop :=
  ∀ prev t, Forall (fun c => (c =? b) = false) t → k prev t = None.

(** ** Quadrant charts in plain form

    The repair works on any text. The properties of the quadrant repair
    that speak of the lines of a chart are stated for the texts of one
    form, called plain here, which this module describes; it is a domain
    for theorems, not a part of the program, and the texts outside it are
    not covered by those theorems (some of them are repaired otherwise).

    A chart in plain form is the header [quadrantChart] followed by lines,
    each one a line break, four spaces and then either
    - a statement: one of the keywords [title], [x-axis], [y-axis],
      [quadrant-1] to [quadrant-4], one space, and a text. The text is not
      empty, it is made of ideographs (U+4E00 to U+9FA5), capital letters
      A to Z, digits, spaces, [-] and [>], and it begins and ends with an
      ideograph, a capital letter or a digit; or
    - a data point [name: [x, y]]: the name is not empty and made of
      ideographs, capital letters and digits, and [x] and [y] are not empty
      and made of digits and dots.
    So a plain chart has no lower-case letter outside its keywords, no
    colon outside its points, and no punctuation other than [-] and [>].
    [render] gives the text of a chart from its lines. During the repair a
    statement can turn into its fixed English form ([Fixed]) and a point
    into a numbered one ([Req]). *)

Module Chart.
Import Regex Mermaid.

Inductive keyword :=
| KTitle | KXAxis | KYAxis | KQuadrant1 | KQuadrant2 | KQuadrant3 | KQuadrant4.

Definition kw_quadrant1 : list Z := Eval cbv in kw_quadrant 1.
Definition kw_quadrant2 : list Z := Eval cbv in kw_quadrant 2.
Definition kw_quadrant3 : list Z := Eval cbv in kw_quadrant 3.
Definition kw_quadrant4 : list Z := Eval cbv in kw_quadrant 4.

Definition keyword_text (kw : keyword) : list Z :=
  match kw with
  | KTitle => kw_title
  | KXAxis => kw_x_axis
  | KYAxis => kw_y_axis
  | KQuadrant1 => kw_quadrant1
  | KQuadrant2 => kw_quadrant2
  | KQuadrant3 => kw_quadrant3
  | KQuadrant4 => kw_quadrant4
  end.

(** The replacement that the repair has for the statement of a keyword. *)
Definition keyword_label (kw : keyword) : list Z :=
  match kw with
  | KTitle => title_label
  | KXAxis => x_axis_label
  | KYAxis => y_axis_label
  | KQuadrant1 => q1_label
  | KQuadrant2 => q2_label
  | KQuadrant3 => q3_label
  | KQuadrant4 => q4_label
  end.

Inductive line :=
| Stmt (kw : keyword) (body : list Z)
| Fixed (kw : keyword)
| Point (name x y : list Z)
| Req (n : nat) (x y : list Z).

Definition is_upper (c : Z) : bool := (65 <=? c) && (c <=? 90).

(** Code units of a name: ideographs, capital letters and digits. *)
Definition label_char (c : Z) : bool := is_cjk c || is_upper c || is_digit c.

(** Code units of the text of a statement: those of a name, the space,
    the hyphen and [>] (as in [低 --> 高]). *)
Definition body_char (c : Z) : bool :=
  label_char c || (c =? 32) || (c =? 45) || (c =? 62).

Definition is_name (t : list Z) : bool :=
  Js.truthy t && forallb label_char t.

Definition is_body (t : list Z) : bool :=
  match t with
  | [] => false
  | c :: _ => label_char c && forallb body_char t && label_char (List.last t 0)
  end.

Definition is_number (t : list Z) : bool :=
  Js.truthy t && forallb digit_or_dot t.

Definition has_cjk (t : list Z) : bool := existsb is_cjk t.

(** The lines of a chart in plain form, before any repair: statements and
    points over the alphabets above. *)
Definition source_line (l : line) : bool :=
  match l with
  | Stmt _ body => is_body body
  | Point name x y => is_name name && is_number x && is_number y
  | Fixed _ | Req _ _ _ => false
  end.

Definition indent : list Z := [10; 32; 32; 32; 32].

Definition point_tail (x y : list Z) : list Z := x ++ [44; 32] ++ y ++ [93].

Definition render_line (l : line) : list Z :=
  indent ++
  match l with
  | Stmt kw body => keyword_text kw ++ 32 :: body
  | Fixed kw => keyword_label kw
  | Point name x y => name ++ [58; 32; 91] ++ point_tail x y
  | Req n x y => List.skipn 4 (req_name n) ++ point_tail x y
  end.

Definition render_lines (ls : list line) : list Z := flat_map render_line ls.

Definition render (ls : list line) : list Z := quadrantChart ++ render_lines ls.

(** What the repair is expected to turn a line into: a statement whose
    text has an ideograph becomes the fixed statement of its keyword, a
    point whose name has an ideograph gets the next number. *)
Definition fix_stmt (l : line) : line :=
  match l with
  | Stmt kw body => if has_cjk body then Fixed kw else l
  | _ => l
  end.

Fixpoint number_points (n : nat) (ls : list line) : list line :=
  match ls with
  | [] => []
  | Point name x y :: ls' =>
      if has_cjk name then Req n x y :: number_points (S n) ls'
      else Point name x y :: number_points n ls'
  | l :: ls' => l :: number_points n ls'
  end.

Definition repaired (ls : list line) : list line :=
  number_points 0 (List.map fix_stmt ls).

Definition is_point (l : line) : bool :=
  match l with
  | Point _ _ _ | Req _ _ _ => true
  | _ => false
  end.

(** *** Notions used to reason about the repair of a chart *)

(** The rest of the text after a line: nothing, or the next line. *)
Definition rest_ok (rest : list Z) : Prop :=
  match rest with [] => True | c :: _ => c = 10 end.

(** The first code unit of [s], if there is one, satisfies [P]. *)
Definition head_is (P : Z → Prop) (s : list Z) : Prop :=
  match s with [] => True | c :: _ => P c end.

(** The name part of the pattern for points, after [^\s*]. *)
Definition re_name_tail : regex :=
  [Star not_colon_nl; Plus is_cjk; StarLazy not_colon_nl; Lit [58];
   Star Js.is_space; Lit [91]].

(** A line that can occur during the repair of a source chart. *)
Definition wf_line (l : line) : bool :=
  match l with
  | Stmt _ body => is_body body
  | Fixed _ => true
  | Point name x y => is_name name && is_number x && is_number y
  | Req _ x y => is_number x && is_number y
  end.

#[global] Instance keyword_eq_dec : EqDecision keyword.
Proof. solve_decision. Defined.

(** What the pattern of keyword [kw0] does to a line. *)
Definition fix_keyword (kw0 : keyword) (l : line) : line :=
  match l with
  | Stmt kw body => if bool_decide (kw = kw0) && has_cjk body then Fixed kw else l
  | _ => l
  end.

(** Lines before the points are numbered. *)
Definition unnumbered (l : line) : bool :=
  match l with
  | Req _ _ _ => false
  | _ => wf_line l
  end.

(** The first code unit of a keyword. *)
Definition first_char (kw : keyword) : Z := List.hd 0 (keyword_text kw).

(** The pattern [kw\s+[^:\n]*:\s*[^\n]*] of a keyword. *)
Definition colon_pattern (kw : keyword) : regex :=
  [Lit (keyword_text kw); Plus Js.is_space; Star not_colon_nl; Lit [58];
   Star Js.is_space; Star not_nl].

(** A line without its line break and indentation. *)
Definition line_content (l : line) : list Z :=
  match l with
  | Stmt kw body => keyword_text kw ++ 32 :: body
  | Fixed kw => keyword_label kw
  | Point name x y => name ++ [58; 32; 91] ++ point_tail x y
  | Req n x y => List.skipn 4 (req_name n) ++ point_tail x y
  end.

(** What numbering does to one line, and the next number. *)
Definition number_line (n : nat) (l : line) : line * nat :=
  match l with
  | Point name x y => if has_cjk name then (Req n x y, S n) else (l, n)
  | _ => (l, n)
  end.

(** The rewriting steps of [fixQuadrant], before the check for a data
    point. *)
Definition fixQuadrant_rewrites (d : list Z) : list Z :=
  let d := replace (re_quadrant_colon 1) (fun _ => q1_label) d in
  let d := replace (re_quadrant_colon 2) (fun _ => q2_label) d in
  let d := replace (re_quadrant_colon 3) (fun _ => q3_label) d in
  let d := replace (re_quadrant_colon 4) (fun _ => q4_label) d in
  let d := replace (re_cjk_line (kw_quadrant 1)) (fun _ => q1_label) d in
  let d := replace (re_cjk_line (kw_quadrant 2)) (fun _ => q2_label) d in
  let d := replace (re_cjk_line (kw_quadrant 3)) (fun _ => q3_label) d in
  let d := replace (re_cjk_line (kw_quadrant 4)) (fun _ => q4_label) d in
  let d := replace (re_cjk_line kw_title) (fun _ => title_label) d in
  let d := replace (re_cjk_line kw_x_axis) (fun _ => x_axis_label) d in
  let d := replace (re_cjk_line kw_y_axis) (fun _ => y_axis_label) d in
  replace re_cjk_point req_name d.

(** A line of a repaired chart: no ideograph is left in a statement or in
    the name of a point. *)
Definition final_line (l : line) : bool :=
  wf_line l &&
  match l with
  | Stmt _ body => negb (has_cjk body)
  | Point name _ _ => negb (has_cjk name)
  | _ => true
  end.

(** No line of the text starts with [g] or [f]. *)
Fixpoint flow_free (prev : option Z) (s : list Z) : Prop :=
  match s with
  | [] => True
  | c :: s' => (at_line_start prev = true → c ≠ 103 ∧ c ≠ 102) ∧ flow_free (Some c) s'
  end.

(** The default point, appended when the chart has no point ([b] false). *)
Definition sample_if (b : bool) : list Z := if b then [] else sample_point.

End Chart.

(** ** Sample diagrams *)

(** A flow chart with two [subgraph] openings and no [end]:
    [flowchart TD / subgraph 采购[Purchasing] / 采购部[Dept] --> B /
    subgraph S2 / C --> D]. *)
Definition flow_two_open : list Z :=
  [102; 108; 111; 119; 99; 104; 97; 114; 116; 32; 84; 68; 10; 32; 32; 32;
   32; 115; 117; 98; 103; 114; 97; 112; 104; 32; 37319; 36141; 91; 80; 117;
   114; 99; 104; 97; 115; 105; 110; 103; 93; 10; 32; 32; 32; 32; 37319;
   36141; 37096; 91; 68; 101; 112; 116; 93; 32; 45; 45; 62; 32; 66; 10; 32;
   32; 32; 32; 115; 117; 98; 103; 114; 97; 112; 104; 32; 83; 50; 10; 32;
   32; 32; 32; 67; 32; 45; 45; 62; 32; 68].

(** Its repair: [subgraph SG1[Purchasing]], [N1[Dept] --> B] and two
    [end] lines at the end. *)
Definition flow_two_open_repaired : list Z :=
  [102; 108; 111; 119; 99; 104; 97; 114; 116; 32; 84; 68; 10; 32; 32; 32;
   32; 115; 117; 98; 103; 114; 97; 112; 104; 32; 83; 71; 49; 91; 80; 117;
   114; 99; 104; 97; 115; 105; 110; 103; 93; 10; 32; 32; 32; 32; 78; 49;
   91; 68; 101; 112; 116; 93; 32; 45; 45; 62; 32; 66; 10; 32; 32; 32; 32;
   115; 117; 98; 103; 114; 97; 112; 104; 32; 83; 50; 10; 32; 32; 32; 32;
   67; 32; 45; 45; 62; 32; 68; 10; 32; 32; 32; 32; 101; 110; 100; 10; 32;
   32; 32; 32; 101; 110; 100].


(** [quadrantChart / quadrant-1]: a quadrant statement without a label at
    the end of the source. *)
Definition quadrant_unlabelled : list Z :=
  [113; 117; 97; 100; 114; 97; 110; 116; 67; 104; 97; 114; 116; 10; 113;
   117; 97; 100; 114; 97; 110; 116; 45; 49].



(** A chart that mixes the two: [title PRIORITIES], [quadrant-1 立即执行],
    [quadrant-2 PLAN] and the points [需求一], [A1] and [需求二]. *)
Definition mixed_chart : list Chart.line :=
  [Chart.Stmt Chart.KTitle [80; 82; 73; 79; 82; 73; 84; 73; 69; 83];
   Chart.Stmt Chart.KQuadrant1 [31435; 21363; 25191; 34892];
   Chart.Stmt Chart.KQuadrant2 [80; 76; 65; 78];
   Chart.Point [38656; 27714; 19968] [48; 46; 56] [48; 46; 57];
   Chart.Point [65; 49] [48; 46; 50] [48; 46; 51];
   Chart.Point [38656; 27714; 20108] [48; 46; 53] [48; 46; 49]].

(** The first statements of [fetchNextQuestion], before its [try]. *)
Definition fetchBegin (st : State) : State :=
  set_otherSelected false (set_otherAnswerText [] (set_selectedAnswers []
    (startWebSearchPolling (set_loadingQuestion true st)))).

(** ** Sample data *)

Definition cov (c : Z) : Dimension := {| coverage := c |}.

Definition session_of (c1 c2 c3 c4 : Z) : Session :=
  {| session_id := Js.u "s1";
     dimensions :=
       <["customer_needs"%string := cov c1]>
         (<["business_process"%string := cov c2]>
            (<["tech_constraints"%string := cov c3]>
               (<["project_constraints"%string := cov c4]> ∅)));
     interview_log := [] |}.

Definition question_of (multi : bool) : Question :=
  {| text := Js.u "Q"; options := [Js.u "A"; Js.u "B"]; multiSelect := multi;
     isFollowUp := false; followUpReason := None; conflictDetected := false;
     conflictDescription := None; aiGenerated := true;
     serviceError := false; errorTitle := []; errorDetail := [] |}.

Definition state_of (sess : Session) (dim : string) (q : Question)
    (selected : list (list Z)) (other : bool) (otherText : list Z) : State :=
  {| currentSession := Some sess; currentDimension := dim; currentQuestion := q;
     selectedAnswers := selected; otherAnswerText := otherText;
     otherSelected := other; loadingQuestion := false; isGoingPrev := false;
     webSearchPollInterval := false; webSearching := false; toast := None |}.

(** The second dimension is active and complete, the first is not. *)
Definition state_second_done : State :=
  state_of (session_of 50 100 50 70) "business_process" (question_of false) [] false [].

(** The reply [completed: true] of a healthy server, and a reply that
    carries a question. *)
Definition reply_body (completed : bool) (question : list Z) : NextQuestionBody :=
  {| r_error := None; r_detail := None; r_completed := completed;
     r_question := question; r_options := Some [Js.u "A"; Js.u "B"];
     r_multi_select := false; r_is_follow_up := false;
     r_follow_up_reason := None; r_conflict_detected := false;
     r_conflict_description := None; r_ai_generated := true |}.

(** An entry of the log, and a session with a log. *)
Definition log_entry (dim : string) (question : list Z) : LogEntry :=
  {| log_question := question; log_answer := Js.u "A"; log_dimension := dim;
     log_options := [Js.u "A"; Js.u "B"]; log_multi_select := false |}.

Definition session_with_log (log : list LogEntry) : Session :=
  {| session_id := Js.u "s1"; dimensions := dimensions (session_of 50 100 50 70);
     interview_log := log |}.

(** ** The rest of the interview flow *)

(** '没有可撤销的问题' *)
Definition msg_nothing_to_undo : list Z := [27809; 26377; 21487; 25764; 38144; 30340; 38382; 39064].
(** '撤销失败' *)
Definition msg_undo_failed : list Z := [25764; 38144; 22833; 36133].
(** '已恢复上一题，请重新作答' *)
Definition msg_restored : list Z :=
  [24050; 24674; 22797; 19978; 19968; 39064; 65292; 35831; 37325; 26032; 20316; 31572].
(** '加载会话失败' *)
Definition msg_load_failed : list Z := [21152; 36733; 20250; 35805; 22833; 36133].

(** [isOptionSelected(option)] *)
Definition isOptionSelected (option : list Z) (st : State) : bool :=
  bool_decide (option ∈ selectedAnswers st).

(** [getQuestionNumber]; [None] when there is no session (the property
    read throws). *)
Definition getQuestionNumber (st : State) : option Z :=
  match currentSession st with
  | None => None
  | Some sess =>
      let answered :=
        length (filter (fun l => log_dimension l = currentDimension st)
                  (interview_log sess)) in
      Some (Z.of_nat answered + 1)
  end.

(** [canGoPrevQuestion] *)
Definition canGoPrevQuestion (st : State) : bool :=
  match currentSession st with
  | Some sess => (0 <? length (interview_log sess))%nat
  | None => false
  end.

(** The question that [goPrevQuestion] restores from the last entry of
    the log. *)
Definition savedQuestion (lastLog : LogEntry) : Question :=
  {| text := log_question lastLog; options := log_options lastLog;
     multiSelect := log_multi_select lastLog; isFollowUp := false;
     followUpReason := None; conflictDetected := false;
     conflictDescription := None; aiGenerated := true;
     serviceError := false; errorTitle := []; errorDetail := [] |}.

(** [goPrevQuestion]. [api] is the server's reaction to the
    [undo-answer] request. *)
Definition goPrevQuestion (api : ApiReply Session) (st : State) : State :=
  if negb (canGoPrevQuestion st) then st
  else
    let failed := showToast msg_undo_failed toast_error st in
    let attempt :=
      match currentSession st with
      | None => failed
      | Some sess =>
          match list.last (interview_log sess) with
          | None => showToast msg_nothing_to_undo toast_warning st
          | Some lastLog =>
              match api with
              | ApiUnreachable | ApiNotOk _ => failed
              | ApiOk updatedSession =>
                  let st := set_currentSession (Some updatedSession) st in
                  let st := set_currentDimension (log_dimension lastLog) st in
                  let st := set_isGoingPrev true st in
                  let st := set_currentQuestion (savedQuestion lastLog) st in
                  let st := set_selectedAnswers [] st in
                  let st := set_otherAnswerText [] st in
                  let st := set_otherSelected false st in
                  let st := set_loadingQuestion false st in
                  showToast msg_restored toast_success st
              end
          end
      end in
    set_isGoingPrev false attempt.

(** The part of the component around the interview: the step of the
    wizard, the view, and whether a report is being generated. *)
Inductive View := view_sessions | view_interview | view_reports.

Record App := {
  app_state : State;
  currentStep : Z;
  currentView : View;
  generatingReport : bool
}.

(** [openSession(sessionId)]. [api] is the server's reaction to the
    request for the session. *)
Definition openSession (api : ApiReply Session) (replies : list FetchReply)
    (app : App) : option (App * list FetchReply) :=
  match api with
  | ApiUnreachable | ApiNotOk _ =>
      Some ({| app_state := showToast msg_load_failed toast_error (app_state app);
               currentStep := currentStep app; currentView := currentView app;
               generatingReport := generatingReport app |}, replies)
  | ApiOk sess =>
      let st := set_currentSession (Some sess) (app_state app) in
      let step := if (0 <? length (interview_log sess))%nat then 1 else 0 in
      match getNextIncompleteDimension st with
      | None =>
          Some ({| app_state := showToast msg_load_failed toast_error st;
                   currentStep := step; currentView := currentView app;
                   generatingReport := generatingReport app |}, replies)
      | Some dim =>
          let st := set_currentDimension dim st in
          if step =? 1 then
            match fetchNextQuestion replies st with
            | None => None
            | Some (st', rest) =>
                Some ({| app_state := st'; currentStep := step;
                         currentView := view_interview;
                         generatingReport := generatingReport app |}, rest)
            end
          else
            Some ({| app_state := st; currentStep := step;
                     currentView := view_interview;
                     generatingReport := generatingReport app |}, replies)
      end
  end.

(** [startInterview] *)
Definition startInterview (replies : list FetchReply) (app : App)
  : option (App * list FetchReply) :=
  match fetchNextQuestion replies
          (set_currentDimension "customer_needs" (app_state app)) with
  | None => None
  | Some (st', rest) =>
      Some ({| app_state := st'; currentStep := 1; currentView := currentView app;
               generatingReport := generatingReport app |}, rest)
  end.

(** The classes of [getStepClass]. *)
Definition class_step_done : list Z := Eval cbv in Js.u "bg-[#357BE2] text-white".
Definition class_step_current : list Z := Eval cbv in Js.u "bg-cta text-white".
Definition class_step_todo : list Z := Eval cbv in Js.u "bg-gray-200 text-gray-500".

(** [getStepClass(idx)] *)
Definition getStepClass (idx : Z) (app : App) : list Z :=
  if (idx <? currentStep app) || ((idx =? 2) && generatingReport app)
  then class_step_done
  else if idx =? currentStep app then class_step_current
  else class_step_todo.

(** One tick of the timer of [startQuoteRotation], on the index of the
    quote shown; [len] is [quotes.length]. *)
Definition nextQuoteIndex (len currentQuoteIndex : Z) : Z :=
  Z.rem (currentQuoteIndex + 1) len.

(** ** Decoding the entities of a diagram block

    The chain of [replace] and [trim] that [renderMarkdown] applies to
    the text of a [language-mermaid] block. *)

Definition ent_lt : list Z := Eval cbv in Js.u "&lt;".
Definition ent_gt : list Z := Eval cbv in Js.u "&gt;".
Definition ent_amp : list Z := Eval cbv in Js.u "&amp;".
Definition ent_quot : list Z := Eval cbv in Js.u "&quot;".

Definition decodedCode (mermaidCode : list Z) : list Z :=
  let s := Regex.replace [Regex.Lit ent_lt] (fun _ => [60]) mermaidCode in
  let s := Regex.replace [Regex.Lit ent_gt] (fun _ => [62]) s in
  let s := Regex.replace [Regex.Lit ent_amp] (fun _ => [38]) s in
  let s := Regex.replace [Regex.Lit ent_quot] (fun _ => [34]) s in
  Js.trim s.

(** The escaping that the decoding is meant to undo: the ampersand, the
    angle brackets and the double quote written as entities. *)
Definition escape_unit (c : Z) : list Z :=
  if c =? 38 then ent_amp
  else if c =? 60 then ent_lt
  else if c =? 62 then ent_gt
  else if c =? 34 then ent_quot
  else [c].

Definition escapeHtml (s : list Z) : list Z := flat_map escape_unit s.

(** The escaping after each of the first three steps of the decoding. *)
Definition escape_unit1 (c : Z) : list Z :=
  if c =? 38 then ent_amp
  else if c =? 62 then ent_gt
  else if c =? 34 then ent_quot
  else [c].

Definition escape_unit2 (c : Z) : list Z :=
  if c =? 38 then ent_amp
  else if c =? 34 then ent_quot
  else [c].

Definition escape_unit3 (c : Z) : list Z :=
  if c =? 34 then ent_quot else [c].

(** In the text [flat_map tok s], either the first unit of [s] is written
    as [w], or no match of [w] starts in what it is written as; and so on
    for the rest of [s]. *)
Fixpoint literal_scan (w : list Z) (tok : Z -> list Z) (s : list Z) : Prop :=
  match s with
  | [] => True
  | c :: s' =>
      (tok c = w
       ∨ (∀ i k prev, (i < length (tok c))%nat →
            Regex.lit w k prev (drop i (tok c) ++ flat_map tok s') = None))
      ∧ literal_scan w tok s'
  end.

(** What the literal replacement makes of the writing of each unit. *)
Definition literal_step (w r : list Z) (tok : Z -> list Z) (c : Z) : list Z :=
  if bool_decide (tok c = w) then r else tok c.

(** The three fields of the answer controls. *)
Definition selection (st : State) : list (list Z) * bool * list Z :=
  (selectedAnswers st, otherSelected st, otherAnswerText st).

(** A reply of the server that says the dimension is completed. *)
Definition says_completed (r : FetchReply) : bool :=
  match r with
  | FetchResolved ok result =>
      ok && negb (truthy_opt (r_error result)) && r_completed result
  | FetchRejected => false
  end.

(** The sum of the coverages of the four dimensions. *)
Definition total_coverage (sess : Session) : Z :=
  foldr (fun k sum => from_option coverage 0 (dimensions sess !! k) + sum) 0
    dimensionOrder.

(** The coordinates of a point, and the keyword of a statement. *)
Definition coordinates (l : Chart.line) : option (list Z * list Z) :=
  match l with
  | Chart.Point _ x y | Chart.Req _ x y => Some (x, y)
  | _ => None
  end.

Definition keyword_of (l : Chart.line) : option Chart.keyword :=
  match l with
  | Chart.Stmt kw _ | Chart.Fixed kw => Some kw
  | _ => None
  end.

(** The number of a renamed point. *)
Definition req_index (l : Chart.line) : option nat :=
  match l with
  | Chart.Req n _ _ => Some n
  | _ => None
  end.

(** Is the line a point whose name has an ideograph. *)
Definition cjk_point (l : Chart.line) : bool :=
  match l with
  | Chart.Point name _ _ => Chart.has_cjk name
  | _ => false
  end.

(** [graph TD; subgraph A; B --> C]: a flow chart without ideographs and
    with an opening that is not closed. *)
Definition flow_latin : list Z := Eval cbv in Js.u "graph TD; subgraph A; B --> C".

(** The toast of [goPrevQuestion] after a successful undo. *)
Definition toast_restored : Toast :=
  {| toast_message := msg_restored; toast_type := toast_success |}.

(** The number of answers of a dimension in a log. *)
Definition answered (dim : string) (log : list LogEntry) : nat :=
  length (filter (fun l => log_dimension l = dim) log).

(** A session in which only the last dimension is below 100. *)
Definition state_almost_done : State :=
  state_of (session_of 100 100 100 98) "project_constraints" (question_of false)
    [] false [].

(** A component that shows the list of sessions. *)
Definition app_of (st : State) : App :=
  {| app_state := st; currentStep := 0; currentView := view_sessions;
     generatingReport := false |}.

(** A session whose [dimensions] object is empty. *)
Definition session_without_dimensions : Session :=
  {| session_id := Js.u "s2"; dimensions := ∅; interview_log := [] |}.

(** ** JavaScript numbers

    The numbers of the language are the binary64 floats of the kernel. *)

Module JsNumber.

(** An integer literal (exact up to 2^53). *)
Definition of_Z (z : Z) : PrimFloat.float :=
  if z <? 0 then PrimFloat.opp (PrimFloat.of_uint63 (Uint63.of_Z (- z)))
  else PrimFloat.of_uint63 (Uint63.of_Z z).

Definition is_nan (x : PrimFloat.float) : bool := negb (PrimFloat.eqb x x).

(** [Math.max(a, b)] and [Math.min(a, b)]: [NaN] if either is, and the
    positive zero is the larger zero. *)
Definition Math_max (a b : PrimFloat.float) : PrimFloat.float :=
  if is_nan a then a else if is_nan b then b
  else if PrimFloat.ltb a b then b
  else if PrimFloat.ltb b a then a
  else if PrimFloat.get_sign a then b else a.

Definition Math_min (a b : PrimFloat.float) : PrimFloat.float :=
  if is_nan a then a else if is_nan b then b
  else if PrimFloat.ltb a b then a
  else if PrimFloat.ltb b a then b
  else if PrimFloat.get_sign a then a else b.

(** [Math.round(x)] of a finite number: the nearest integer, ties towards
    positive infinity, computed on the exact value of the float. [None]
    when [x] is not finite. *)
Definition Math_round (x : PrimFloat.float) : option Z :=
  match FloatOps.Prim2SF x with
  | SpecFloat.S754_zero _ => Some 0
  | SpecFloat.S754_finite s m e =>
      let v := if s then - Z.pos m else Z.pos m in
      Some (if 0 <=? e then v * 2 ^ e
            else (2 * v + 2 ^ (- e)) `div` 2 ^ (- e + 1))
  | _ => None
  end.

(** An integer in a template literal; [NaN] for [None]. *)
Definition to_text (n : option Z) : list Z :=
  match n with
  | Some z =>
      (if z <? 0 then [45] else [])
      ++ Js.u (NilEmpty.string_of_uint (Nat.to_uint (Z.to_nat (Z.abs z))))
  | None => [78; 97; 78]
  end.

End JsNumber.

(** '#357BE2' *)
Definition color_complete : list Z := Eval cbv in Js.u "#357BE2".

(** [rgb(r, g, b)] *)
Definition rgb (r g b : option Z) : list Z :=
  Js.u "rgb(" ++ JsNumber.to_text r ++ Js.u ", " ++ JsNumber.to_text g
  ++ Js.u ", " ++ JsNumber.to_text b ++ Js.u ")".

(** [getProgressColor(percentage)]. [progressComplete] is
    [SITE_CONFIG.colors.progressComplete], [None] when the configuration
    or the entry is missing. *)
Definition getProgressColor (progressComplete : option (list Z))
    (percentage : PrimFloat.float) : list Z :=
  if PrimFloat.leb (JsNumber.of_Z 100) percentage then
    match progressComplete with
    | Some c => if Js.truthy c then c else color_complete
    | None => color_complete
    end
  else
    let channel (startColor endColor : Z) ratio :=
      JsNumber.Math_round
        (PrimFloat.add (JsNumber.of_Z startColor)
           (PrimFloat.mul
              (PrimFloat.sub (JsNumber.of_Z endColor) (JsNumber.of_Z startColor))
              ratio)) in
    let ratio :=
      PrimFloat.div
        (JsNumber.Math_min (JsNumber.Math_max percentage (JsNumber.of_Z 0))
           (JsNumber.of_Z 100))
        (JsNumber.of_Z 100) in
    rgb (channel 212 82 ratio) (channel 212 82 ratio) (channel 212 82 ratio).

(** The grey of a percentage below 100: 212 - 1.3 p, rounded, ties up. *)
Definition grey_level (p : Z) : Z := (21250 - 130 * p) `div` 100.

(** ** The list of sessions *)

(** '会话已删除' *)
Definition msg_session_deleted : list Z := [20250; 35805; 24050; 21024; 38500].
(** '删除会话失败' *)
Definition msg_delete_failed : list Z := [21024; 38500; 20250; 35805; 22833; 36133].

(** The fields that [confirmDeleteSession] and [deleteSession] use. *)
Record SessionList := {
  sessions : list Session;
  sessionToDelete : option (list Z);
  showDeleteModal : bool;
  list_toast : option Toast
}.

(** [confirmDeleteSession(sessionId)] *)
Definition confirmDeleteSession (sessionId : list Z) (sl : SessionList) : SessionList :=
  {| sessions := sessions sl; sessionToDelete := Some sessionId;
     showDeleteModal := true; list_toast := list_toast sl |}.

(** [deleteSession]. [api] is the server's reaction to the DELETE
    request. *)
Definition deleteSession (api : ApiReply unit) (sl : SessionList) : SessionList :=
  match sessionToDelete sl with
  | None => sl
  | Some id =>
      if negb (Js.truthy id) then sl
      else
        match api with
        | ApiOk _ =>
            {| sessions := filter (fun s => session_id s ≠ id) (sessions sl);
               sessionToDelete := None; showDeleteModal := false;
               list_toast := Some {| toast_message := msg_session_deleted;
                                     toast_type := toast_success |} |}
        | _ =>
            {| sessions := sessions sl; sessionToDelete := sessionToDelete sl;
               showDeleteModal := showDeleteModal sl;
               list_toast := Some {| toast_message := msg_delete_failed;
                                     toast_type := toast_error |} |}
        end
  end.

(** A list of two sessions. *)
Definition two_sessions : SessionList :=
  {| sessions := [session_of 0 0 0 0; session_without_dimensions];
     sessionToDelete := None; showDeleteModal := false; list_toast := None |}.

(** ** Quadrant statements with a description

    [quadrant-k label: description], the form that the first four
    replacements of the quadrant repair look for. *)

Definition is_quadrant (kw : Chart.keyword) : bool :=
  match kw with
  | Chart.KQuadrant1 | Chart.KQuadrant2 | Chart.KQuadrant3 | Chart.KQuadrant4 => true
  | _ => false
  end.

Definition colon_line (kw : Chart.keyword) (label desc : list Z) : list Z :=
  Chart.indent ++ Chart.keyword_text kw ++ 32 :: label ++ 58 :: 32 :: desc.

(** A chart with one such statement between the lines [pre] and [post]. *)
Definition colon_chart (pre : list Chart.line) (kw : Chart.keyword)
    (label desc : list Z) (post : list Chart.line) : list Z :=
  Chart.render pre ++ colon_line kw label desc ++ Chart.render_lines post.

(** ** Charts with Chinese quadrant labels and a Chinese point *)





(** ** What the specification says, for comparison *)

(** Every key of the canonical order has an entry. *)
Definition all_dimensions_present (sess : Session) : bool :=
  forallb (fun k => bool_decide (is_Some (dimensions sess !! k))) dimensionOrder.

Definition incomplete (sess : Session) (k : string) : bool :=
  match dimensions sess !! k with
  | Some d => coverage d <? 100
  | None => false
  end.

(** The keys that follow [cur] in the canonical order, wrapping around
    and ending with [cur] itself. *)
Definition rotation_after (cur : string) : list string :=
  let i := Z.to_nat (Js.indexOf dimensionOrder cur + 1) in
  drop i dimensionOrder ++ take i dimensionOrder.

(** [nextIncomplete] in the words of the specification: scan the
    canonical order starting right after the active dimension, wrapping;
    the first dimension with coverage below 100, or else the first
    dimension of the canonical order. *)
Definition nextIncomplete_spec (st : State) : option string :=
  match currentSession st with
  | None => None
  | Some sess =>
      match filter (fun k => incomplete sess k = true) (rotation_after (currentDimension st)) with
      | k :: _ => Some k
      | [] => head dimensionOrder
      end
  end.

(** The user actions on the answer controls. *)
Inductive SelectAction :=
| ToggleOption (option : list Z)
| ToggleOther.

Definition select_step (st : State) (a : SelectAction) : State :=
  match a with
  | ToggleOption o => toggleOption o st
  | ToggleOther => toggleOther st
  end.

Definition select_run (acts : list SelectAction) (st : State) : State :=
  foldl select_step st acts.

(** A request that fails: the server is unreachable, or it answers with
    an error. *)
Definition fetch_fails (r : FetchReply) : bool :=
  match r with
  | FetchRejected => true
  | FetchResolved ok result => negb ok || truthy_opt (r_error result)
  end.

Definition api_fails {A} (r : ApiReply A) : bool :=
  match r with
  | ApiOk _ => false
  | _ => true
  end.

(** * Properties *)

(** ** Dimension traversal *)

Section Traversal.
Implicit Types (dims : gmap string Dimension) (order : list string).

Lemma scanIncomplete_found dims order dim :
  scanIncomplete dims order = Some (Some dim) →
  ∃ before after d,
    order = before ++ dim :: after ∧ dims !! dim = Some d ∧ coverage d < 100 ∧
    Forall (fun k => ∃ d', dims !! k = Some d' ∧ 100 <= coverage d') before.
Proof.
  induction order as [|k order IH]; simpl; [done|].
  destruct (dims !! k) as [d|] eqn:Hk; [|done].
  destruct (coverage d <? 100) eqn:Hc.
  - intros [= <-]. exists [], order, d. repeat split; auto. lia.
  - intros (before & after & d' & -> & ? & ? & ?)%IH.
    exists (k :: before), after, d'. repeat split; auto.
    constructor; [|done]. exists d. split; [done|lia].
Qed.

Lemma scanIncomplete_none dims order :
  scanIncomplete dims order = Some None →
  Forall (fun k => ∃ d, dims !! k = Some d ∧ 100 <= coverage d) order.
Proof.
  induction order as [|k order IH]; simpl; [constructor|].
  destruct (dims !! k) as [d|] eqn:Hk; [|done].
  destruct (coverage d <? 100) eqn:Hc; [done|].
  intros ?%IH. constructor; [|done]. exists d. split; [done|lia].
Qed.

Lemma scanIncomplete_total dims order :
  Forall (fun k => is_Some (dims !! k)) order →
  is_Some (scanIncomplete dims order).
Proof.
  induction 1 as [|k order [d Hd] _ IH]; simpl; [by eexists|].
  rewrite Hd. destruct (coverage d <? 100); [by eexists|done].
Qed.

Lemma all_dimensions_present_Forall sess :
  all_dimensions_present sess = true →
  Forall (fun k => is_Some (dimensions sess !! k)) dimensionOrder.
Proof.
  unfold all_dimensions_present. rewrite forallb_forall, Forall_forall.
  intros H k Hk. apply list_elem_of_In in Hk.
  specialize (H k Hk). by apply bool_decide_eq_true in H.
Qed.

End Traversal.

Lemma incomplete_spec (sess : Session) (k : string) :
  incomplete sess k = true ↔ ∃ d, dimensions sess !! k = Some d ∧ coverage d < 100.
Proof.
  unfold incomplete. destruct (dimensions sess !! k) as [d|]; split.
  - intros H. exists d. split; [done|lia].
  - intros (d' & [= <-] & H). lia.
  - done.
  - by intros (? & ? & ?).
Qed.

Lemma scanIncomplete_some_incomplete (sess : Session) (order : list string) :
  existsb (incomplete sess) order = true →
  scanIncomplete (dimensions sess) order ≠ Some None.
Proof.
  intros (k & Hk & Hinc)%existsb_exists Hnone.
  apply scanIncomplete_none in Hnone. rewrite Forall_forall in Hnone.
  apply list_elem_of_In in Hk. destruct (Hnone k Hk) as (d & Hd & Hge).
  apply incomplete_spec in Hinc as (d' & Hd' & Hlt). simplify_eq. lia.
Qed.

Lemma scanAfter_rotation (dims : gmap string Dimension) (cur : string) :
  cur ∈ dimensionOrder →
  scanAfter dims (Js.indexOf dimensionOrder cur)
    (seqZ 1 (Z.of_nat (length dimensionOrder)))
  = scanIncomplete dims (rotation_after cur).
Proof.
  unfold dimensionOrder. intros H.
  repeat (apply elem_of_cons in H as [->|H]); [reflexivity..|].
  by apply elem_of_nil in H.
Qed.

(** ** Reading a field back after an update *)

Lemma currentSession_set_currentSession v st : currentSession (set_currentSession v st) = v.
Proof. reflexivity. Qed.

Lemma currentDimension_set_currentSession v st : currentDimension (set_currentSession v st) = currentDimension st.
Proof. reflexivity. Qed.

Lemma currentQuestion_set_currentSession v st : currentQuestion (set_currentSession v st) = currentQuestion st.
Proof. reflexivity. Qed.

Lemma selectedAnswers_set_currentSession v st : selectedAnswers (set_currentSession v st) = selectedAnswers st.
Proof. reflexivity. Qed.

Lemma otherAnswerText_set_currentSession v st : otherAnswerText (set_currentSession v st) = otherAnswerText st.
Proof. reflexivity. Qed.

Lemma otherSelected_set_currentSession v st : otherSelected (set_currentSession v st) = otherSelected st.
Proof. reflexivity. Qed.

Lemma currentSession_set_currentDimension v st : currentSession (set_currentDimension v st) = currentSession st.
Proof. reflexivity. Qed.

Lemma currentDimension_set_currentDimension v st : currentDimension (set_currentDimension v st) = v.
Proof. reflexivity. Qed.

Lemma currentQuestion_set_currentDimension v st : currentQuestion (set_currentDimension v st) = currentQuestion st.
Proof. reflexivity. Qed.

Lemma selectedAnswers_set_currentDimension v st : selectedAnswers (set_currentDimension v st) = selectedAnswers st.
Proof. reflexivity. Qed.

Lemma otherAnswerText_set_currentDimension v st : otherAnswerText (set_currentDimension v st) = otherAnswerText st.
Proof. reflexivity. Qed.

Lemma otherSelected_set_currentDimension v st : otherSelected (set_currentDimension v st) = otherSelected st.
Proof. reflexivity. Qed.

Lemma currentSession_set_currentQuestion v st : currentSession (set_currentQuestion v st) = currentSession st.
Proof. reflexivity. Qed.

Lemma currentDimension_set_currentQuestion v st : currentDimension (set_currentQuestion v st) = currentDimension st.
Proof. reflexivity. Qed.

Lemma currentQuestion_set_currentQuestion v st : currentQuestion (set_currentQuestion v st) = v.
Proof. reflexivity. Qed.

Lemma selectedAnswers_set_currentQuestion v st : selectedAnswers (set_currentQuestion v st) = selectedAnswers st.
Proof. reflexivity. Qed.

Lemma otherAnswerText_set_currentQuestion v st : otherAnswerText (set_currentQuestion v st) = otherAnswerText st.
Proof. reflexivity. Qed.

Lemma otherSelected_set_currentQuestion v st : otherSelected (set_currentQuestion v st) = otherSelected st.
Proof. reflexivity. Qed.

Lemma currentSession_showToast m t st : currentSession (showToast m t st) = currentSession st.
Proof. reflexivity. Qed.

Lemma currentDimension_showToast m t st : currentDimension (showToast m t st) = currentDimension st.
Proof. reflexivity. Qed.

Lemma currentQuestion_showToast m t st : currentQuestion (showToast m t st) = currentQuestion st.
Proof. reflexivity. Qed.

Lemma selectedAnswers_showToast m t st : selectedAnswers (showToast m t st) = selectedAnswers st.
Proof. reflexivity. Qed.

Lemma otherAnswerText_showToast m t st : otherAnswerText (showToast m t st) = otherAnswerText st.
Proof. reflexivity. Qed.

Lemma otherSelected_showToast m t st : otherSelected (showToast m t st) = otherSelected st.
Proof. reflexivity. Qed.

Lemma currentSession_fetchSettled st : currentSession (fetchSettled st) = currentSession st.
Proof. destruct st as [? ? ? ? ? ? ? ? [] ? ?]; reflexivity. Qed.

Lemma currentDimension_fetchSettled st : currentDimension (fetchSettled st) = currentDimension st.
Proof. destruct st as [? ? ? ? ? ? ? ? [] ? ?]; reflexivity. Qed.

Lemma currentQuestion_fetchSettled st : currentQuestion (fetchSettled st) = currentQuestion st.
Proof. destruct st as [? ? ? ? ? ? ? ? [] ? ?]; reflexivity. Qed.

Lemma selectedAnswers_fetchSettled st : selectedAnswers (fetchSettled st) = selectedAnswers st.
Proof. destruct st as [? ? ? ? ? ? ? ? [] ? ?]; reflexivity. Qed.

Lemma otherAnswerText_fetchSettled st : otherAnswerText (fetchSettled st) = otherAnswerText st.
Proof. destruct st as [? ? ? ? ? ? ? ? [] ? ?]; reflexivity. Qed.

Lemma otherSelected_fetchSettled st : otherSelected (fetchSettled st) = otherSelected st.
Proof. destruct st as [? ? ? ? ? ? ? ? [] ? ?]; reflexivity. Qed.

Lemma currentSession_fetchFailed st : currentSession (fetchFailed st) = currentSession st.
Proof. reflexivity. Qed.

Lemma currentDimension_fetchFailed st : currentDimension (fetchFailed st) = currentDimension st.
Proof. reflexivity. Qed.

Lemma selectedAnswers_fetchFailed st : selectedAnswers (fetchFailed st) = selectedAnswers st.
Proof. reflexivity. Qed.

Lemma otherAnswerText_fetchFailed st : otherAnswerText (fetchFailed st) = otherAnswerText st.
Proof. reflexivity. Qed.

Lemma otherSelected_fetchFailed st : otherSelected (fetchFailed st) = otherSelected st.
Proof. reflexivity. Qed.

Lemma currentSession_fetchBegin st : currentSession (fetchBegin st) = currentSession st.
Proof. destruct st as [? ? ? ? ? ? ? ? [] ? ?]; reflexivity. Qed.

Lemma currentDimension_fetchBegin st : currentDimension (fetchBegin st) = currentDimension st.
Proof. destruct st as [? ? ? ? ? ? ? ? [] ? ?]; reflexivity. Qed.

Lemma currentQuestion_fetchBegin st : currentQuestion (fetchBegin st) = currentQuestion st.
Proof. destruct st as [? ? ? ? ? ? ? ? [] ? ?]; reflexivity. Qed.

Lemma selectedAnswers_fetchBegin st : selectedAnswers (fetchBegin st) = [].
Proof. destruct st as [? ? ? ? ? ? ? ? [] ? ?]; reflexivity. Qed.

Lemma otherAnswerText_fetchBegin st : otherAnswerText (fetchBegin st) = [].
Proof. destruct st as [? ? ? ? ? ? ? ? [] ? ?]; reflexivity. Qed.

Lemma otherSelected_fetchBegin st : otherSelected (fetchBegin st) = false.
Proof. destruct st as [? ? ? ? ? ? ? ? [] ? ?]; reflexivity. Qed.

Create Rewrite HintDb state.
#[local] Hint Rewrite
  currentSession_set_currentSession
  currentDimension_set_currentSession
  currentQuestion_set_currentSession
  selectedAnswers_set_currentSession
  otherAnswerText_set_currentSession
  otherSelected_set_currentSession
  currentSession_set_currentDimension
  currentDimension_set_currentDimension
  currentQuestion_set_currentDimension
  selectedAnswers_set_currentDimension
  otherAnswerText_set_currentDimension
  otherSelected_set_currentDimension
  currentSession_set_currentQuestion
  currentDimension_set_currentQuestion
  currentQuestion_set_currentQuestion
  selectedAnswers_set_currentQuestion
  otherAnswerText_set_currentQuestion
  otherSelected_set_currentQuestion
  currentSession_showToast
  currentDimension_showToast
  currentQuestion_showToast
  selectedAnswers_showToast
  otherAnswerText_showToast
  otherSelected_showToast
  currentSession_fetchSettled
  currentDimension_fetchSettled
  currentQuestion_fetchSettled
  selectedAnswers_fetchSettled
  otherAnswerText_fetchSettled
  otherSelected_fetchSettled
  currentSession_fetchFailed
  currentDimension_fetchFailed
  selectedAnswers_fetchFailed
  otherAnswerText_fetchFailed
  otherSelected_fetchFailed
  currentSession_fetchBegin
  currentDimension_fetchBegin
  currentQuestion_fetchBegin
  selectedAnswers_fetchBegin
  otherAnswerText_fetchBegin
  otherSelected_fetchBegin
  : state.

(** ** Fetching the next question *)

Lemma fetchNextQuestion_unfold replies st :
  fetchNextQuestion replies st =
  match currentSession (fetchBegin st) with
  | None => Some (fetchSettled (fetchFailed (fetchBegin st)), replies)
  | Some sess =>
      match replies with
      | [] => None
      | FetchRejected :: rest => Some (fetchSettled (fetchFailed (fetchBegin st)), rest)
      | FetchResolved ok result :: rest =>
          if negb ok || truthy_opt (r_error result) then
            Some (fetchSettled
                    (set_currentQuestion
                       (errorQuestion (or_default (r_error result) msg_service_error)
                          (or_default (r_detail result) msg_retry_later))
                       (showToast (or_default (r_error result) msg_service_error)
                          toast_error (fetchBegin st))), rest)
          else if r_completed result then
            match scanAfter (dimensions sess)
                    (Js.indexOf dimensionOrder (currentDimension (fetchBegin st)))
                    (seqZ 1 (Z.of_nat (length dimensionOrder))) with
            | None => Some (fetchSettled (fetchFailed (fetchBegin st)), rest)
            | Some (Some nextDim) =>
                match fetchNextQuestion rest (set_currentDimension nextDim (fetchBegin st)) with
                | None => None
                | Some (st', rest') => Some (fetchSettled st', rest')
                end
            | Some None =>
                Some (fetchSettled (set_currentQuestion allDoneQuestion (fetchBegin st)), rest)
            end
          else
            Some (fetchSettled (set_currentQuestion (questionOf result) (fetchBegin st)), rest)
      end
  end.
Proof. destruct replies; reflexivity. Qed.

Lemma fetchNextQuestion_question sess st q rest :
  currentSession st = Some sess →
  r_error q = None → r_completed q = false →
  fetchNextQuestion (FetchResolved true q :: rest) st
  = Some (fetchSettled (set_currentQuestion (questionOf q) (fetchBegin st)), rest).
Proof.
  intros Hs Hqe Hqc. rewrite fetchNextQuestion_unfold.
  rewrite currentSession_fetchBegin, Hs, Hqe, Hqc. reflexivity.
Qed.

Lemma fetchNextQuestion_all_done sess st result rest :
  currentSession st = Some sess →
  r_error result = None → r_completed result = true →
  scanAfter (dimensions sess) (Js.indexOf dimensionOrder (currentDimension st))
    (seqZ 1 (Z.of_nat (length dimensionOrder))) = Some None →
  ∃ st', fetchNextQuestion (FetchResolved true result :: rest) st = Some (st', rest) ∧
         currentDimension st' = currentDimension st ∧
         currentQuestion st' = allDoneQuestion.
Proof.
  intros Hs He Hc Hscan. rewrite fetchNextQuestion_unfold.
  rewrite currentSession_fetchBegin, currentDimension_fetchBegin, Hs, He, Hc, Hscan.
  eexists. split; [reflexivity|]. by autorewrite with state.
Qed.

Lemma fetchNextQuestion_moves_on sess st result next rest q :
  currentSession st = Some sess →
  r_error result = None → r_completed result = true →
  scanAfter (dimensions sess) (Js.indexOf dimensionOrder (currentDimension st))
    (seqZ 1 (Z.of_nat (length dimensionOrder))) = Some (Some next) →
  r_error q = None → r_completed q = false →
  ∃ st', fetchNextQuestion (FetchResolved true result :: FetchResolved true q :: rest) st
         = Some (st', rest) ∧
         currentDimension st' = next ∧
         currentQuestion st' = questionOf q.
Proof.
  intros Hs He Hc Hscan Hqe Hqc. rewrite fetchNextQuestion_unfold.
  rewrite currentSession_fetchBegin, currentDimension_fetchBegin, Hs, He, Hc, Hscan.
  assert (Hs' : currentSession (set_currentDimension next (fetchBegin st)) = Some sess)
    by (by autorewrite with state).
  rewrite (fetchNextQuestion_question sess _ q rest Hs' Hqe Hqc).
  eexists. split; [reflexivity|]. by autorewrite with state.
Qed.

Lemma fetchNextQuestion_session replies : ∀ st st' rest,
  fetchNextQuestion replies st = Some (st', rest) →
  currentSession st' = currentSession st.
Proof.
  induction replies as [|reply replies IH]; intros st st' rest;
    rewrite fetchNextQuestion_unfold, currentSession_fetchBegin.
  - destruct (currentSession st) eqn:Hs; [done|].
    intros [= <- <-]. autorewrite with state; congruence.
  - destruct (currentSession st) as [sess|] eqn:Hs.
    2:{ intros [= <- <-]. autorewrite with state; congruence. }
    destruct reply as [|ok result].
    { intros [= <- <-]. autorewrite with state; congruence. }
    destruct (negb ok || truthy_opt (r_error result)).
    { intros [= <- <-]. autorewrite with state; congruence. }
    destruct (r_completed result).
    2:{ intros [= <- <-]. autorewrite with state; congruence. }
    destruct (scanAfter _ _ _) as [[next|]|].
    + destruct (fetchNextQuestion replies _) as [[st1 rest1]|] eqn:Hrec; [|done].
      intros [= <- <-]. apply IH in Hrec. revert Hrec. autorewrite with state; congruence.
    + intros [= <- <-]. autorewrite with state; congruence.
    + intros [= <- <-]. autorewrite with state; congruence.
Qed.

(** ** Dimension traversal: the claims *)

(** C6. While some dimension of the canonical order has coverage below
    100, [getNextIncompleteDimension] returns a dimension whose coverage is
    below 100, never one at 100 or above. *)
Theorem getNextIncompleteDimension_incomplete (st : State) (sess : Session) :
  currentSession st = Some sess →
  all_dimensions_present sess = true →
  existsb (incomplete sess) dimensionOrder = true →
  ∃ dim d, getNextIncompleteDimension st = Some dim ∧
           dimensions sess !! dim = Some d ∧ coverage d < 100.
Proof.
  intros Hs Hall Hex. unfold getNextIncompleteDimension. rewrite Hs.
  destruct (scanIncomplete_total (dimensions sess) dimensionOrder
              (all_dimensions_present_Forall _ Hall)) as [r Hr].
  rewrite Hr. destruct r as [dim|].
  - apply scanIncomplete_found in Hr as (_ & _ & d & _ & Hd & Hlt & _). eauto.
  - by apply scanIncomplete_some_incomplete in Hex.
Qed.

Lemma getNextIncompleteDimension_incomplete_witness :
  ∃ dim d, getNextIncompleteDimension state_second_done = Some dim ∧
           dimensions (session_of 50 100 50 70) !! dim = Some d ∧ coverage d < 100.
Proof.
  apply (getNextIncompleteDimension_incomplete state_second_done (session_of 50 100 50 70));
    reflexivity.
Defined.

(** C1, as stated, fails: with the second dimension active and the first
    one incomplete, the specification's scan (which starts right after the
    active dimension) gives the third dimension, the code gives the first. *)
Lemma getNextIncompleteDimension_not_after_active :
  getNextIncompleteDimension state_second_done = Some "customer_needs"%string ∧
  nextIncomplete_spec state_second_done = Some "tech_constraints"%string ∧
  getNextIncompleteDimension state_second_done ≠ nextIncomplete_spec state_second_done.
Proof. split; [reflexivity|]. split; [reflexivity|]. discriminate. Qed.

(** C1, amended. [getNextIncompleteDimension] scans the canonical order
    from its first dimension, whatever the active dimension is, and
    returns the first dimension with coverage below 100, or the first
    dimension of the order when all are at 100 or above. The scan that
    starts right after the active dimension and wraps around is the one
    [fetchNextQuestion] runs when the server reports the active dimension
    completed: the first dimension below 100 it meets becomes the active
    one and its question is fetched; when all are at 100 or above the
    active dimension stays and the closing message is shown. *)
Theorem getNextIncompleteDimension_first_in_order (st : State) (sess : Session) :
  currentSession st = Some sess →
  all_dimensions_present sess = true →
  (∃ dim, getNextIncompleteDimension st = Some dim ∧
     ((incomplete sess dim = true ∧
       ∃ before after, dimensionOrder = before ++ dim :: after ∧
                       Forall (fun k => incomplete sess k = false) before)
      ∨ (Forall (fun k => incomplete sess k = false) dimensionOrder ∧
         head dimensionOrder = Some dim)))
  ∧ (∀ cur, getNextIncompleteDimension (set_currentDimension cur st)
            = getNextIncompleteDimension st)
  ∧ (currentDimension st ∈ dimensionOrder →
     ∀ completed rest, r_error completed = None → r_completed completed = true →
       match scanIncomplete (dimensions sess) (rotation_after (currentDimension st)) with
       | Some (Some next) =>
           ∀ q, r_error q = None → r_completed q = false →
             ∃ st', fetchNextQuestion
                      (FetchResolved true completed :: FetchResolved true q :: rest) st
                    = Some (st', rest) ∧
                    currentDimension st' = next ∧ currentQuestion st' = questionOf q
       | Some None =>
           ∃ st', fetchNextQuestion (FetchResolved true completed :: rest) st
                  = Some (st', rest) ∧
                  currentDimension st' = currentDimension st ∧
                  currentQuestion st' = allDoneQuestion
       | None => False
       end).
Proof.
  intros Hs Hall. pose proof (all_dimensions_present_Forall _ Hall) as Hpres.
  assert (Hge : ∀ l, Forall (fun k => ∃ d, dimensions sess !! k = Some d ∧ 100 <= coverage d) l →
                     Forall (fun k => incomplete sess k = false) l).
  { intros l Hl. eapply Forall_impl; [exact Hl|]. intros k (d & Hd & Hc). unfold incomplete.
    rewrite Hd. lia. }
  split; [|split].
  - unfold getNextIncompleteDimension. rewrite Hs.
    destruct (scanIncomplete_total _ _ Hpres) as [r Hr]. rewrite Hr.
    destruct r as [dim|].
    + exists dim. split; [done|]. left.
      apply scanIncomplete_found in Hr as (before & after & d & Ho & Hd & Hlt & Hb).
      split; [apply incomplete_spec; eauto|]. exists before, after. auto.
    + exists "customer_needs"%string. split; [done|]. right.
      split; [|done]. by apply Hge, scanIncomplete_none.
  - done.
  - intros Hcur completed rest He Hc.
    rewrite <- (scanAfter_rotation _ _ Hcur).
    destruct (scanAfter _ _ _) as [[next|]|] eqn:Hscan.
    + intros q Hqe Hqc. by eapply fetchNextQuestion_moves_on.
    + by eapply fetchNextQuestion_all_done.
    + rewrite (scanAfter_rotation _ _ Hcur) in Hscan.
      assert (Hrot : Forall (fun k => is_Some (dimensions sess !! k))
                       (rotation_after (currentDimension st))).
      { rewrite Forall_forall in Hpres. apply Forall_forall. intros k Hk. apply Hpres.
        unfold rotation_after in Hk. apply elem_of_app in Hk as [Hk|Hk].
        - by eapply subseteq_drop.
        - by eapply subseteq_take. }
      destruct (scanIncomplete_total _ _ Hrot) as [? ?]. congruence.
Qed.

Lemma getNextIncompleteDimension_first_in_order_witness :
  getNextIncompleteDimension (set_currentDimension "tech_constraints" state_second_done)
  = getNextIncompleteDimension state_second_done.
Proof.
  apply (getNextIncompleteDimension_first_in_order state_second_done
           (session_of 50 100 50 70)); reflexivity.
Defined.

(** ** Overall progress *)

Lemma foldl_coverage_sum (dims : list Dimension) (acc : Z) :
  foldl (fun sum d => sum + (if coverage d =? 0 then 0 else coverage d)) acc dims
  = acc + foldr (fun d sum => coverage d + sum) 0 dims.
Proof.
  revert acc. induction dims as [|d dims IH]; intros acc; simpl; [lia|].
  rewrite IH. destruct (Z.eqb_spec (coverage d) 0); lia.
Qed.

Lemma coverage_sum_perm (l1 l2 : list Dimension) :
  l1 ≡ₚ l2 →
  foldr (fun d sum => coverage d + sum) 0 l1 = foldr (fun d sum => coverage d + sum) 0 l2.
Proof. induction 1; simpl; lia. Qed.

Lemma Object_values_insert (dims : gmap string Dimension) (k : string) (d : Dimension) :
  dims !! k = None → Object_values (<[k:=d]> dims) ≡ₚ d :: Object_values dims.
Proof.
  intros Hk. unfold Object_values.
  change (d :: (map_to_list dims).*2) with (((k, d) :: map_to_list dims).*2).
  apply fmap_Permutation, map_to_list_insert, Hk.
Qed.

Lemma Object_values_four (dims : gmap string Dimension) (d1 d2 d3 d4 : Dimension) :
  dims !! "customer_needs"%string = Some d1 →
  dims !! "business_process"%string = Some d2 →
  dims !! "tech_constraints"%string = Some d3 →
  dims !! "project_constraints"%string = Some d4 →
  size dims = 4%nat →
  Object_values dims ≡ₚ [d1; d2; d3; d4].
Proof.
  intros H1 H2 H3 H4 Hsize.
  set (m := <["customer_needs"%string := d1]>
              (<["business_process"%string := d2]>
                 (<["tech_constraints"%string := d3]>
                    (<["project_constraints"%string := d4]> (∅ : gmap string Dimension))))).
  assert (Hm : size m = 4%nat).
  { unfold m. rewrite !map_size_insert_None, map_size_empty; [done|..];
      by simplify_map_eq. }
  assert (m = dims) as <-.
  { apply map_subseteq_size_eq; [|lia].
    apply map_subseteq_spec. intros k d Hk. unfold m in Hk.
    repeat (apply lookup_insert_Some in Hk as [[<- <-]|[_ Hk]]; [done|]).
    by rewrite lookup_empty in Hk. }
  unfold m. repeat (etrans; [apply Object_values_insert|apply Permutation_skip]).
  - by rewrite !lookup_insert_ne, lookup_empty by done.
  - by rewrite !lookup_insert_ne, lookup_empty by done.
  - by rewrite !lookup_insert_ne, lookup_empty by done.
  - apply lookup_empty.
  - unfold Object_values. by rewrite map_to_list_empty.
Qed.

Lemma Math_round_quarter (t : Z) :
  Js.Math_round (inject_Z t / 4)%Q = (t + 2) `div` 4.
Proof.
  unfold Js.Math_round, Qfloor. cbn.
  change (Z.pos (1 * 4 * 2)) with (4 * 2). change (Z.pos (1 * 4)) with 4.
  replace (t * 1 * 2 + 1 * 4) with ((t + 2) * 2) by lia.
  apply Z.div_mul_cancel_r; lia.
Qed.

(** C5. With four dimension coverages in 0..100, [getTotalProgress] is
    their arithmetic mean rounded to the nearest integer (a tie goes up,
    as [Math.round] does), and it lies in 0..100. *)
Theorem getTotalProgress_rounded_mean (st : State) (sess : Session)
    (d1 d2 d3 d4 : Dimension) :
  currentSession st = Some sess →
  dimensions sess !! "customer_needs"%string = Some d1 →
  dimensions sess !! "business_process"%string = Some d2 →
  dimensions sess !! "tech_constraints"%string = Some d3 →
  dimensions sess !! "project_constraints"%string = Some d4 →
  size (dimensions sess) = 4%nat →
  0 <= coverage d1 <= 100 → 0 <= coverage d2 <= 100 →
  0 <= coverage d3 <= 100 → 0 <= coverage d4 <= 100 →
  let total := coverage d1 + coverage d2 + coverage d3 + coverage d4 in
  ∃ r, getTotalProgress st = Some r ∧
       r = Js.Math_round (inject_Z total / 4)%Q ∧
       4 * r - 2 <= total < 4 * r + 2 ∧
       (∀ z : Z, Z.abs (4 * r - total) <= Z.abs (4 * z - total)) ∧
       0 <= r <= 100.
Proof.
  intros Hs H1 H2 H3 H4 Hsize Hc1 Hc2 Hc3 Hc4 total.
  pose proof (Object_values_four _ _ _ _ _ H1 H2 H3 H4 Hsize) as Hperm.
  unfold getTotalProgress. rewrite Hs. cbv zeta.
  rewrite foldl_coverage_sum, (coverage_sum_perm _ _ Hperm).
  pose proof (Permutation_length Hperm) as Hlen. simpl in Hlen.
  destruct (Object_values (dimensions sess)) as [|d ds] eqn:Hvals; [done|].
  rewrite Hlen. simpl foldr.
  replace (0 + (coverage d1 + (coverage d2 + (coverage d3 + (coverage d4 + 0)))))
    with total by (unfold total; lia).
  change (inject_Z (Z.of_nat 4)) with 4%Q.
  exists ((total + 2) `div` 4).
  assert (Hr : 4 * ((total + 2) `div` 4) <= total + 2 < 4 * ((total + 2) `div` 4) + 4).
  { pose proof (Z.div_mod (total + 2) 4 ltac:(lia)).
    pose proof (Z.mod_pos_bound (total + 2) 4 ltac:(lia)). lia. }
  split; [by rewrite Math_round_quarter|].
  split; [by rewrite (Math_round_quarter total)|].
  split; [lia|]. split; [intros z; lia|]. unfold total in *. lia.
Qed.

Lemma getTotalProgress_rounded_mean_witness :
  ∃ r, getTotalProgress state_second_done = Some r ∧
       r = Js.Math_round (inject_Z (50 + 100 + 50 + 70) / 4)%Q ∧
       4 * r - 2 <= 50 + 100 + 50 + 70 < 4 * r + 2 ∧
       (∀ z : Z, Z.abs (4 * r - (50 + 100 + 50 + 70)) <= Z.abs (4 * z - (50 + 100 + 50 + 70))) ∧
       0 <= r <= 100.
Proof.
  apply (getTotalProgress_rounded_mean state_second_done (session_of 50 100 50 70)
           (cov 50) (cov 100) (cov 50) (cov 70));
    first [reflexivity | simpl; lia].
Defined.

(** ** Answer selection and composition *)

Lemma join_cons (sep x : list Z) (items : list (list Z)) :
  Js.join sep (x :: items) = x ++ flat_map (fun y => sep ++ y) items.
Proof.
  revert x. induction items as [|y items IH]; intros x.
  - simpl. by rewrite app_nil_r.
  - change (Js.join sep (x :: y :: items)) with (x ++ sep ++ Js.join sep (y :: items)).
    rewrite IH. simpl. by rewrite <- app_assoc.
Qed.

Lemma truthy_length (s : list Z) : (0 <? length s)%nat = Js.truthy s.
Proof. by destruct s. Qed.

(** C3. In multi-select mode with at least one option selected, the
    answer is the selected options in order, then the trimmed custom text
    if "other" is chosen and that text is not empty, each item after the
    first preceded by the full-width semicolon. Selections A, B with the
    custom text C give A；B；C. *)
Theorem composeAnswer_multi (st : State) (first : list Z) (more : list (list Z)) :
  multiSelect (currentQuestion st) = true →
  selectedAnswers st = first :: more →
  composeAnswer st
  = Some (first ++
          flat_map (fun item => [65307] ++ item)
            (more ++ if otherSelected st && Js.truthy (Js.trim (otherAnswerText st))
                     then [Js.trim (otherAnswerText st)] else []))
  ∧ composeAnswer
      (state_of (session_of 0 0 0 0) "customer_needs" (question_of true)
         [Js.u "A"; Js.u "B"] true (Js.u " C "))
    = Some (Js.u "A" ++ [65307] ++ Js.u "B" ++ [65307] ++ Js.u "C").
Proof.
  intros Hm Hsel. split; [|reflexivity].
  unfold composeAnswer. rewrite Hm, Hsel. f_equal.
  unfold answer_delimiter.
  destruct (otherSelected st && Js.truthy (Js.trim (otherAnswerText st))).
  - apply (join_cons [65307] first (more ++ [Js.trim (otherAnswerText st)])).
  - rewrite app_nil_r. apply join_cons.
Qed.

Lemma composeAnswer_multi_witness :
  composeAnswer
    (state_of (session_of 0 0 0 0) "customer_needs" (question_of true)
       [Js.u "A"; Js.u "B"] false [])
  = Some (Js.u "A" ++ flat_map (fun item => [65307] ++ item) ([Js.u "B"] ++ [])).
Proof.
  apply (composeAnswer_multi
           (state_of (session_of 0 0 0 0) "customer_needs" (question_of true)
              [Js.u "A"; Js.u "B"] false []) (Js.u "A") [Js.u "B"]); reflexivity.
Defined.

(** C4. In single-select mode: with "other" chosen, an empty trimmed
    custom text makes [canSubmitAnswer] fail and [submitAnswer] does
    nothing (no request, state unchanged); when the submission is allowed
    the trimmed text is not empty and it is the answer; it is allowed as
    soon as the question has a text and options and the trimmed text is
    not empty. Without "other", an allowed submission has a selected
    option and the answer is that option. *)
Theorem composeAnswer_single (st : State) :
  multiSelect (currentQuestion st) = false →
  (otherSelected st = true →
     (Js.trim (otherAnswerText st) = [] →
        canSubmitAnswer st = false ∧
        ∀ api replies, submitAnswer api replies st = Some (st, replies)) ∧
     (canSubmitAnswer st = true →
        Js.trim (otherAnswerText st) ≠ [] ∧
        composeAnswer st = Some (Js.trim (otherAnswerText st))) ∧
     (text (currentQuestion st) ≠ [] → options (currentQuestion st) ≠ [] →
      Js.trim (otherAnswerText st) ≠ [] → canSubmitAnswer st = true))
  ∧ (otherSelected st = false → canSubmitAnswer st = true →
     ∃ option rest, selectedAnswers st = option :: rest ∧
                    composeAnswer st = Some option).
Proof.
  intros Hm. unfold canSubmitAnswer, composeAnswer, submitAnswer, canSubmitAnswer.
  rewrite Hm. split.
  - intros Ho. rewrite Ho. split; [|split].
    + intros Ht. rewrite Ht.
      destruct (negb (Js.truthy (text (currentQuestion st)))
                || (length (options (currentQuestion st)) =? 0)%nat); done.
    + destruct (negb (Js.truthy (text (currentQuestion st)))
                || (length (options (currentQuestion st)) =? 0)%nat); [done|].
      by destruct (Js.trim (otherAnswerText st)).
    + intros Htx Hop Ht.
      destruct (text (currentQuestion st)); [done|].
      destruct (options (currentQuestion st)); [done|].
      by destruct (Js.trim (otherAnswerText st)).
  - intros Ho. rewrite Ho.
    destruct (negb (Js.truthy (text (currentQuestion st)))
              || (length (options (currentQuestion st)) =? 0)%nat); [done|].
    destruct (selectedAnswers st) as [|o rest]; [done|]. eauto.
Qed.

Lemma composeAnswer_single_witness :
  ∃ option rest,
    selectedAnswers (state_of (session_of 0 0 0 0) "customer_needs" (question_of false)
                       [Js.u "B"] false []) = option :: rest ∧
    composeAnswer (state_of (session_of 0 0 0 0) "customer_needs" (question_of false)
                     [Js.u "B"] false []) = Some option.
Proof.
  apply (composeAnswer_single
           (state_of (session_of 0 0 0 0) "customer_needs" (question_of false)
              [Js.u "B"] false [])); reflexivity.
Defined.

Lemma select_step_multiSelect (st : State) (a : SelectAction) :
  multiSelect (currentQuestion (select_step st a)) = multiSelect (currentQuestion st).
Proof.
  destruct a; simpl; unfold toggleOption, toggleOther;
    destruct (multiSelect (currentQuestion st)) eqn:Hm; try done.
  - by destruct (-1 <? _).
  - simpl. by destruct (negb (otherSelected st)).
Qed.

Lemma select_run_multiSelect (acts : list SelectAction) (st : State) :
  multiSelect (currentQuestion (select_run acts st)) = multiSelect (currentQuestion st).
Proof.
  revert st. induction acts as [|a acts IH]; intros st; [done|].
  unfold select_run in *. simpl. by rewrite IH, select_step_multiSelect.
Qed.

(** C10. In single-select mode, after any sequence of [toggleOption] and
    [toggleOther] calls (at least one call), either exactly one option is
    selected, "other" is off and the custom text is empty, or "other" is
    on and no option is selected; so the list holds at most one option and
    the list and the flag are never both set. *)
Theorem single_select_exclusive (st : State) (acts : list SelectAction) :
  multiSelect (currentQuestion st) = false →
  acts ≠ [] →
  let st' := select_run acts st in
  ((∃ option, selectedAnswers st' = [option] ∧ otherSelected st' = false ∧
              otherAnswerText st' = [])
   ∨ (otherSelected st' = true ∧ selectedAnswers st' = []))
  ∧ (length (selectedAnswers st') <= 1)%nat
  ∧ ¬ (selectedAnswers st' ≠ [] ∧ otherSelected st' = true).
Proof.
  intros Hm Hne st'.
  assert (H : (∃ option, selectedAnswers st' = [option] ∧ otherSelected st' = false ∧
                         otherAnswerText st' = [])
              ∨ (otherSelected st' = true ∧ selectedAnswers st' = [])).
  { unfold st'. destruct acts as [|a acts _] using rev_ind; [done|].
    unfold select_run. rewrite foldl_app. simpl.
    pose proof (select_run_multiSelect acts st) as Hm'. rewrite Hm in Hm'.
    unfold select_run in Hm'.
    destruct a as [o|]; simpl; unfold toggleOption, toggleOther; rewrite Hm'.
    - left. by exists o.
    - by right. }
  split; [done|]. destruct H as [(o & -> & -> & _)|[-> ->]]; simpl.
  - split; [lia|]. by intros [_ ?].
  - split; [lia|]. by intros [? _].
Qed.

Lemma single_select_exclusive_witness :
  (length (selectedAnswers
             (select_run [ToggleOther; ToggleOption (Js.u "A")]
                (state_of (session_of 0 0 0 0) "customer_needs" (question_of false)
                   [] false []))) <= 1)%nat.
Proof.
  apply (single_select_exclusive
           (state_of (session_of 0 0 0 0) "customer_needs" (question_of false) [] false [])
           [ToggleOther; ToggleOption (Js.u "A")]); [reflexivity|discriminate].
Defined.

(** ** Failed requests *)

(** C2. A [fetchNextQuestion] whose request fails (the server cannot be
    reached, or it answers with an error) ends with the error question
    and the same session; no [fetchNextQuestion] ever changes the session;
    a [submitAnswer] whose request fails ends with the same session, and
    asks for no further question. *)
Theorem failed_request_keeps_session :
  (∀ reply replies st sess,
     currentSession st = Some sess → fetch_fails reply = true →
     ∃ st', fetchNextQuestion (reply :: replies) st = Some (st', replies) ∧
            currentSession st' = Some sess ∧
            serviceError (currentQuestion st') = true)
  ∧ (∀ replies st st' rest,
       fetchNextQuestion replies st = Some (st', rest) →
       currentSession st' = currentSession st)
  ∧ (∀ api replies st,
       (∀ body, api_fails (api body) = true) →
       ∃ st', submitAnswer api replies st = Some (st', replies) ∧
              currentSession st' = currentSession st).
Proof.
  split; [|split].
  - intros reply replies st sess Hs Hf. rewrite fetchNextQuestion_unfold.
    rewrite currentSession_fetchBegin, Hs.
    destruct reply as [|ok result]; simpl in Hf.
    + eexists. split; [reflexivity|]. by autorewrite with state.
    + rewrite Hf. eexists. split; [reflexivity|]. by autorewrite with state.
  - intros replies st st' rest. apply fetchNextQuestion_session.
  - intros api replies st Hf. unfold submitAnswer.
    destruct (negb (canSubmitAnswer st)); [by eexists|].
    destruct (currentSession st) eqn:Hs.
    + match goal with |- context [api ?b] => specialize (Hf b); destruct (api b) end;
        [..|done]; eexists; (split; [reflexivity|]); by autorewrite with state.
    + eexists. split; [reflexivity|]. by autorewrite with state.
Qed.

Lemma failed_request_keeps_session_witness :
  ∃ st', fetchNextQuestion [FetchRejected] state_second_done = Some (st', []) ∧
         currentSession st' = Some (session_of 50 100 50 70) ∧
         serviceError (currentQuestion st') = true.
Proof.
  apply (failed_request_keeps_session); reflexivity.
Defined.

(** ** The matcher *)

Section Matcher.
Import Regex.
Implicit Types (k : cont) (prev : option Z) (s rest seg : list Z).

Lemma prev_after_app prev seg1 seg2 :
  prev_after prev (seg1 ++ seg2) = prev_after (prev_after prev seg1) seg2.
Proof. apply foldl_app. Qed.

Lemma lit_app w k prev s :
  lit w k prev (w ++ s) = k (prev_after prev w) s.
Proof.
  revert prev. induction w as [|c w IH]; intros prev; simpl; [done|].
  rewrite Z.eqb_refl. apply IH.
Qed.

Lemma lit_mismatch c w k prev d s :
  d ≠ c → lit (c :: w) k prev (d :: s) = None.
Proof. intros Hne. simpl. destruct (Z.eqb_spec d c); [done|reflexivity]. Qed.

Lemma star_greedy_stop p k prev s :
  stops p s → star_greedy p k prev s = k prev s.
Proof. destruct s as [|c s]; simpl; [done|]. by intros ->. Qed.

(** A greedy star whose continuation fails wherever it is tried. *)
Lemma star_greedy_fail p k seg : ∀ prev rest,
  stops p rest →
  (∀ i prev', k prev' (drop i seg ++ rest) = None) →
  star_greedy p k prev (seg ++ rest) = None.
Proof.
  induction seg as [|c seg IH]; intros prev rest Hstop Hk.
  - simpl. rewrite star_greedy_stop by done. apply (Hk 0%nat).
  - pose proof (Hk 0%nat prev) as H0. simpl in *.
    rewrite IH; [|done|intros i prev'; apply (Hk (S i))].
    rewrite H0. by destruct (p c).
Qed.

(** A greedy star that takes the whole run and whose continuation then
    succeeds. *)
Lemma star_greedy_all p k seg : ∀ prev rest r,
  Forall (fun c => p c = true) seg → stops p rest →
  k (prev_after prev seg) rest = Some r →
  star_greedy p k prev (seg ++ rest) = Some r.
Proof.
  induction seg as [|c seg IH]; intros prev rest r Hseg Hstop Hk.
  - simpl in *. by rewrite star_greedy_stop.
  - apply Forall_cons in Hseg as [Hc Hseg]. simpl. rewrite Hc.
    by rewrite (IH (Some c) rest r).
Qed.

Lemma star_lazy_fail p k seg : ∀ prev rest,
  stops p rest →
  (∀ i prev', k prev' (drop i seg ++ rest) = None) →
  star_lazy p k prev (seg ++ rest) = None.
Proof.
  induction seg as [|c seg IH]; intros prev rest Hstop Hk.
  - pose proof (Hk 0%nat prev) as H0. simpl in *.
    destruct rest as [|d rest]; simpl; rewrite H0; [done|]. by rewrite Hstop.
  - pose proof (Hk 0%nat prev) as H0. simpl in *. rewrite H0.
    destruct (p c); [|done]. apply IH; [done|]. intros i prev'. apply (Hk (S i)).
Qed.

(** A lazy star stops at the first place where the continuation
    succeeds. *)
Lemma star_lazy_first p k seg : ∀ prev rest,
  Forall (fun c => p c = true) seg →
  (∀ i prev', (i < length seg)%nat → k prev' (drop i seg ++ rest) = None) →
  star_lazy p k prev (seg ++ rest) =
  match k (prev_after prev seg) rest with
  | Some r => Some r
  | None => star_lazy p k (prev_after prev seg) rest
  end.
Proof.
  induction seg as [|c seg IH]; intros prev rest Hseg Hk.
  - simpl. destruct rest; simpl; by destruct (k prev _).
  - apply Forall_cons in Hseg as [Hc Hseg].
    pose proof (Hk 0%nat prev ltac:(simpl; lia)) as H0. simpl in *.
    rewrite H0, Hc.
    apply IH; [done|]. intros i prev' Hi. apply (Hk (S i)). lia.
Qed.

(** *** Regular expressions that need a code unit of some class *)

Lemma lit_requires q w k prev s :
  Exists (fun c => q c = true) w → Forall (fun c => q c = false) s →
  lit w k prev s = None.
Proof.
  intros Hw. revert prev s. induction Hw as [c w Hc|c w _ IH]; intros prev s Hs.
  - destruct s as [|d s]; simpl; [done|]. apply Forall_cons in Hs as [Hd _].
    destruct (Z.eqb_spec d c); [congruence|done].
  - destruct s as [|d s]; simpl; [done|]. apply Forall_cons in Hs as [_ Hs].
    destruct (d =? c); [by apply IH|done].
Qed.

Lemma lit_none_closed q w k :
  (∀ prev s, Forall (fun c => q c = false) s → k prev s = None) →
  ∀ prev s, Forall (fun c => q c = false) s → lit w k prev s = None.
Proof.
  intros Hk. induction w as [|c w IH]; intros prev s Hs; simpl; [by apply Hk|].
  destruct s as [|d s]; [done|]. apply Forall_cons in Hs as [_ Hs].
  destruct (d =? c); [by apply IH|done].
Qed.

Lemma star_greedy_none_closed q p k :
  (∀ prev s, Forall (fun c => q c = false) s → k prev s = None) →
  ∀ prev s, Forall (fun c => q c = false) s → star_greedy p k prev s = None.
Proof.
  intros Hk prev s. revert prev. induction s as [|c s IH]; intros prev Hs; simpl.
  - by apply Hk.
  - rewrite (Hk prev (c :: s) Hs). apply Forall_cons in Hs as [_ Hs].
    rewrite (IH (Some c) Hs). by destruct (p c).
Qed.

Lemma star_lazy_none_closed q p k :
  (∀ prev s, Forall (fun c => q c = false) s → k prev s = None) →
  ∀ prev s, Forall (fun c => q c = false) s → star_lazy p k prev s = None.
Proof.
  intros Hk prev s. revert prev. induction s as [|c s IH]; intros prev Hs; simpl.
  - by rewrite Hk.
  - rewrite (Hk prev (c :: s) Hs). apply Forall_cons in Hs as [_ Hs].
    destruct (p c); [by apply IH|done].
Qed.

Lemma alts_none_closed q ws k :
  (∀ prev s, Forall (fun c => q c = false) s → k prev s = None) →
  ∀ prev s, Forall (fun c => q c = false) s → alts ws k prev s = None.
Proof.
  intros Hk prev s Hs. induction ws as [|w ws IH]; simpl; [done|].
  by rewrite (lit_none_closed q w k Hk prev s Hs).
Qed.

(** If some atom of [r] has to read a code unit of class [q], [r] matches
    nowhere in a text without such code units. *)
Lemma match_here_requires q r :
  Exists (atom_requires q) r →
  ∀ prev s, Forall (fun c => q c = false) s → match_here r prev s = None.
Proof.
  induction 1 as [a r Ha|a r _ IH]; intros prev s Hs.
  - destruct a as [w|p|p|p|p| | |ws]; simpl in Ha; try done; simpl.
    + by eapply lit_requires.
    + destruct s as [|c s]; [done|]. apply Forall_cons in Hs as [Hc _].
      destruct (p c) eqn:Hp; [|done]. apply Ha in Hp. congruence.
    + destruct s as [|c s]; [done|]. apply Forall_cons in Hs as [Hc _].
      destruct (p c) eqn:Hp; [|done]. apply Ha in Hp. congruence.
  - destruct a as [w|p|p|p|p| | |ws]; simpl.
    + by apply (lit_none_closed q).
    + destruct s as [|c s]; [done|]. apply Forall_cons in Hs as [_ Hs].
      destruct (p c); [by apply IH|done].
    + by apply (star_greedy_none_closed q).
    + destruct s as [|c s]; [done|]. apply Forall_cons in Hs as [_ Hs].
      destruct (p c); [by apply (star_greedy_none_closed q)|done].
    + by apply (star_lazy_none_closed q).
    + destruct (at_line_start prev); [by apply IH|done].
    + destruct (at_word_boundary prev s); [by apply IH|done].
    + by apply (alts_none_closed q).
Qed.

(** *** Scanning *)

Lemma replace_go_miss r f n prev c s :
  match_here r prev (c :: s) = None →
  replace_go r f n 0 prev (c :: s) = c :: replace_go r f n 0 (Some c) s.
Proof. intros H. simpl. unfold match_length. by rewrite H. Qed.

(** A stretch of text in which no match starts is copied. *)
Lemma replace_go_copy r f n seg : ∀ prev rest,
  (∀ i prev', (i < length seg)%nat → match_here r prev' (drop i seg ++ rest) = None) →
  replace_go r f n 0 prev (seg ++ rest)
  = seg ++ replace_go r f n 0 (prev_after prev seg) rest.
Proof.
  induction seg as [|c seg IH]; intros prev rest Hm; [done|].
  rewrite <- app_comm_cons, replace_go_miss by (apply (Hm 0%nat); simpl; lia).
  simpl. f_equal. apply IH. intros i prev' Hi. apply (Hm (S i)). simpl. lia.
Qed.

Lemma replace_go_skip r f n seg : ∀ prev rest,
  replace_go r f n (length seg) prev (seg ++ rest)
  = replace_go r f n 0 (prev_after prev seg) rest.
Proof. induction seg as [|c seg IH]; intros prev rest; simpl; [done|apply IH]. Qed.

(** A match is replaced and the scan goes on after it. *)
Lemma replace_go_hit r f n prev c m rest :
  match_here r prev (c :: m ++ rest) = Some rest →
  replace_go r f n 0 prev (c :: m ++ rest)
  = f n ++ replace_go r f (S n) 0 (prev_after prev (c :: m)) rest.
Proof.
  intros H. simpl. unfold match_length. rewrite H.
  replace (length (c :: m ++ rest) - length rest)%nat with (S (length m))
    by (simpl; rewrite length_app; lia).
  by rewrite replace_go_skip.
Qed.

Lemma replace_go_hit_app r f n prev m rest :
  m ≠ [] → match_here r prev (m ++ rest) = Some rest →
  replace_go r f n 0 prev (m ++ rest)
  = f n ++ replace_go r f (S n) 0 (prev_after prev m) rest.
Proof. destruct m as [|c m]; [done|]. intros _. apply replace_go_hit. Qed.

Lemma replace_go_nil r f n prev :
  match_here r prev [] = None → replace_go r f n 0 prev [] = [].
Proof. intros H. simpl. by rewrite H. Qed.

(** Nothing matches anywhere: the text is returned as it is. *)
Lemma replace_go_id r f n s : ∀ prev,
  (∀ i prev', match_here r prev' (drop i s) = None) →
  replace_go r f n 0 prev s = s.
Proof.
  intros prev Hm. rewrite <- (app_nil_r s) at 1.
  rewrite replace_go_copy.
  - rewrite replace_go_nil, app_nil_r; [done|].
    specialize (Hm (length s) (prev_after prev s)). by rewrite drop_all in Hm.
  - intros i prev' _. rewrite app_nil_r. apply Hm.
Qed.

Lemma replace_requires q r f s :
  Exists (atom_requires q) r → Forall (fun c => q c = false) s →
  replace r f s = s.
Proof.
  intros Hr Hs. apply replace_go_id. intros i prev'.
  apply (match_here_requires q r Hr). by apply Forall_drop.
Qed.

Lemma test_from_requires q r s prev :
  Exists (atom_requires q) r → Forall (fun c => q c = false) s →
  test_from r prev s = false.
Proof.
  intros Hr. revert prev. induction s as [|c s IH]; intros prev Hs; simpl;
    rewrite (match_here_requires q r Hr _ _ Hs); [done|].
  apply IH. by apply Forall_cons in Hs as [_ Hs].
Qed.

(** A match somewhere makes [test] true. *)
Lemma test_from_app r seg : ∀ prev rest,
  is_Some (match_here r (prev_after prev seg) rest) →
  test_from r prev (seg ++ rest) = true.
Proof.
  induction seg as [|c seg IH]; intros prev rest Hm; simpl in *.
  - destruct rest; simpl; by destruct Hm as [? ->].
  - destruct (match_here r prev _); [done|]. by apply IH.
Qed.

End Matcher.

(** ** Closing the sub-graphs of a flow chart *)

Section Flow.
Import Regex Mermaid.

Lemma end_match_length prev c s :
  match_length re_end prev (c :: s ++ end_line) = match_length re_end prev (c :: s)
  ∧ ∀ n, match_length re_end prev (c :: s) = Some (S n) → (n <= length s)%nat.
Proof.
  unfold match_length, re_end, end_line. simpl.
  replace (at_word_boundary prev (c :: s ++ _)) with (at_word_boundary prev (c :: s)) by done.
  destruct (at_word_boundary prev (c :: s)); [|(split; [reflexivity|intros ? [=]])].
  destruct (Z.eqb_spec c 101) as [->|]; [|(split; [reflexivity|intros ? [=]])].
  destruct s as [|d s]; simpl; [(split; [reflexivity|intros ? [=]])|]. destruct (Z.eqb_spec d 110) as [->|]; [|(split; [reflexivity|intros ? [=]])].
  destruct s as [|e s]; simpl; [(split; [reflexivity|intros ? [=]])|]. destruct (Z.eqb_spec e 100) as [->|]; [|(split; [reflexivity|intros ? [=]])].
  destruct s as [|g s]; simpl.
  - split; [done|]. intros n [= Hn]. simpl in *. lia.
  - unfold at_word_boundary. simpl. destruct (is_word g); simpl;
      [(split; [reflexivity|intros ? [=]])|].
    split.
    + f_equal. lia.
    + intros n [= Hn]. simpl in *. lia.
Qed.

Lemma count_end_line prev : count_go re_end 0 prev end_line = 1%nat.
Proof.
  destruct prev as [c|]; [|reflexivity].
  unfold end_line, re_end. simpl. unfold match_length. simpl.
  unfold at_word_boundary. simpl. by destruct (is_word c).
Qed.

Lemma count_end_nil prev : count_go re_end 0 prev [] = 0%nat.
Proof.
  simpl. unfold at_word_boundary. simpl. by destruct (word_opt prev).
Qed.

Lemma count_end_append s : ∀ skip prev,
  (skip <= length s)%nat →
  count_go re_end skip prev (s ++ end_line) = S (count_go re_end skip prev s).
Proof.
  induction s as [|c s IH]; intros skip prev Hskip.
  - simpl in Hskip. replace skip with 0%nat by lia.
    rewrite app_nil_l, count_end_line, count_end_nil. done.
  - destruct skip as [|skip].
    + destruct (end_match_length prev c s) as [Heq Hlen].
      change ((c :: s) ++ end_line) with (c :: s ++ end_line).
      cbn [count_go]. rewrite Heq.
      destruct (match_length re_end prev (c :: s)) as [[|n]|] eqn:Hm.
      * rewrite IH by lia. done.
      * rewrite IH by (by apply Hlen). done.
      * apply IH. lia.
    + simpl in *. apply IH. lia.
Qed.

Lemma append_ends_concat j : ∀ d,
  append_ends j d = d ++ mjoin (replicate j end_line).
Proof.
  induction j as [|j IH]; intros d; simpl.
  - by rewrite app_nil_r.
  - by rewrite IH, <- app_assoc.
Qed.

Lemma count_end_append_ends j : ∀ d,
  count re_end (append_ends j d) = (count re_end d + j)%nat.
Proof.
  induction j as [|j IH]; intros d; simpl; [lia|].
  rewrite IH. unfold count. rewrite count_end_append by lia. lia.
Qed.

End Flow.

(** ** Quadrant charts: how the patterns behave on one line *)

Section ChartPatterns.
Import Regex Mermaid Chart.

Lemma rest_ok_stops p rest : p 10 = false → rest_ok rest → stops p rest.
Proof. intros Hp. destruct rest as [|c rest]; simpl; [done|]. by intros ->. Qed.

Lemma rest_ok_lines ls : rest_ok (render_lines ls).
Proof. by destruct ls. Qed.

Lemma label_char_body c : label_char c = true → body_char c = true.
Proof. unfold body_char. by intros ->. Qed.

Lemma body_char_facts c :
  body_char c = true →
  not_nl c = true ∧ not_colon_nl c = true ∧ is_line_terminator c = false ∧
  (c =? 113) = false ∧ (c =? 116) = false ∧ (c =? 120) = false ∧ (c =? 121) = false.
Proof.
  unfold body_char, label_char, is_cjk, is_upper, is_digit, not_nl, not_colon_nl,
    is_line_terminator. lia.
Qed.

Lemma label_char_not_space c : label_char c = true → Js.is_space c = false.
Proof. unfold label_char, is_cjk, is_upper, is_digit, Js.is_space. lia. Qed.

Lemma digit_or_dot_facts c :
  digit_or_dot c = true →
  not_nl c = true ∧ not_colon_nl c = true ∧ is_line_terminator c = false ∧
  is_cjk c = false ∧ Js.is_space c = false ∧
  (c =? 113) = false ∧ (c =? 116) = false ∧ (c =? 120) = false ∧ (c =? 121) = false.
Proof.
  unfold digit_or_dot, is_digit, is_cjk, not_nl, not_colon_nl, is_line_terminator,
    Js.is_space. lia.
Qed.

Lemma is_body_inv t :
  is_body t = true →
  ∃ c t', t = c :: t' ∧ label_char c = true ∧ Forall (fun c => body_char c = true) t.
Proof.
  destruct t as [|c t']; [done|]. unfold is_body.
  intros [[Hc Hall]%andb_prop _]%andb_prop. exists c, t'. repeat split; [done|].
  apply Forall_forall. intros x Hx. rewrite forallb_forall in Hall.
  apply Hall. by apply list_elem_of_In.
Qed.

Lemma forallb_Forall_true (p : Z → bool) t :
  forallb p t = true → Forall (fun c => p c = true) t.
Proof.
  rewrite forallb_forall, Forall_forall. intros H x Hx. apply H.
  by apply list_elem_of_In.
Qed.

Lemma existsb_false_Forall (p : Z → bool) t :
  existsb p t = false → Forall (fun c => p c = false) t.
Proof.
  induction t as [|c t IH]; simpl; [constructor|].
  intros [Hc Ht]%orb_false_elim. constructor; auto.
Qed.

(** The stretch [[^\n]*[\u4e00-\u9fa5]+[^\n]*] on the text of a line. *)
Lemma tail_cjk body : ∀ prev rest,
  Forall (fun c => not_nl c = true) body → rest_ok rest →
  match_here [Star not_nl; Plus is_cjk; Star not_nl] prev (body ++ rest)
  = if has_cjk body then Some rest else None.
Proof.
  induction body as [|c body IH]; intros prev rest Hbody Hrest.
  - simpl. rewrite star_greedy_stop by (by apply rest_ok_stops).
    destruct rest as [|d rest]; [done|]. simpl in Hrest. by subst.
  - apply Forall_cons in Hbody as [Hc Hbody].
    specialize (IH (Some c) rest Hbody Hrest).
    cbn [match_here] in *. cbn [app star_greedy]. rewrite Hc, IH.
    cbn [has_cjk existsb]. fold (has_cjk body).
    destruct (has_cjk body) eqn:Hcjk; [by rewrite orb_true_r|].
    rewrite orb_false_r. destruct (is_cjk c); [|done].
    rewrite star_greedy_stop.
    + apply star_greedy_all; [done|by apply rest_ok_stops|done].
    + apply existsb_false_Forall in Hcjk.
      destruct body as [|d body]; simpl.
      * destruct rest; simpl in *; [done|by subst].
      * by apply Forall_cons in Hcjk as [? _].
Qed.

Lemma head_is_drop_app (P : Z → Prop) seg rest i :
  Forall P seg → head_is P rest → head_is P (drop i seg ++ rest).
Proof.
  intros Hseg Hrest. pose proof (Forall_drop P i seg Hseg) as Hd.
  destruct (drop i seg); simpl; [done|]. by apply Forall_cons in Hd as [? _].
Qed.

Lemma lit_colon_head k prev s :
  head_is (fun c => c ≠ 58) s → lit [58] k prev s = None.
Proof.
  destruct s as [|c s]; simpl; [done|]. intros Hc. by destruct (Z.eqb_spec c 58).
Qed.

Lemma not_colon_nl_ne c : not_colon_nl c = true → c ≠ 58.
Proof. unfold not_colon_nl. lia. Qed.

Lemma rest_ok_head rest : rest_ok rest → head_is (fun c => c ≠ 58) rest.
Proof. destruct rest; simpl; [done|]. by intros ->. Qed.

(** The stretch [[^:\n]*:\s*[^\n]*] fails on a line without a colon. *)
Lemma tail_colon body prev rest :
  Forall (fun c => not_colon_nl c = true) body → rest_ok rest →
  match_here [Star not_colon_nl; Lit [58]; Star Js.is_space; Star not_nl] prev
    (body ++ rest) = None.
Proof.
  intros Hbody Hrest. cbn [match_here].
  apply star_greedy_fail; [by apply rest_ok_stops|].
  intros i prev'. apply lit_colon_head, head_is_drop_app; [|by apply rest_ok_head].
  eapply Forall_impl; [exact Hbody|]. apply not_colon_nl_ne.
Qed.

Lemma lazy_to_colon seg : ∀ prev tail,
  Forall (fun c => not_colon_nl c = true) seg →
  match_here [StarLazy not_colon_nl; Lit [58]; Star Js.is_space; Lit [91]] prev
    (seg ++ 58 :: 32 :: 91 :: tail) = Some tail.
Proof.
  intros prev tail Hseg. cbn [match_here].
  rewrite star_lazy_first; [reflexivity|done|].
  intros i prev' Hi. apply lit_colon_head.
  pose proof (Forall_drop _ i seg Hseg) as Hd.
  destruct (drop i seg) as [|c s] eqn:Hdrop.
  - apply (f_equal length) in Hdrop. rewrite length_drop in Hdrop. simpl in Hdrop. lia.
  - apply Forall_cons in Hd as [Hc _]. by apply not_colon_nl_ne.
Qed.

Lemma name_tail_point name : ∀ prev tail,
  Forall (fun c => not_colon_nl c = true) name →
  match_here re_name_tail prev (name ++ 58 :: 32 :: 91 :: tail)
  = if has_cjk name then Some tail else None.
Proof.
  induction name as [|c name IH]; intros prev tail Hname.
  - reflexivity.
  - apply Forall_cons in Hname as [Hc Hname].
    specialize (IH (Some c) tail Hname).
    unfold re_name_tail in *. cbn [match_here] in *. cbn [app star_greedy].
    rewrite Hc, IH. cbn [has_cjk existsb]. fold (has_cjk name).
    destruct (has_cjk name) eqn:Hcjk; [by rewrite orb_true_r|].
    rewrite orb_false_r. destruct (is_cjk c); [|done].
    rewrite star_greedy_stop.
    + by apply (lazy_to_colon name (Some c) tail).
    + apply existsb_false_Forall in Hcjk.
      destruct name as [|d name]; simpl; [done|].
      by apply Forall_cons in Hcjk as [? _].
Qed.

Lemma name_tail_no_colon seg prev rest :
  Forall (fun c => not_colon_nl c = true) seg → rest_ok rest →
  match_here re_name_tail prev (seg ++ rest) = None.
Proof.
  intros Hseg Hrest. unfold re_name_tail. cbn [match_here].
  assert (Hne : Forall (fun c => c ≠ 58) seg).
  { eapply Forall_impl; [exact Hseg|]. apply not_colon_nl_ne. }
  apply star_greedy_fail; [by apply rest_ok_stops|].
  intros i prev'.
  destruct (drop i seg ++ rest) as [|c s] eqn:Hs; [done|].
  destruct (is_cjk c) eqn:Hc; [|done].
  assert (∃ seg', drop i seg = c :: seg') as [seg' Hseg'].
  { destruct (drop i seg) as [|c' seg']; simpl in Hs.
    - subst rest. simpl in Hrest. by subst.
    - injection Hs as -> _. by eexists. }
  rewrite Hseg' in Hs. injection Hs as <-.
  pose proof (Forall_drop _ i seg Hne) as Hd. rewrite Hseg' in Hd.
  apply Forall_cons in Hd as [_ Hd].
  apply star_greedy_fail; [by apply rest_ok_stops|].
  intros j prev''. apply star_lazy_fail; [by apply rest_ok_stops|].
  intros l prev3. apply lit_colon_head.
  apply head_is_drop_app; [by apply Forall_drop|by apply rest_ok_head].
Qed.

End ChartPatterns.

(** ** Quadrant charts: scanning line by line *)

Section ChartScan.
Import Regex Mermaid Chart.

(** The same as [replace_go_copy], with the code unit before each
    position known. *)
Lemma replace_go_copy_at r f n seg : ∀ prev rest,
  (∀ i, (i < length seg)%nat →
        match_here r (prev_after prev (take i seg)) (drop i seg ++ rest) = None) →
  replace_go r f n 0 prev (seg ++ rest)
  = seg ++ replace_go r f n 0 (prev_after prev seg) rest.
Proof.
  induction seg as [|c seg IH]; intros prev rest Hm; [done|].
  rewrite <- app_comm_cons, replace_go_miss by (apply (Hm 0%nat); simpl; lia).
  simpl. f_equal. apply IH. intros i Hi. apply (Hm (S i)). simpl. lia.
Qed.

(** The number of the match does not matter to a constant replacement. *)
Lemma replace_go_const r w s : ∀ n m skip prev,
  replace_go r (fun _ => w) n skip prev s = replace_go r (fun _ => w) m skip prev s.
Proof.
  induction s as [|c s IH]; intros n m skip prev; simpl; [done|].
  destruct skip; [|apply IH].
  destruct (match_length r prev (c :: s)) as [[|k]|]; f_equal; try apply IH.
  f_equal. apply IH.
Qed.

(** No match of a pattern that starts with the literal [c0 :: w] begins
    inside a stretch without [c0]. *)
Lemma replace_go_copy_lit c0 w r f n seg prev rest :
  Forall (fun c => c ≠ c0) seg →
  replace_go (Lit (c0 :: w) :: r) f n 0 prev (seg ++ rest)
  = seg ++ replace_go (Lit (c0 :: w) :: r) f n 0 (prev_after prev seg) rest.
Proof.
  intros Hseg. apply replace_go_copy. intros i prev' Hi.
  pose proof (Forall_drop _ i seg Hseg) as Hd.
  destruct (drop i seg) as [|c s] eqn:Hdrop.
  - apply (f_equal length) in Hdrop. rewrite length_drop in Hdrop. simpl in Hdrop. lia.
  - apply Forall_cons in Hd as [Hc _]. by apply lit_mismatch.
Qed.

Lemma prev_after_line_start prev seg :
  at_line_start prev = false →
  Forall (fun c => is_line_terminator c = false) seg →
  at_line_start (prev_after prev seg) = false.
Proof.
  intros Hp Hseg. revert prev Hp. induction Hseg as [|c seg Hc _ IH]; intros prev Hp; [done|].
  simpl. by apply IH.
Qed.

(** No match of a pattern that starts with [^] begins inside a line. *)
Lemma replace_go_copy_bol r f n seg prev rest :
  at_line_start prev = false →
  Forall (fun c => is_line_terminator c = false) seg →
  replace_go (Bol :: r) f n 0 prev (seg ++ rest)
  = seg ++ replace_go (Bol :: r) f n 0 (prev_after prev seg) rest.
Proof.
  intros Hp Hseg. apply replace_go_copy_at. intros i Hi.
  cbn [match_here]. rewrite prev_after_line_start; [done|done|].
  by apply Forall_take.
Qed.

(** Line by line: a constant replacement, with some text after the
    lines. *)
Lemma replace_lines_const r w (ok : line → bool) (phi : line → line) :
  (∀ l prev rest,
     ok l = true → at_line_start prev = false → rest_ok rest →
     ∃ prev', at_line_start prev' = false ∧
       replace_go r (fun _ => w) 0 0 prev (render_line l ++ rest)
       = render_line (phi l) ++ replace_go r (fun _ => w) 0 0 prev' rest) →
  ∀ ls prev tail,
    Forall (fun l => ok l = true) ls → at_line_start prev = false → rest_ok tail →
    ∃ prev', at_line_start prev' = false ∧
      replace_go r (fun _ => w) 0 0 prev (render_lines ls ++ tail)
      = render_lines (List.map phi ls) ++ replace_go r (fun _ => w) 0 0 prev' tail.
Proof.
  intros Hline ls. induction ls as [|l ls IH]; intros prev tail Hwf Hp Htail.
  - by exists prev.
  - apply Forall_cons in Hwf as [Hl Hwf]. unfold render_lines in *.
    change (flat_map render_line (l :: ls))
      with (render_line l ++ flat_map render_line ls).
    change (flat_map render_line (List.map phi (l :: ls)))
      with (render_line (phi l) ++ flat_map render_line (List.map phi ls)).
    rewrite <- !app_assoc.
    destruct (Hline l prev (flat_map render_line ls ++ tail) Hl Hp) as (prev1 & Hp1 & ->).
    { destruct ls; [exact Htail|done]. }
    destruct (IH prev1 tail Hwf Hp1 Htail) as (prev2 & Hp2 & ->).
    exists prev2. split; [done|]. by rewrite <- !app_assoc.
Qed.

End ChartScan.

(** ** Quadrant charts: one statement pattern on one line *)

Section ChartLines.
Import Regex Mermaid Chart.

Lemma keyword_text_cons kw : ∃ w, keyword_text kw = first_char kw :: w.
Proof. destruct kw; by eexists. Qed.

Lemma first_char_cases kw :
  first_char kw = 113 ∨ first_char kw = 116 ∨ first_char kw = 120 ∨ first_char kw = 121.
Proof. destruct kw; cbv; auto. Qed.

Lemma body_char_not_first kw c : body_char c = true → c ≠ first_char kw.
Proof.
  intros (_ & _ & _ & H1 & H2 & H3 & H4)%body_char_facts.
  destruct (first_char_cases kw) as [-> | [-> | [-> | ->]]]; lia.
Qed.

Lemma digit_or_dot_not_first kw c : digit_or_dot c = true → c ≠ first_char kw.
Proof.
  intros (_ & _ & _ & _ & _ & H1 & H2 & H3 & H4)%digit_or_dot_facts.
  destruct (first_char_cases kw) as [-> | [-> | [-> | ->]]]; lia.
Qed.

Lemma is_name_inv t :
  is_name t = true → t ≠ [] ∧ Forall (fun c => label_char c = true) t.
Proof.
  unfold is_name. intros [Hne Hall]%andb_prop. split; [by destruct t|].
  by apply forallb_Forall_true.
Qed.

Lemma is_number_inv t :
  is_number t = true → ∃ c t', t = c :: t' ∧ Forall (fun c => digit_or_dot c = true) t.
Proof.
  unfold is_number. intros [Hne Hall]%andb_prop. destruct t as [|c t']; [done|].
  exists c, t'. split; [done|]. by apply forallb_Forall_true.
Qed.

Lemma point_tail_not_first kw x y :
  is_number x = true → is_number y = true →
  Forall (fun c => c ≠ first_char kw) (point_tail x y).
Proof.
  intros (? & ? & _ & Hx)%is_number_inv (? & ? & _ & Hy)%is_number_inv.
  unfold point_tail. rewrite !Forall_app. repeat split.
  - eapply Forall_impl; [exact Hx|]. apply digit_or_dot_not_first.
  - destruct (first_char_cases kw) as [-> | [-> | [-> | ->]]]; repeat constructor; lia.
  - eapply Forall_impl; [exact Hy|]. apply digit_or_dot_not_first.
  - destruct (first_char_cases kw) as [-> | [-> | [-> | ->]]]; repeat constructor; lia.
Qed.

Lemma point_line_not_first kw name x y :
  is_name name = true → is_number x = true → is_number y = true →
  Forall (fun c => c ≠ first_char kw) (render_line (Point name x y)).
Proof.
  intros [_ Hn]%is_name_inv Hx Hy. unfold render_line, indent.
  rewrite !Forall_app. repeat split.
  - destruct (first_char_cases kw) as [-> | [-> | [-> | ->]]]; repeat constructor; lia.
  - eapply Forall_impl; [exact Hn|]. intros c Hc.
    by apply body_char_not_first, label_char_body.
  - destruct (first_char_cases kw) as [-> | [-> | [-> | ->]]]; repeat constructor; lia.
  - by apply point_tail_not_first.
Qed.

Lemma point_tail_last prev x y : prev_after prev (point_tail x y) = Some 93.
Proof. unfold point_tail. by rewrite !app_assoc, prev_after_app. Qed.

Lemma point_tail_no_terminator x y :
  is_number x = true → is_number y = true →
  Forall (fun c => is_line_terminator c = false) (point_tail x y).
Proof.
  intros (? & ? & _ & Hx)%is_number_inv (? & ? & _ & Hy)%is_number_inv.
  unfold point_tail. rewrite !Forall_app. repeat split; try by repeat constructor.
  - eapply Forall_impl; [exact Hx|]. by intros c (_ & _ & ? & _)%digit_or_dot_facts.
  - eapply Forall_impl; [exact Hy|]. by intros c (_ & _ & ? & _)%digit_or_dot_facts.
Qed.

(** The pattern of a keyword at a statement of that keyword. *)
Lemma cjk_line_at_keyword kw prev c t rest :
  Js.is_space c = false → Forall (fun c => not_nl c = true) (c :: t) → rest_ok rest →
  match_here (re_cjk_line (keyword_text kw)) prev (keyword_text kw ++ 32 :: (c :: t) ++ rest)
  = if has_cjk (c :: t) then Some rest else None.
Proof.
  intros Hc Ht Hrest. unfold re_cjk_line. cbn [match_here]. rewrite lit_app.
  change (Js.is_space 32) with true. cbv iota.
  rewrite star_greedy_stop by done.
  by apply (tail_cjk (c :: t)).
Qed.

Lemma body_not_nl t :
  Forall (fun c => body_char c = true) t → Forall (fun c => not_nl c = true) t.
Proof. intros H. eapply Forall_impl; [exact H|]. by intros c (? & _)%body_char_facts. Qed.

Lemma body_no_terminator t :
  Forall (fun c => body_char c = true) t →
  Forall (fun c => is_line_terminator c = false) t.
Proof.
  intros H. eapply Forall_impl; [exact H|]. by intros c (_ & _ & ? & _)%body_char_facts.
Qed.

#[local] Arguments replace_go : simpl never.
#[local] Arguments match_here : simpl never.

Ltac misses := repeat (rewrite replace_go_miss by reflexivity).

(** On a line, the pattern of [kw0] rewrites the statement of [kw0] when
    its text has an ideograph, and nothing else. *)
Lemma cjk_line_on_line kw0 l prev rest :
  unnumbered l = true → rest_ok rest →
  ∃ prev', at_line_start prev' = false ∧
    replace_go (re_cjk_line (keyword_text kw0)) (fun _ => keyword_label kw0) 0 0 prev
      (render_line l ++ rest)
    = render_line (fix_keyword kw0 l)
      ++ replace_go (re_cjk_line (keyword_text kw0)) (fun _ => keyword_label kw0) 0 0
           prev' rest.
Proof.
  intros Hl Hrest. destruct l as [kw body|kw|name x y|]; [| | |done].
  - (* a statement *)
    simpl in Hl. apply is_body_inv in Hl as (c & t & -> & Hc & Hbody).
    pose proof (label_char_not_space _ Hc) as Hsp.
    pose proof (body_not_nl _ Hbody) as Hnl.
    assert (Hcopy : ∀ n p,
      replace_go (re_cjk_line (keyword_text kw0)) (fun _ => keyword_label kw0) n 0 p
        ((c :: t) ++ rest)
      = (c :: t) ++ replace_go (re_cjk_line (keyword_text kw0))
                      (fun _ => keyword_label kw0) n 0 (prev_after p (c :: t)) rest).
    { intros n p. destruct (keyword_text_cons kw0) as [w Hw]. unfold re_cjk_line.
      rewrite Hw. apply replace_go_copy_lit.
      eapply Forall_impl; [exact Hbody|]. apply body_char_not_first. }
    assert (Hindent : ∀ n p s,
      replace_go (re_cjk_line (keyword_text kw0)) (fun _ => keyword_label kw0) n 0 p
        (indent ++ s)
      = indent ++ replace_go (re_cjk_line (keyword_text kw0))
                    (fun _ => keyword_label kw0) n 0 (Some 32) s).
    { intros n p s. destruct (keyword_text_cons kw0) as [w Hw]. unfold re_cjk_line.
      rewrite Hw. rewrite replace_go_copy_lit; [done|].
      destruct (first_char_cases kw0) as [-> | [-> | [-> | ->]]];
        repeat constructor; lia. }
    exists (prev_after (Some 32) (c :: t)). split.
    { apply prev_after_line_start; [done|by apply body_no_terminator]. }
    cbn [fix_keyword]. destruct (decide (kw = kw0)) as [->|Hne].
    + rewrite bool_decide_eq_true_2 by done. cbn [andb].
      pose proof (fun p => cjk_line_at_keyword kw0 p c t rest Hsp Hnl Hrest) as Hm.
      destruct (has_cjk (c :: t)) eqn:Hcjk.
      * unfold render_line. rewrite <- !app_assoc, Hindent.
        rewrite app_assoc.
        rewrite (replace_go_hit_app _ _ _ _ (keyword_text kw0 ++ 32 :: c :: t))
          by first [by destruct kw0 | by rewrite <- app_assoc, (Hm (Some 32))].
        rewrite (replace_go_const _ _ _ 1%nat 0%nat), prev_after_app.
        reflexivity.
      * unfold render_line. rewrite <- app_assoc, Hindent.
        replace ((keyword_text kw0 ++ 32 :: c :: t) ++ rest)
          with ((keyword_text kw0 ++ [32]) ++ (c :: t) ++ rest)
          by (by rewrite <- !app_assoc).
        rewrite (replace_go_copy_at _ _ _ (keyword_text kw0 ++ [32])).
        { rewrite Hcopy. by rewrite <- !app_assoc. }
        intros i Hi. destruct kw0; simpl in Hi;
          do 11 (try (destruct i as [|i]; [first [exact (Hm _) | reflexivity]|])); lia.
    + rewrite bool_decide_eq_false_2 by done. cbn [andb].
      unfold render_line. rewrite <- app_assoc, Hindent.
        replace ((keyword_text kw ++ 32 :: c :: t) ++ rest)
          with ((keyword_text kw ++ [32]) ++ (c :: t) ++ rest)
          by (by rewrite <- !app_assoc).
        rewrite (replace_go_copy_at _ _ _ (keyword_text kw ++ [32])).
        { rewrite Hcopy. by rewrite <- !app_assoc. }
      intros i Hi. destruct kw0, kw; try done; simpl in Hi;
        do 11 (try (destruct i as [|i]; [reflexivity|])); lia.
  - (* an already fixed statement *)
    exists (prev_after prev (render_line (Fixed kw))). split; [by destruct kw|].
    destruct rest as [|d rest]; [|simpl in Hrest; subst d];
      destruct kw0, kw; unfold render_line, indent; cbn [keyword_label app];
      misses; reflexivity.
  - (* a point *)
    simpl in Hl. apply andb_prop in Hl as [[Hn Hx]%andb_prop Hy].
    exists (Some 93). split; [done|].
    destruct (keyword_text_cons kw0) as [w Hw]. unfold re_cjk_line. rewrite Hw.
    rewrite replace_go_copy_lit by (by apply point_line_not_first).
    cbn [fix_keyword]. do 2 f_equal.
    unfold render_line. by rewrite !app_assoc, prev_after_app, point_tail_last.
Qed.

End ChartLines.

Section ChartLines2.
Import Regex Mermaid Chart.

Lemma colon_at_keyword kw prev c t rest :
  Js.is_space c = false → Forall (fun c => not_colon_nl c = true) (c :: t) → rest_ok rest →
  match_here (colon_pattern kw) prev (keyword_text kw ++ 32 :: (c :: t) ++ rest) = None.
Proof.
  intros Hc Ht Hrest. unfold colon_pattern. cbn [match_here]. rewrite lit_app.
  change (Js.is_space 32) with true. cbv iota.
  rewrite star_greedy_stop by done.
  by apply (tail_colon (c :: t)).
Qed.

Lemma body_not_colon_nl t :
  Forall (fun c => body_char c = true) t → Forall (fun c => not_colon_nl c = true) t.
Proof.
  intros H. eapply Forall_impl; [exact H|]. by intros c (_ & ? & _)%body_char_facts.
Qed.

Lemma decimal_digits n : Forall (fun c => is_digit c = true) (decimal n).
Proof.
  unfold decimal. generalize (Nat.to_uint n). intros u.
  induction u; simpl; repeat constructor; assumption.
Qed.

Lemma is_digit_not_first kw c : is_digit c = true → c ≠ first_char kw.
Proof.
  intros H. apply digit_or_dot_not_first. unfold digit_or_dot. by rewrite H.
Qed.

Lemma req_line_eq n x y :
  render_line (Req n x y)
  = indent ++ [82; 101; 113] ++ decimal (S n) ++ [58; 32; 91] ++ point_tail x y.
Proof. unfold render_line, req_name. cbn. by rewrite <- app_assoc. Qed.

Lemma lit_second_mismatch c0 c1 w k prev d s :
  d ≠ c1 → lit (c0 :: c1 :: w) k prev (c0 :: d :: s) = None.
Proof.
  intros Hd. simpl. rewrite Z.eqb_refl. by destruct (Z.eqb_spec d c1).
Qed.

#[local] Arguments replace_go : simpl never.
#[local] Arguments match_here : simpl never.

Ltac misses := repeat (rewrite replace_go_miss by reflexivity).

(** The colon pattern of a keyword changes no line whose text has no
    colon, no fixed line and no point. *)
Lemma colon_on_line kw0 (w : list Z) l prev rest :
  wf_line l = true → rest_ok rest →
  ∃ prev', at_line_start prev' = false ∧
    replace_go (colon_pattern kw0) (fun _ => w) 0 0 prev (render_line l ++ rest)
    = render_line l ++ replace_go (colon_pattern kw0) (fun _ => w) 0 0 prev' rest.
Proof.
  intros Hl Hrest.
  assert (Hlit : ∀ n p seg s,
    Forall (fun c => c ≠ first_char kw0) seg →
    replace_go (colon_pattern kw0) (fun _ => w) n 0 p (seg ++ s)
    = seg ++ replace_go (colon_pattern kw0) (fun _ => w) n 0 (prev_after p seg) s).
  { intros n p seg s Hseg. destruct (keyword_text_cons kw0) as [w0 Hw].
    unfold colon_pattern. rewrite Hw. by apply replace_go_copy_lit. }
  assert (Hindent : Forall (fun c => c ≠ first_char kw0) indent).
  { destruct (first_char_cases kw0) as [-> | [-> | [-> | ->]]];
      repeat constructor; lia. }
  destruct l as [kw body|kw|name x y|n x y].
  - (* a statement *)
    simpl in Hl. apply is_body_inv in Hl as (c & t & -> & Hc & Hbody).
    pose proof (label_char_not_space _ Hc) as Hsp.
    pose proof (body_not_colon_nl _ Hbody) as Hnc.
    exists (prev_after (Some 32) (c :: t)). split.
    { apply prev_after_line_start; [done|by apply body_no_terminator]. }
    unfold render_line. rewrite <- app_assoc, Hlit by done.
    replace ((keyword_text kw ++ 32 :: c :: t) ++ rest)
      with ((keyword_text kw ++ [32]) ++ (c :: t) ++ rest)
      by (by rewrite <- !app_assoc).
    rewrite (replace_go_copy_at _ _ _ (keyword_text kw ++ [32])).
    { rewrite Hlit.
      - by rewrite <- !app_assoc.
      - eapply Forall_impl; [exact Hbody|]. apply body_char_not_first. }
    intros i Hi. destruct (decide (kw = kw0)) as [->|Hne].
    + pose proof (fun p => colon_at_keyword kw0 p c t rest Hsp Hnc Hrest) as Hm.
      destruct kw0; simpl in Hi;
        do 11 (try (destruct i as [|i]; [first [exact (Hm _) | reflexivity]|])); lia.
    + destruct kw0, kw; try done; simpl in Hi;
        do 11 (try (destruct i as [|i]; [reflexivity|])); lia.
  - (* a fixed statement *)
    exists (prev_after prev (render_line (Fixed kw))). split; [by destruct kw|].
    destruct rest as [|d rest]; [|simpl in Hrest; subst d];
      destruct kw0, kw; unfold render_line, indent; cbn [keyword_label app];
      misses; reflexivity.
  - (* a point *)
    simpl in Hl. apply andb_prop in Hl as [[Hn Hx]%andb_prop Hy].
    exists (Some 93). split; [done|].
    rewrite Hlit by (by apply point_line_not_first).
    do 2 f_equal. unfold render_line.
    by rewrite !app_assoc, prev_after_app, point_tail_last.
  - (* a numbered point *)
    simpl in Hl. apply andb_prop in Hl as [Hx Hy].
    exists (Some 93). split; [done|].
    rewrite req_line_eq, <- !app_assoc, Hlit by done.
    pose proof (decimal_digits (S n)) as Hdig.
    assert (Htail : Forall (fun c => c ≠ first_char kw0)
                      (decimal (S n) ++ [58; 32; 91] ++ point_tail x y)).
    { rewrite !Forall_app. repeat split.
      - eapply Forall_impl; [exact Hdig|]. apply is_digit_not_first.
      - destruct (first_char_cases kw0) as [-> | [-> | [-> | ->]]];
          repeat constructor; lia.
      - by apply point_tail_not_first. }
    assert (Hq : ∀ p, match_here (colon_pattern kw0) p
                        (113 :: (decimal (S n) ++ [58; 32; 91] ++ point_tail x y) ++ rest)
                      = None).
    { intros p. unfold colon_pattern.
      destruct (decimal (S n)) as [|d ds] eqn:Hd.
      - destruct kw0; reflexivity.
      - apply Forall_cons in Hdig as [Hd0 _]. unfold is_digit in Hd0.
        destruct kw0; try reflexivity; cbn [match_here keyword_text];
          apply lit_second_mismatch; lia. }
    assert (Hre : Forall (fun c => c ≠ first_char kw0) [82; 101]).
    { destruct (first_char_cases kw0) as [-> | [-> | [-> | ->]]];
        repeat constructor; lia. }
    replace ([82; 101; 113] ++ decimal (S n) ++ [58; 32; 91] ++ point_tail x y ++ rest)
      with ([82; 101] ++ 113 :: (decimal (S n) ++ [58; 32; 91] ++ point_tail x y) ++ rest)
      by (cbn [app]; by rewrite <- !app_assoc).
    rewrite Hlit by done. rewrite replace_go_miss by apply Hq.
    rewrite Hlit by done.
    rewrite !app_assoc, !prev_after_app, point_tail_last.
    cbn [app]. by rewrite <- !app_assoc.
Qed.

End ChartLines2.

Section ChartLines3.
Import Regex Mermaid Chart.

Lemma render_line_content l : render_line l = indent ++ line_content l.
Proof. by destruct l. Qed.

Lemma number_points_cons n l ls :
  number_points n (l :: ls)
  = (number_line n l).1 :: number_points (number_line n l).2 ls.
Proof. destruct l as [| |name x y|]; simpl; try done. by destruct (has_cjk name). Qed.

Lemma cjk_point_unfold prev s :
  match_here re_cjk_point prev s
  = if at_line_start prev
    then star_greedy Js.is_space (match_here re_name_tail) prev s else None.
Proof. reflexivity. Qed.

Lemma label_chars_facts t :
  Forall (fun c => label_char c = true) t →
  Forall (fun c => not_colon_nl c = true) t ∧
  Forall (fun c => is_line_terminator c = false) t.
Proof.
  intros H. split; (eapply Forall_impl; [exact H|]); intros c Hc%label_char_body.
  - by apply body_char_facts in Hc as (_ & ? & _).
  - by apply body_char_facts in Hc as (_ & _ & ? & _).
Qed.

Lemma statement_content_facts l :
  unnumbered l = true → is_point l = false →
  Forall (fun c => not_colon_nl c = true) (line_content l).
Proof.
  destruct l as [kw body|kw| |]; try done; intros Hl _; simpl in *.
  - apply is_body_inv in Hl as (c & t & -> & _ & Hbody).
    apply Forall_app. split; [destruct kw; by repeat constructor|].
    constructor; [done|]. by apply body_not_colon_nl.
  - destruct kw; by repeat constructor.
Qed.

Lemma content_no_terminator l :
  unnumbered l = true →
  Forall (fun c => is_line_terminator c = false) (line_content l).
Proof.
  destruct l as [kw body|kw|name x y|]; try done; intros Hl; simpl in *.
  - apply is_body_inv in Hl as (c & t & -> & _ & Hbody).
    apply Forall_app. split; [destruct kw; by repeat constructor|].
    constructor; [done|]. by apply body_no_terminator.
  - destruct kw; by repeat constructor.
  - apply andb_prop in Hl as [[[_ Hn]%is_name_inv Hx]%andb_prop Hy].
    apply Forall_app. split; [by apply label_chars_facts|].
    do 3 (constructor; [done|]). by apply point_tail_no_terminator.
Qed.

Lemma content_head_not_space l rest :
  unnumbered l = true → stops Js.is_space (line_content l ++ rest).
Proof.
  destruct l as [kw body|kw|name x y|]; try done; intros Hl; simpl in *.
  - by destruct kw.
  - by destruct kw.
  - apply andb_prop in Hl as [[[Hne Hn]%is_name_inv _]%andb_prop _].
    destruct name as [|c name]; [done|]. apply Forall_cons in Hn as [Hc _].
    by apply label_char_not_space.
Qed.

Lemma spaces_not_colon_nl i :
  Forall (fun c => not_colon_nl c = true) (drop i [32; 32; 32; 32]).
Proof. do 5 (destruct i as [|i]; [by repeat constructor|]). constructor. Qed.

Lemma spaces_no_cjk i name :
  has_cjk (drop i [32; 32; 32; 32] ++ name) = has_cjk name.
Proof. do 5 (destruct i as [|i]; [done|]). reflexivity. Qed.

(** The pattern for points at the start of a line. *)
Lemma cjk_point_at_line l rest :
  unnumbered l = true → rest_ok rest →
  match_here re_cjk_point (Some 10) ([32; 32; 32; 32] ++ line_content l ++ rest)
  = match l with
    | Point name x y => if has_cjk name then Some (point_tail x y ++ rest) else None
    | _ => None
    end.
Proof.
  intros Hl Hrest. rewrite cjk_point_unfold. cbn [at_line_start is_line_terminator].
  change ((10 =? 10) || (10 =? 13) || (10 =? 8232) || (10 =? 8233)) with true. cbv iota.
  pose proof (content_head_not_space l rest Hl) as Hstop.
  assert (Hmiss : is_point l = false →
    star_greedy Js.is_space (match_here re_name_tail) (Some 10)
      ([32; 32; 32; 32] ++ line_content l ++ rest) = None).
  { intros Hnp. apply (star_greedy_fail _ _ [32; 32; 32; 32]); [done|].
    intros i prev'. rewrite app_assoc.
    apply name_tail_no_colon; [|done]. apply Forall_app. split.
    - apply spaces_not_colon_nl.
    - by apply statement_content_facts. }
  destruct l as [kw body|kw|name x y|]; try done; try by apply Hmiss.
  simpl in Hl. apply andb_prop in Hl as [[[Hne Hn]%is_name_inv _]%andb_prop _].
  apply label_chars_facts in Hn as [Hn _].
  cbn [line_content] in *. rewrite <- !app_assoc in *.
  destruct (has_cjk name) eqn:Hcjk.
  - apply (star_greedy_all _ _ [32; 32; 32; 32]); [by repeat constructor|done|].
    pose proof (name_tail_point name (prev_after (Some 10) [32; 32; 32; 32])
                  (point_tail x y ++ rest) Hn) as Hm.
    by rewrite Hcjk in Hm.
  - apply (star_greedy_fail _ _ [32; 32; 32; 32]); [done|]. intros i prev'.
    pose proof (name_tail_point (drop i [32; 32; 32; 32] ++ name) prev'
                  (point_tail x y ++ rest)) as Hm.
    rewrite spaces_no_cjk, Hcjk, <- app_assoc in Hm. apply Hm.
    apply Forall_app. split; [apply spaces_not_colon_nl|done].
Qed.

#[local] Arguments replace_go : simpl never.
#[local] Arguments match_here : simpl never.

(** On a line, the pattern for points renames the point when its name has
    an ideograph, and changes nothing else. *)
Lemma cjk_point_on_line l n prev rest :
  unnumbered l = true → at_line_start prev = false → rest_ok rest →
  ∃ prev', at_line_start prev' = false ∧
    replace_go re_cjk_point req_name n 0 prev (render_line l ++ rest)
    = render_line (number_line n l).1
      ++ replace_go re_cjk_point req_name (number_line n l).2 0 prev' rest.
Proof.
  intros Hl Hp Hrest.
  pose proof (cjk_point_at_line l rest Hl Hrest) as Hm.
  pose proof (content_no_terminator l Hl) as Hnt.
  rewrite render_line_content. unfold indent.
  change ([10; 32; 32; 32; 32] ++ line_content l)
    with (10 :: [32; 32; 32; 32] ++ line_content l).
  rewrite <- app_comm_cons, replace_go_miss
    by (rewrite cjk_point_unfold; by rewrite Hp).
  assert (Hcopy : ∀ n',
    replace_go re_cjk_point req_name n' 0 (Some 10)
      (([32; 32; 32; 32] ++ line_content l) ++ rest)
    = ([32; 32; 32; 32] ++ line_content l)
      ++ replace_go re_cjk_point req_name n' 0
           (prev_after (Some 32) ([32; 32; 32] ++ line_content l)) rest →
    ∃ prev', at_line_start prev' = false ∧
      10 :: replace_go re_cjk_point req_name n' 0 (Some 10)
              (([32; 32; 32; 32] ++ line_content l) ++ rest)
      = render_line l ++ replace_go re_cjk_point req_name n' 0 prev' rest).
  { intros n' ->. eexists. split; [|by rewrite render_line_content].
    apply prev_after_line_start; [done|].
    apply Forall_app. split; [by repeat constructor|done]. }
  assert (Hmiss : match_here re_cjk_point (Some 10)
                    ([32; 32; 32; 32] ++ line_content l ++ rest) = None →
    ∀ n', replace_go re_cjk_point req_name n' 0 (Some 10)
      (([32; 32; 32; 32] ++ line_content l) ++ rest)
    = ([32; 32; 32; 32] ++ line_content l)
      ++ replace_go re_cjk_point req_name n' 0
           (prev_after (Some 32) ([32; 32; 32] ++ line_content l)) rest).
  { intros Hnone n'. rewrite <- app_assoc.
    change ([32; 32; 32; 32] ++ line_content l ++ rest)
      with (32 :: ([32; 32; 32] ++ line_content l) ++ rest).
    rewrite replace_go_miss by exact Hnone.
    unfold re_cjk_point. rewrite replace_go_copy_bol; [done|done|].
    apply Forall_app. split; [by repeat constructor|done]. }
  destruct l as [kw body|kw|name x y|]; try done;
    try (apply Hcopy, Hmiss, Hm).
  cbn [number_line]. destruct (has_cjk name) eqn:Hcjk; [|apply Hcopy, Hmiss, Hm].
  simpl in Hl. apply andb_prop in Hl as [[_ Hx]%andb_prop Hy].
  exists (Some 93). split; [done|]. cbn [fst snd].
  cbn [line_content] in *.
  replace (([32; 32; 32; 32] ++ name ++ [58; 32; 91] ++ point_tail x y) ++ rest)
    with (([32; 32; 32; 32] ++ name ++ [58; 32; 91]) ++ point_tail x y ++ rest)
    by (by rewrite <- !app_assoc).
  rewrite replace_go_hit_app; [|done|rewrite <- !app_assoc in *; exact Hm].
  unfold re_cjk_point. rewrite replace_go_copy_bol.
  - rewrite point_tail_last, req_line_eq. unfold req_name, req_prefix, req_suffix, indent.
    cbn [app]. by rewrite <- !app_assoc.
  - rewrite !app_assoc, prev_after_app. done.
  - by apply point_tail_no_terminator.
Qed.

(** Line by line: the numbering of the points. *)
Lemma cjk_point_on_lines ls : ∀ n prev,
  Forall (fun l => unnumbered l = true) ls → at_line_start prev = false →
  replace_go re_cjk_point req_name n 0 prev (render_lines ls)
  = render_lines (number_points n ls).
Proof.
  induction ls as [|l ls IH]; intros n prev Hwf Hp.
  - apply replace_go_nil. by rewrite cjk_point_unfold, Hp.
  - apply Forall_cons in Hwf as [Hl Hwf]. rewrite number_points_cons.
    unfold render_lines in *.
    change (flat_map render_line (l :: ls))
      with (render_line l ++ flat_map render_line ls).
    destruct (cjk_point_on_line l n prev (flat_map render_line ls) Hl Hp
                (rest_ok_lines ls)) as (prev' & Hp' & ->).
    cbn [flat_map]. f_equal. by apply IH.
Qed.

End ChartLines3.

(** ** Quadrant charts: the whole repair *)

Section ChartRepair.
Import Regex Mermaid Chart.

#[local] Arguments replace_go : simpl never.
#[local] Arguments match_here : simpl never.

Ltac misses := repeat (rewrite replace_go_miss by reflexivity).

Lemma header_cjk_line kw0 w n s :
  rest_ok s →
  replace_go (re_cjk_line (keyword_text kw0)) (fun _ => w) n 0 None (quadrantChart ++ s)
  = quadrantChart
    ++ replace_go (re_cjk_line (keyword_text kw0)) (fun _ => w) n 0 (Some 116) s.
Proof.
  intros Hs. destruct s as [|d s]; [|simpl in Hs; subst d];
    destruct kw0; unfold quadrantChart; cbn [app]; misses; reflexivity.
Qed.

Lemma header_colon kw0 w n s :
  rest_ok s →
  replace_go (colon_pattern kw0) (fun _ => w) n 0 None (quadrantChart ++ s)
  = quadrantChart ++ replace_go (colon_pattern kw0) (fun _ => w) n 0 (Some 116) s.
Proof.
  intros Hs. destruct s as [|d s]; [|simpl in Hs; subst d];
    destruct kw0; unfold quadrantChart; cbn [app]; misses; reflexivity.
Qed.

Lemma header_cjk_point n s :
  rest_ok s →
  replace_go re_cjk_point req_name n 0 None (quadrantChart ++ s)
  = quadrantChart ++ replace_go re_cjk_point req_name n 0 (Some 116) s.
Proof.
  intros Hs.
  assert (Hm : match_here re_cjk_point None (quadrantChart ++ s) = None).
  { rewrite cjk_point_unfold. cbn [at_line_start].
    rewrite star_greedy_stop by done.
    apply name_tail_no_colon; [by repeat constructor|done]. }
  unfold quadrantChart in *. cbn [app] in *. rewrite replace_go_miss by exact Hm.
  change (117 :: 97 :: 100 :: 114 :: 97 :: 110 :: 116 :: 67 :: 104 :: 97 :: 114 :: 116 :: s)
    with ([117; 97; 100; 114; 97; 110; 116; 67; 104; 97; 114; 116] ++ s).
  unfold re_cjk_point. rewrite replace_go_copy_bol; [done|done|by repeat constructor].
Qed.

Lemma unnumbered_wf l : unnumbered l = true → wf_line l = true.
Proof. by destruct l. Qed.

Lemma source_unnumbered l : source_line l = true → unnumbered l = true.
Proof. by destruct l. Qed.

Lemma fix_keyword_unnumbered kw0 l :
  unnumbered l = true → unnumbered (fix_keyword kw0 l) = true.
Proof.
  destruct l as [kw body| | |]; try done. simpl.
  by destruct (bool_decide (kw = kw0) && has_cjk body).
Qed.

(** One keyword pattern on a whole chart. *)
Lemma cjk_line_on_chart kw0 ls :
  Forall (fun l => unnumbered l = true) ls →
  replace (re_cjk_line (keyword_text kw0)) (fun _ => keyword_label kw0) (render ls)
  = render (List.map (fix_keyword kw0) ls)
  ∧ Forall (fun l => unnumbered l = true) (List.map (fix_keyword kw0) ls).
Proof.
  intros Hls. split.
  - unfold replace, render. rewrite header_cjk_line by apply rest_ok_lines.
    f_equal. rewrite <- (app_nil_r (render_lines ls)).
    destruct (replace_lines_const (re_cjk_line (keyword_text kw0)) (keyword_label kw0)
                unnumbered (fix_keyword kw0)
                (fun l prev rest Hl _ Hrest => cjk_line_on_line kw0 l prev rest Hl Hrest)
                ls (Some 116) [] Hls eq_refl I) as (prev' & _ & ->).
    rewrite replace_go_nil, app_nil_r; [done|by destruct kw0].
  - apply Forall_forall. intros l' Hl'. apply list_elem_of_In, in_map_iff in Hl'.
    destruct Hl' as (l & <- & Hl). apply fix_keyword_unnumbered.
    rewrite Forall_forall in Hls. by apply Hls, list_elem_of_In.
Qed.

(** One colon pattern on a chart, with some text after the lines. *)
Lemma colon_on_chart kw0 w ls tail :
  Forall (fun l => wf_line l = true) ls → rest_ok tail →
  (∀ prev, replace_go (colon_pattern kw0) (fun _ => w) 0 0 prev tail = tail) →
  replace (colon_pattern kw0) (fun _ => w) (render ls ++ tail) = render ls ++ tail.
Proof.
  intros Hls Htail Hid. unfold replace, render. rewrite <- app_assoc.
  rewrite header_colon by (destruct ls; done).
  destruct (replace_lines_const (colon_pattern kw0) w wf_line (fun l => l)
              (fun l prev rest Hl _ Hrest => colon_on_line kw0 w l prev rest Hl Hrest)
              ls (Some 116) tail Hls eq_refl Htail) as (prev' & _ & ->).
  by rewrite map_id, Hid.
Qed.

Lemma fix_keyword_all l :
  fix_keyword KYAxis (fix_keyword KXAxis (fix_keyword KTitle
    (fix_keyword KQuadrant4 (fix_keyword KQuadrant3 (fix_keyword KQuadrant2
       (fix_keyword KQuadrant1 l))))))
  = fix_stmt l.
Proof.
  destruct l as [kw body| | |]; try done.
  destruct kw; simpl; by destruct (has_cjk body).
Qed.

Lemma fixQuadrant_unfold d :
  fixQuadrant d
  = if negb (test re_data_point (fixQuadrant_rewrites d))
    then fixQuadrant_rewrites d ++ sample_point else fixQuadrant_rewrites d.
Proof. reflexivity. Qed.

Lemma colon_phases_id ls tail :
  Forall (fun l => wf_line l = true) ls → rest_ok tail →
  (∀ kw0 w prev, replace_go (colon_pattern kw0) (fun _ => w) 0 0 prev tail = tail) →
  replace (re_quadrant_colon 4) (fun _ => q4_label)
    (replace (re_quadrant_colon 3) (fun _ => q3_label)
       (replace (re_quadrant_colon 2) (fun _ => q2_label)
          (replace (re_quadrant_colon 1) (fun _ => q1_label) (render ls ++ tail))))
  = render ls ++ tail.
Proof.
  intros Hls Htail Hid.
  change (re_quadrant_colon 1) with (colon_pattern KQuadrant1).
  change (re_quadrant_colon 2) with (colon_pattern KQuadrant2).
  change (re_quadrant_colon 3) with (colon_pattern KQuadrant3).
  change (re_quadrant_colon 4) with (colon_pattern KQuadrant4).
  by rewrite !colon_on_chart.
Qed.

(** The rewriting steps on a source chart. *)
Lemma fixQuadrant_rewrites_render ls :
  Forall (fun l => source_line l = true) ls →
  fixQuadrant_rewrites (render ls) = render (repaired ls).
Proof.
  intros Hsrc.
  assert (Hun : Forall (fun l => unnumbered l = true) ls).
  { eapply Forall_impl; [exact Hsrc|]. apply source_unnumbered. }
  assert (Hwf : Forall (fun l => wf_line l = true) ls).
  { eapply Forall_impl; [exact Hun|]. apply unnumbered_wf. }
  unfold fixQuadrant_rewrites. cbv zeta.
  assert (Hnil : ∀ kw0 w prev,
            replace_go (colon_pattern kw0) (fun _ => w) 0 0 prev [] = []).
  { intros kw0 w prev. by destruct kw0. }
  pose proof (colon_phases_id ls [] Hwf I Hnil) as Hcolon.
  rewrite !app_nil_r in Hcolon. rewrite Hcolon.
  change (kw_quadrant 1) with (keyword_text KQuadrant1).
  change (kw_quadrant 2) with (keyword_text KQuadrant2).
  change (kw_quadrant 3) with (keyword_text KQuadrant3).
  change (kw_quadrant 4) with (keyword_text KQuadrant4).
  change kw_title with (keyword_text KTitle).
  change kw_x_axis with (keyword_text KXAxis).
  change kw_y_axis with (keyword_text KYAxis).
  change q1_label with (keyword_label KQuadrant1).
  change q2_label with (keyword_label KQuadrant2).
  change q3_label with (keyword_label KQuadrant3).
  change q4_label with (keyword_label KQuadrant4).
  change title_label with (keyword_label KTitle).
  change x_axis_label with (keyword_label KXAxis).
  change y_axis_label with (keyword_label KYAxis).
  destruct (cjk_line_on_chart KQuadrant1 _ Hun) as [-> H1].
  destruct (cjk_line_on_chart KQuadrant2 _ H1) as [-> H2].
  destruct (cjk_line_on_chart KQuadrant3 _ H2) as [-> H3].
  destruct (cjk_line_on_chart KQuadrant4 _ H3) as [-> H4].
  destruct (cjk_line_on_chart KTitle _ H4) as [-> H5].
  destruct (cjk_line_on_chart KXAxis _ H5) as [-> H6].
  destruct (cjk_line_on_chart KYAxis _ H6) as [-> H7].
  rewrite !List.map_map in *.
  rewrite (List.map_ext _ fix_stmt fix_keyword_all) in *.
  unfold replace, render. rewrite header_cjk_point by apply rest_ok_lines.
  by rewrite cjk_point_on_lines.
Qed.

End ChartRepair.

(** ** Quadrant charts: the check for a data point *)

Section ChartTest.
Import Regex Mermaid Chart.

Lemma digit_or_dot_not_space c : digit_or_dot c = true → Js.is_space c = false.
Proof. by intros (_ & _ & _ & _ & ? & _)%digit_or_dot_facts. Qed.

Lemma match_lit w r prev s x :
  match_here r (prev_after prev w) s = Some x →
  match_here (Lit w :: r) prev (w ++ s) = Some x.
Proof. intros H. cbn [match_here]. by rewrite lit_app. Qed.

Lemma match_star p seg r prev s x :
  Forall (fun c => p c = true) seg → stops p s →
  match_here r (prev_after prev seg) s = Some x →
  match_here (Star p :: r) prev (seg ++ s) = Some x.
Proof. intros Hseg Hs H. cbn [match_here]. by apply star_greedy_all. Qed.

Lemma match_plus p c seg r prev s x :
  Forall (fun c => p c = true) (c :: seg) → stops p s →
  match_here r (prev_after prev (c :: seg)) s = Some x →
  match_here (Plus p :: r) prev ((c :: seg) ++ s) = Some x.
Proof.
  intros [Hc Hseg]%Forall_cons Hs H. cbn [match_here app]. rewrite Hc.
  by apply star_greedy_all.
Qed.

(** The pattern for data points at a point whose name is a word. *)
Lemma data_point_match c w x y rest prev :
  Forall (fun c => is_word c = true) (c :: w) →
  is_number x = true → is_number y = true →
  match_here re_data_point prev ((c :: w) ++ [58; 32; 91] ++ point_tail x y ++ rest)
  = Some rest.
Proof.
  intros Hw (d & x' & -> & Hx)%is_number_inv (e & y' & -> & Hy)%is_number_inv.
  unfold re_data_point, point_tail. rewrite <- !app_assoc.
  pose proof (digit_or_dot_not_space d ltac:(by apply Forall_cons in Hx as [? _])) as Hd.
  pose proof (digit_or_dot_not_space e ltac:(by apply Forall_cons in Hy as [? _])) as He.
  apply match_plus; [done|done|].
  apply (match_lit [58]). apply (match_star _ [32]); [by repeat constructor|done|].
  apply (match_lit [91]). apply (match_star _ []); [constructor|done|].
  apply match_plus; [done|done|].
  apply (match_star _ []); [constructor|done|].
  apply (match_lit [44]). apply (match_star _ [32]); [by repeat constructor|done|].
  apply match_plus; [done|done|].
  apply (match_star _ []); [constructor|done|].
  by apply (match_lit [93]).
Qed.

Lemma label_no_cjk_word t :
  Forall (fun c => label_char c = true) t → has_cjk t = false →
  Forall (fun c => is_word c = true) t.
Proof.
  intros Ht Hcjk%existsb_false_Forall. induction Ht as [|c t Hc _ IH]; [constructor|].
  apply Forall_cons in Hcjk as [Hn Hcjk]. constructor; [|by apply IH].
  unfold label_char, is_upper in Hc. unfold is_word. rewrite Hn in Hc.
  unfold is_digit in *. lia.
Qed.

(** The pattern for data points matches at every point of a repaired
    chart. *)
Lemma data_point_at_point l rest prev :
  final_line l = true → is_point l = true →
  is_Some (match_here re_data_point prev (line_content l ++ rest)).
Proof.
  intros [Hwf Hfin]%andb_prop Hpt. destruct l as [| |name x y|n x y]; try done.
  - simpl in Hwf. apply andb_prop in Hwf as [[[Hne Hn]%is_name_inv Hx]%andb_prop Hy].
    apply negb_true_iff in Hfin. pose proof (label_no_cjk_word _ Hn Hfin) as Hw.
    destruct name as [|c name]; [done|]. cbn [line_content].
    rewrite <- !app_assoc. rewrite (data_point_match c name x y rest prev); eauto.
  - simpl in Hwf. apply andb_prop in Hwf as [Hx Hy].
    assert (Heq : line_content (Req n x y) ++ rest
                  = (82 :: [101; 113] ++ decimal (S n))
                    ++ [58; 32; 91] ++ point_tail x y ++ rest).
    { unfold line_content, req_name, req_prefix, req_suffix.
      cbn [List.skipn app]. by rewrite <- !app_assoc. }
    rewrite Heq, data_point_match; eauto.
    constructor; [done|]. apply Forall_app. split; [by repeat constructor|].
    eapply Forall_impl; [apply decimal_digits|]. intros c Hc. unfold is_word. by rewrite Hc.
Qed.

Lemma test_data_point_chart ls tail :
  Forall (fun l => final_line l = true) ls → existsb is_point ls = true →
  test re_data_point (render ls ++ tail) = true.
Proof.
  intros Hfin (l & Hin & Hpt)%existsb_exists.
  apply list_elem_of_In, list_elem_of_split in Hin as (pre & post & ->).
  rewrite Forall_forall in Hfin.
  assert (Hl : final_line l = true) by (apply Hfin; set_solver).
  unfold test, render, render_lines. rewrite flat_map_app. cbn [flat_map].
  rewrite render_line_content.
  replace ((quadrantChart ++ flat_map render_line pre
            ++ (indent ++ line_content l) ++ flat_map render_line post) ++ tail)
    with ((quadrantChart ++ flat_map render_line pre ++ indent)
          ++ line_content l ++ flat_map render_line post ++ tail)
    by (by rewrite <- !app_assoc).
  apply test_from_app. by apply data_point_at_point.
Qed.

Lemma statement_no_colon l :
  wf_line l = true → is_point l = false →
  Forall (fun c => (c =? 58) = false) (render_line l).
Proof.
  destruct l as [kw body|kw| |]; try done; intros Hl _; unfold render_line, indent.
  - simpl in Hl. apply is_body_inv in Hl as (c & t & -> & _ & Hbody).
    rewrite !Forall_app. repeat split; [by repeat constructor|by destruct kw; repeat constructor|].
    constructor; [done|]. eapply Forall_impl; [exact Hbody|].
    intros d (_ & Hd & _)%body_char_facts. unfold not_colon_nl in Hd. lia.
  - apply Forall_app. split; [by repeat constructor|destruct kw; by repeat constructor].
Qed.

Lemma test_data_point_none ls :
  Forall (fun l => wf_line l = true) ls → existsb is_point ls = false →
  test re_data_point (render ls) = false.
Proof.
  intros Hwf Hnone. apply (test_from_requires (fun c => c =? 58)).
  - unfold re_data_point. apply Exists_cons_tl, Exists_cons_hd. by repeat constructor.
  - unfold render. apply Forall_app. split; [by repeat constructor|].
    unfold render_lines. induction Hwf as [|l ls Hl _ IH]; [constructor|].
    simpl in Hnone. apply orb_false_elim in Hnone as [Hl' Hnone].
    cbn [flat_map]. apply Forall_app. split; [by apply statement_no_colon|by apply IH].
Qed.

Lemma number_points_final ls : ∀ n,
  Forall (fun l => unnumbered l = true) ls →
  Forall (fun l => match l with Stmt _ body => has_cjk body = false | _ => True end) ls →
  Forall (fun l => final_line l = true) (number_points n ls)
  ∧ existsb is_point (number_points n ls) = existsb is_point ls.
Proof.
  induction ls as [|l ls IH]; intros n Hun Hst; [by split|].
  apply Forall_cons in Hun as [Hl Hun]. apply Forall_cons in Hst as [Hs Hst].
  destruct l as [kw body|kw|name x y|]; try done; simpl.
  - destruct (IH n Hun Hst) as [IH1 IH2]. split; [|done].
    constructor; [|done]. unfold final_line. simpl in *. by rewrite Hl, Hs.
  - destruct (IH n Hun Hst) as [IH1 IH2]. split; [|done]. by constructor.
  - destruct (has_cjk name) eqn:Hcjk.
    + destruct (IH (S n) Hun Hst) as [IH1 IH2]. split; [|done].
      constructor; [|done]. unfold final_line. simpl in *.
      apply andb_prop in Hl as [[_ ->]%andb_prop ->]. done.
    + destruct (IH n Hun Hst) as [IH1 IH2]. split; [|done].
      constructor; [|done]. unfold final_line. simpl in *. by rewrite Hl, Hcjk.
Qed.

Lemma repaired_final ls :
  Forall (fun l => source_line l = true) ls →
  Forall (fun l => final_line l = true) (repaired ls)
  ∧ existsb is_point (repaired ls) = existsb is_point ls.
Proof.
  intros Hsrc. unfold repaired.
  assert (Hpt : existsb is_point (List.map fix_stmt ls) = existsb is_point ls).
  { clear Hsrc. induction ls as [|l ls IH]; [done|]. simpl. rewrite IH. f_equal.
    destruct l as [kw body| | |]; try done. simpl. by destruct (has_cjk body). }
  rewrite <- Hpt. apply number_points_final.
  - apply Forall_forall. intros l' Hl'. apply list_elem_of_In, in_map_iff in Hl'.
    destruct Hl' as (l & <- & Hl). rewrite Forall_forall in Hsrc.
    apply list_elem_of_In, Hsrc in Hl. destruct l as [kw body| | |]; try done.
    simpl. by destruct (has_cjk body).
  - apply Forall_forall. intros l' Hl'. apply list_elem_of_In, in_map_iff in Hl'.
    destruct Hl' as (l & <- & Hl). destruct l as [kw body| | |]; try done.
    simpl. by destruct (has_cjk body) eqn:?.
Qed.

Lemma final_wf l : final_line l = true → wf_line l = true.
Proof. by intros [? _]%andb_prop. Qed.

(** [fixQuadrant] on a source chart. *)
Lemma fixQuadrant_render ls :
  Forall (fun l => source_line l = true) ls →
  fixQuadrant (render ls)
  = render (repaired ls) ++ (if existsb is_point ls then [] else sample_point).
Proof.
  intros Hsrc. rewrite fixQuadrant_unfold, fixQuadrant_rewrites_render by done.
  destruct (repaired_final ls Hsrc) as [Hfin Hpt].
  destruct (existsb is_point ls) eqn:Hp.
  - pose proof (test_data_point_chart (repaired ls) [] Hfin Hpt) as Ht.
    rewrite app_nil_r in *. by rewrite Ht.
  - rewrite test_data_point_none; [done| |done].
    eapply Forall_impl; [exact Hfin|]. apply final_wf.
Qed.

End ChartTest.

(** ** Quadrant charts: trimming, the chart type, and a second repair *)

Section ChartWhole.
Import Regex Mermaid Chart.

Lemma trim_id c s :
  Js.is_space c = false → Js.is_space (List.last (c :: s) 0) = false →
  Js.trim (c :: s) = c :: s.
Proof.
  intros Hc Hlast. unfold Js.trim, Js.trimEnd. cbn [Js.trimStart]. rewrite Hc.
  assert (Hne : c :: s ≠ []) by done.
  rewrite (app_removelast_last 0 Hne) at 1 2.
  rewrite rev_unit. cbn [Js.trimStart]. rewrite Hlast.
  by rewrite <- rev_unit, rev_involutive, <- app_removelast_last.
Qed.

Lemma last_app_ne (l1 l2 : list Z) d :
  l2 ≠ [] → List.last (l1 ++ l2) d = List.last l2 d.
Proof.
  intros Hne. induction l1 as [|a l1 IH]; [done|].
  cbn [app]. destruct (l1 ++ l2) eqn:Heq; [|by rewrite <- IH].
  by apply app_eq_nil in Heq as [_ ->].
Qed.

Lemma render_line_last l :
  wf_line l = true → Js.is_space (List.last (render_line l) 0) = false.
Proof.
  intros Hl. destruct l as [kw body|kw|name x y|n x y]; unfold render_line.
  - simpl in Hl. pose proof Hl as (c & t & -> & _)%is_body_inv.
    unfold is_body in Hl. apply andb_prop in Hl as [_ Hl].
    rewrite last_app_ne by (by destruct kw).
    change (keyword_text kw ++ 32 :: c :: t) with (keyword_text kw ++ [32] ++ c :: t).
    rewrite app_assoc, last_app_ne by done. by apply label_char_not_space.
  - by destruct kw.
  - unfold point_tail. by rewrite !app_assoc, List.last_last.
  - unfold point_tail. by rewrite !app_assoc, List.last_last.
Qed.

Lemma chart_last ls b :
  Forall (fun l => wf_line l = true) ls →
  Js.is_space (List.last (render ls ++ sample_if b) 0) = false.
Proof.
  intros Hwf. destruct b; unfold sample_if.
  - rewrite app_nil_r. unfold render.
    destruct ls as [|l ls _] using rev_ind; [done|].
    apply Forall_app in Hwf as [_ [Hl _]%Forall_cons].
    unfold render_lines. rewrite flat_map_app.
    change (flat_map render_line [l]) with (render_line l ++ []).
    rewrite app_nil_r, app_assoc, last_app_ne; [by apply render_line_last|by destruct l].
  - by rewrite last_app_ne.
Qed.

Lemma trim_chart ls b :
  Forall (fun l => wf_line l = true) ls →
  Js.trim (render ls ++ sample_if b) = render ls ++ sample_if b.
Proof.
  intros Hwf. pose proof (chart_last ls b Hwf) as Hlast.
  unfold render, quadrantChart in *. cbn [app] in *. by apply trim_id.
Qed.

Lemma is_prefix_app w s : is_prefix w (w ++ s) = true.
Proof. induction w as [|c w IH]; [by destruct s|]. simpl. by rewrite Z.eqb_refl. Qed.

Lemma includes_chart ls tail : includes quadrantChart (render ls ++ tail) = true.
Proof.
  unfold render. rewrite <- app_assoc.
  assert (H := is_prefix_app quadrantChart (render_lines ls ++ tail)).
  unfold quadrantChart in *. cbn [app includes] in *. by rewrite H.
Qed.

Lemma test_flow_free s : ∀ prev,
  flow_free prev s → test_from re_flow_header prev s = false.
Proof.
  induction s as [|c s IH]; intros prev Hs; simpl.
  - by destruct (at_line_start prev).
  - destruct Hs as [Hc Hs]. rewrite (IH _ Hs).
    destruct (at_line_start prev); [|done].
    destruct (Hc eq_refl) as [Hg Hf].
    destruct (Z.eqb_spec c 103); [done|]. by destruct (Z.eqb_spec c 102).
Qed.

Lemma flow_free_app s1 : ∀ prev s2,
  flow_free prev s1 → flow_free (prev_after prev s1) s2 → flow_free prev (s1 ++ s2).
Proof.
  induction s1 as [|c s1 IH]; intros prev s2 H1 H2; [done|].
  destruct H1 as [Hc H1]. split; [done|]. by apply IH.
Qed.

Lemma flow_free_inside s : ∀ prev,
  at_line_start prev = false →
  Forall (fun c => is_line_terminator c = false) s → flow_free prev s.
Proof.
  induction s as [|c s IH]; intros prev Hp Hs; [done|].
  apply Forall_cons in Hs as [Hc Hs]. split; [by rewrite Hp|]. by apply IH.
Qed.

Lemma point_tail_no_cjk x y :
  is_number x = true → is_number y = true →
  Forall (fun c => is_cjk c = false) (point_tail x y).
Proof.
  intros (? & ? & _ & Hx)%is_number_inv (? & ? & _ & Hy)%is_number_inv.
  unfold point_tail. rewrite !Forall_app. repeat split; try by repeat constructor.
  - eapply Forall_impl; [exact Hx|]. by intros c (_ & _ & _ & ? & _)%digit_or_dot_facts.
  - eapply Forall_impl; [exact Hy|]. by intros c (_ & _ & _ & ? & _)%digit_or_dot_facts.
Qed.

Lemma content_no_terminator_wf l :
  wf_line l = true → Forall (fun c => is_line_terminator c = false) (line_content l).
Proof.
  intros Hl. destruct l as [kw body|kw|name x y|n x y];
    try (by apply content_no_terminator).
  simpl in Hl. apply andb_prop in Hl as [Hx Hy].
  cbn [line_content]. unfold req_name, req_prefix, req_suffix. cbn [List.skipn app].
  do 3 (constructor; [done|]). rewrite !Forall_app. repeat split.
  - eapply Forall_impl; [apply decimal_digits|]. intros c Hc.
    unfold is_digit, is_line_terminator in *. lia.
  - by repeat constructor.
  - by apply point_tail_no_terminator.
Qed.

Lemma flow_free_line l prev :
  wf_line l = true →
  flow_free prev (render_line l) ∧ at_line_start (prev_after prev (render_line l)) = false.
Proof.
  intros Hl. pose proof (content_no_terminator_wf l Hl) as Hc.
  rewrite render_line_content. unfold indent. split.
  - split; [done|]. split; [done|]. apply flow_free_inside; [done|].
    do 3 (constructor; [done|]). done.
  - apply (prev_after_line_start (Some 32) ([32; 32; 32] ++ line_content l)); [done|].
    do 3 (constructor; [done|]). done.
Qed.

Lemma flow_free_lines ls : ∀ prev tail,
  Forall (fun l => wf_line l = true) ls → at_line_start prev = false →
  (∀ p, at_line_start p = false → flow_free p tail) →
  flow_free prev (render_lines ls ++ tail).
Proof.
  induction ls as [|l ls IH]; intros prev tail Hwf Hp Htail; [by apply Htail|].
  apply Forall_cons in Hwf as [Hl Hwf]. unfold render_lines in *.
  cbn [flat_map]. rewrite <- app_assoc.
  destruct (flow_free_line l prev Hl) as [H1 H2].
  apply flow_free_app; [done|]. by apply IH.
Qed.

Lemma flow_test_chart ls b :
  Forall (fun l => wf_line l = true) ls →
  test re_flow_header (render ls ++ sample_if b) = false.
Proof.
  intros Hwf. apply test_flow_free. unfold render. rewrite <- app_assoc.
  apply flow_free_app.
  - apply (flow_free_inside _ (Some 113)) || (split; [done|]).
    apply flow_free_inside; [done|by repeat constructor].
  - apply flow_free_lines; [done|done|].
    intros p Hp. destruct b; [done|]. unfold sample_if, sample_point.
    split; [done|]. split; [done|]. apply flow_free_inside; [done|by repeat constructor].
Qed.

Lemma final_no_cjk l :
  final_line l = true → Forall (fun c => is_cjk c = false) (render_line l).
Proof.
  intros [Hwf Hfin]%andb_prop. unfold render_line, indent.
  apply Forall_app. split; [by repeat constructor|].
  destruct l as [kw body|kw|name x y|n x y].
  - apply negb_true_iff, existsb_false_Forall in Hfin.
    apply Forall_app. split; [destruct kw; by repeat constructor|by constructor].
  - destruct kw; by repeat constructor.
  - simpl in Hwf. apply andb_prop in Hwf as [[_ Hx]%andb_prop Hy].
    apply negb_true_iff, existsb_false_Forall in Hfin.
    apply Forall_app. split; [done|]. do 3 (constructor; [done|]).
    by apply point_tail_no_cjk.
  - simpl in Hwf. apply andb_prop in Hwf as [Hx Hy].
    unfold req_name, req_prefix, req_suffix. cbn [List.skipn app].
    do 3 (constructor; [done|]). rewrite !Forall_app. repeat split.
    + eapply Forall_impl; [apply decimal_digits|]. intros c Hc.
      unfold is_digit, is_cjk in *. lia.
    + by repeat constructor.
    + by apply point_tail_no_cjk.
Qed.

Lemma chart_no_cjk ls b :
  Forall (fun l => final_line l = true) ls →
  Forall (fun c => is_cjk c = false) (render ls ++ sample_if b).
Proof.
  intros Hfin. unfold render. rewrite !Forall_app. repeat split.
  - by repeat constructor.
  - unfold render_lines. induction Hfin as [|l ls Hl _ IH]; [constructor|].
    cbn [flat_map]. apply Forall_app. split; [by apply final_no_cjk|done].
  - destruct b; by repeat constructor.
Qed.

(** The repair of a source chart. *)
Lemma repair_render ls :
  Forall (fun l => source_line l = true) ls →
  Mermaid.repair (render ls)
  = render (repaired ls) ++ sample_if (existsb is_point ls).
Proof.
  intros Hsrc.
  assert (Hwf : Forall (fun l => wf_line l = true) ls).
  { eapply Forall_impl; [exact Hsrc|]. intros l Hl. by apply unnumbered_wf, source_unnumbered. }
  destruct (repaired_final ls Hsrc) as [Hfin Hpt].
  assert (Hwf' : Forall (fun l => wf_line l = true) (repaired ls)).
  { eapply Forall_impl; [exact Hfin|]. apply final_wf. }
  unfold Mermaid.repair, fixDefinition.
  pose proof (trim_chart ls true Hwf) as Htrim. unfold sample_if in Htrim.
  rewrite app_nil_r in Htrim. rewrite Htrim.
  pose proof (includes_chart ls []) as Hinc. rewrite app_nil_r in Hinc.
  rewrite Hinc, fixQuadrant_render by done.
  fold (sample_if (existsb is_point ls)). by rewrite flow_test_chart.
Qed.

(** Repairing a repaired chart changes nothing. *)
Lemma repair_repaired ls b :
  Forall (fun l => final_line l = true) ls → b = existsb is_point ls →
  Mermaid.repair (render ls ++ sample_if b) = render ls ++ sample_if b.
Proof.
  intros Hfin Hb.
  assert (Hwf : Forall (fun l => wf_line l = true) ls).
  { eapply Forall_impl; [exact Hfin|]. apply final_wf. }
  pose proof (chart_no_cjk ls b Hfin) as Hcjk.
  unfold Mermaid.repair, fixDefinition.
  rewrite trim_chart, includes_chart by done.
  assert (Hfix : fixQuadrant (render ls ++ sample_if b) = render ls ++ sample_if b).
  { rewrite fixQuadrant_unfold.
    assert (Hrw : fixQuadrant_rewrites (render ls ++ sample_if b)
                  = render ls ++ sample_if b).
    { unfold fixQuadrant_rewrites. cbv zeta. rewrite colon_phases_id; [|done| |].
      - do 8 (rewrite (replace_requires is_cjk _ _ (render ls ++ sample_if b));
                [|apply Exists_cons_tl, Exists_cons_tl, Exists_cons_tl, Exists_cons_hd;
                  by intros ? ?
                 |done]).
        done.
      - destruct b; done.
      - intros kw0 w prev. destruct b; destruct kw0; reflexivity. }
    rewrite Hrw.
    assert (Ht : test re_data_point (render ls ++ sample_if b) = true).
    { destruct b.
      - by apply test_data_point_chart.
      - unfold sample_if, sample_point.
        change [10; 32; 32; 32; 32; 83; 97; 109; 112; 108; 101; 58; 32; 91; 48; 46;
                53; 44; 32; 48; 46; 53; 93]
          with ([10; 32; 32; 32; 32]
                ++ [83; 97; 109; 112; 108; 101; 58; 32; 91; 48; 46; 53; 44; 32; 48;
                    46; 53; 93]).
        rewrite app_assoc. apply test_from_app. by eexists. }
    by rewrite Ht. }
  by rewrite Hfix, flow_test_chart.
Qed.

End ChartWhole.

(** ** What a match reads, and what it leaves *)

Section MatchShape.
Import Regex.

Lemma lit_inv w k prev s r :
  lit w k prev s = Some r → ∃ s', s = w ++ s' ∧ k (prev_after prev w) s' = Some r.
Proof.
  revert prev s. induction w as [|c w IH]; intros prev s H; simpl in H.
  - by exists s.
  - destruct s as [|d s]; [done|]. destruct (Z.eqb_spec d c) as [->|]; [|done].
    apply IH in H as (s' & -> & H). by exists s'.
Qed.

Lemma star_greedy_inv p k s : ∀ prev r,
  star_greedy p k prev s = Some r →
  ∃ seg s', s = seg ++ s' ∧ k (prev_after prev seg) s' = Some r.
Proof.
  induction s as [|c s IH]; intros prev r H; simpl in H.
  - by exists [], [].
  - destruct (p c); [|by exists [], (c :: s)].
    destruct (star_greedy p k (Some c) s) as [r0|] eqn:Hs.
    + injection H as <-. apply IH in Hs as (seg & s' & -> & Hk).
      by exists (c :: seg), s'.
    + by exists [], (c :: s).
Qed.

Lemma star_lazy_inv p k s : ∀ prev r,
  star_lazy p k prev s = Some r →
  ∃ seg s', s = seg ++ s' ∧ k (prev_after prev seg) s' = Some r.
Proof.
  induction s as [|c s IH]; intros prev r H; simpl in H.
  - destruct (k prev []) eqn:Hk; [|done]. injection H as <-. by exists [], [].
  - destruct (k prev (c :: s)) eqn:Hk.
    + injection H as <-. by exists [], (c :: s).
    + destruct (p c); [|done]. apply IH in H as (seg & s' & -> & Hk').
      by exists (c :: seg), s'.
Qed.

Lemma alts_inv ws k prev s r :
  alts ws k prev s = Some r →
  ∃ seg s', s = seg ++ s' ∧ k (prev_after prev seg) s' = Some r.
Proof.
  induction ws as [|w ws IH]; simpl; [done|].
  destruct (lit w k prev s) as [r0|] eqn:Hl; [|done].
  intros [= <-]. apply lit_inv in Hl as (s' & -> & Hk). by exists w, s'.
Qed.

(** An atom reads a stretch of the text and hands the rest over. *)
Lemma atom_inv a r' prev s rest :
  match_here (a :: r') prev s = Some rest →
  ∃ seg s', s = seg ++ s' ∧ match_here r' (prev_after prev seg) s' = Some rest.
Proof.
  destruct a as [w|p|p|p|p| | |ws]; cbn [match_here].
  - intros (s' & -> & H)%lit_inv. by exists w, s'.
  - destruct s as [|c s]; [done|]. destruct (p c); [|done]. intros H.
    by exists [c], s.
  - apply star_greedy_inv.
  - destruct s as [|c s]; [done|]. destruct (p c); [|done].
    intros (seg & s' & -> & H)%star_greedy_inv. by exists (c :: seg), s'.
  - apply star_lazy_inv.
  - destruct (at_line_start prev); [|done]. intros H. by exists [], s.
  - destruct (at_word_boundary prev s); [|done]. intros H. by exists [], s.
  - apply alts_inv.
Qed.

(** A match of a pattern that ends with the literal [b] ends with [b]. *)
Lemma match_ends_with b r : ∀ prev s rest,
  match_here (r ++ [Lit [b]]) prev s = Some rest → ∃ m, s = m ++ b :: rest.
Proof.
  induction r as [|a r IH]; intros prev s rest H.
  - cbn in H. destruct s as [|d s]; [done|].
    destruct (Z.eqb_spec d b) as [->|]; [|done]. injection H as <-. by exists [].
  - rewrite <- app_comm_cons in H. apply atom_inv in H as (seg & s' & -> & H).
    apply IH in H as (m & ->). exists (seg ++ m). by rewrite <- app_assoc.
Qed.

End MatchShape.

(** ** Text after the last place where a pattern can end *)

Section Tail.
Import Regex.
Variable b : Z.
Variable tail : list Z.
Hypothesis Htail : Forall (fun c => (c =? b) = false) tail.

Lemma tail_nil k prev : tail_ok tail k → tail_none b k → k prev [] = None.
Proof.
  intros Hok Hnone. specialize (Hok prev []). rewrite app_nil_l, Hnone in Hok by done.
  by destruct (k prev []).
Qed.

Lemma lit_tail w k : tail_ok tail k → tail_none b k → tail_ok tail (lit w k).
Proof.
  intros Hok Hnone. induction w as [|c w IH]; intros prev x; [apply Hok|].
  destruct x as [|d x].
  - rewrite app_nil_l. rewrite (lit_none_closed (fun c => c =? b)) by done. done.
  - simpl. destruct (d =? c); [apply IH|done].
Qed.

Lemma star_greedy_tail p k : tail_ok tail k → tail_none b k → tail_ok tail (star_greedy p k).
Proof.
  intros Hok Hnone prev x. revert prev. induction x as [|d x IH]; intros prev.
  - rewrite app_nil_l. rewrite (star_greedy_none_closed (fun c => c =? b)) by done.
    simpl. by rewrite tail_nil.
  - pose proof (Hok prev (d :: x)) as Hk. simpl in *. destruct (p d); [|done].
    rewrite IH. by destruct (star_greedy p k (Some d) x).
Qed.

Lemma star_lazy_tail p k : tail_ok tail k → tail_none b k → tail_ok tail (star_lazy p k).
Proof.
  intros Hok Hnone prev x. revert prev. induction x as [|d x IH]; intros prev.
  - rewrite app_nil_l. rewrite (star_lazy_none_closed (fun c => c =? b)) by done.
    simpl. by rewrite tail_nil.
  - pose proof (Hok prev (d :: x)) as Hk. simpl in *. rewrite Hk.
    destruct (k prev (d :: x)); [done|]. simpl. destruct (p d); [apply IH|done].
Qed.

Lemma alts_tail ws k : tail_ok tail k → tail_none b k → tail_ok tail (alts ws k).
Proof.
  intros Hok Hnone prev x. induction ws as [|w ws IH]; [done|]. simpl.
  rewrite (lit_tail w k Hok Hnone). destruct (lit w k prev x); [done|apply IH].
Qed.

Lemma ends_with_none r : tail_none b (match_here (r ++ [Lit [b]])).
Proof.
  intros prev t Ht. apply (match_here_requires (fun c => c =? b)); [|done].
  apply Exists_app. right. apply Exists_cons_hd. simpl. apply Exists_cons_hd.
  apply Z.eqb_refl.
Qed.

(** A pattern that ends with [b] matches in a text as it does when the
    text goes on with code units other than [b]. *)
Lemma match_here_tail r : tail_ok tail (match_here (r ++ [Lit [b]])).
Proof.
  induction r as [|a r IH]; intros prev x.
  - destruct x as [|d x].
    + pose proof (ends_with_none [] prev tail Htail) as H1.
      pose proof (ends_with_none [] prev [] ltac:(done)) as H2.
      cbn [app] in *. by rewrite H1, H2.
    + cbn. by destruct (d =? b).
  - pose proof (ends_with_none r) as Hnone.
    destruct x as [|d x].
    { pose proof (ends_with_none (a :: r) prev tail Htail) as H1.
      pose proof (ends_with_none (a :: r) prev [] ltac:(done)) as H2.
      cbn [app] in *. by rewrite H1, H2. }
    rewrite <- !app_comm_cons.
    destruct a as [w|p|p|p|p| | |ws]; cbn [match_here].
    + by apply (lit_tail w _ IH Hnone prev (d :: x)).
    + destruct (p d); [apply IH|done].
    + by apply (star_greedy_tail p _ IH Hnone prev (d :: x)).
    + destruct (p d); [by apply star_greedy_tail|done].
    + by apply (star_lazy_tail p _ IH Hnone prev (d :: x)).
    + destruct (at_line_start prev); [apply (IH prev (d :: x))|done].
    + replace (at_word_boundary prev (d :: x ++ tail))
        with (at_word_boundary prev (d :: x)) by done.
      destruct (at_word_boundary prev (d :: x)); [apply (IH prev (d :: x))|done].
    + by apply (alts_tail ws _ IH Hnone prev (d :: x)).
Qed.

(** So does the replacement. *)
Lemma replace_go_tail r f x : ∀ n skip prev,
  (skip <= length x)%nat →
  replace_go (r ++ [Lit [b]]) f n skip prev (x ++ tail)
  = replace_go (r ++ [Lit [b]]) f n skip prev x ++ tail.
Proof.
  pose proof (ends_with_none r) as Hnone. pose proof (match_here_tail r) as Hok.
  induction x as [|c x IH]; intros n skip prev Hskip.
  - simpl in Hskip. replace skip with 0%nat by lia. rewrite app_nil_l.
    rewrite replace_go_id.
    + simpl. by rewrite (tail_nil _ prev Hok Hnone).
    + intros i prev'. apply Hnone. by apply Forall_drop.
  - destruct skip as [|skip]; [|simpl in *; apply IH; lia].
    rewrite <- app_comm_cons. cbn [replace_go]. unfold match_length.
    pose proof (Hok prev (c :: x)) as Hm. rewrite <- app_comm_cons in Hm. rewrite Hm.
    destruct (match_here (r ++ [Lit [b]]) prev (c :: x)) as [rest|] eqn:Hmx;
      cbn [fmap option_fmap option_map].
    + apply match_ends_with in Hmx as (m & Hshape).
      apply (f_equal length) in Hshape.
      rewrite length_app, !length_cons in Hshape.
      rewrite length_cons, !length_app, length_cons.
      replace (S (length x + length tail) - (length rest + length tail))%nat
        with (S (length m)) by lia.
      replace (S (length x) - length rest)%nat with (S (length m)) by lia.
      rewrite <- app_assoc. f_equal. apply IH. lia.
    + rewrite <- app_comm_cons. f_equal. apply IH. lia.
Qed.

Lemma replace_tail r f x :
  replace (r ++ [Lit [b]]) f (x ++ tail) = replace (r ++ [Lit [b]]) f x ++ tail.
Proof. apply replace_go_tail. lia. Qed.

End Tail.

(** ** Renaming the ids of a flow chart does not make a closing *)

Section EndCount.
Import Regex Mermaid.

Lemma count_zero_test r s : ∀ prev,
  count_go r 0 prev s = 0%nat ↔ test_from r prev s = false.
Proof.
  induction s as [|c s IH]; intros prev; simpl.
  - by destruct (match_here r prev []).
  - unfold match_length. destruct (match_here r prev (c :: s)) as [rest|]; [|apply IH].
    by destruct (length (c :: s) - length rest)%nat.
Qed.

Lemma test_from_suffix r a : ∀ prev rest,
  test_from r prev (a ++ rest) = false → test_from r (prev_after prev a) rest = false.
Proof.
  induction a as [|c a IH]; intros prev rest H; [done|]. simpl in H.
  destruct (match_here r prev (c :: a ++ rest)); [done|]. by apply IH.
Qed.

(** Where [\bend\b] matches. *)
Lemma end_match_iff prev t r :
  match_here re_end prev t = Some r
  ↔ at_word_boundary prev t = true ∧ t = 101 :: 110 :: 100 :: r
    ∧ at_word_boundary (Some 100) r = true.
Proof.
  unfold re_end, kw_end. cbn [match_here]. split.
  - destruct (at_word_boundary prev t); [|done].
    intros (s' & -> & H)%lit_inv. cbn [prev_after foldl] in H.
    change (prev_after prev [101; 110; 100]) with (Some 100) in H.
    destruct (at_word_boundary (Some 100) s') eqn:Hb; [|done].
    injection H as <-. done.
  - intros (Hb1 & -> & Hb2). rewrite Hb1.
    change (101 :: 110 :: 100 :: r) with ([101; 110; 100] ++ r).
    rewrite lit_app. cbn [match_here].
    change (prev_after prev [101; 110; 100]) with (Some 100). by rewrite Hb2.
Qed.

Lemma end_needs_e prev c s : c ≠ 101 → match_here re_end prev (c :: s) = None.
Proof.
  intros Hc. destruct (match_here re_end prev (c :: s)) as [r|] eqn:H; [|done].
  apply end_match_iff in H as (_ & [= ->] & _). done.
Qed.

Lemma test_end_skip w : ∀ prev rest,
  Forall (fun c => c ≠ 101) w →
  test_from re_end prev (w ++ rest) = test_from re_end (prev_after prev w) rest.
Proof.
  induction w as [|c w IH]; intros prev rest Hw; [done|].
  apply Forall_cons in Hw as [Hc Hw].
  rewrite <- app_comm_cons. cbn [test_from]. rewrite end_needs_e by done. by apply IH.
Qed.

Section Relabel.
Variable P : regex.
Variable f : nat → list Z.
Hypothesis P_ends : ∀ prev s rest,
  match_here P prev s = Some rest → ∃ m, s = m ++ 91 :: rest.
Hypothesis f_shape : ∀ n, ∃ h w,
  f n = h :: w ++ [91] ∧ h ≠ 101 ∧ h ≠ 110 ∧ h ≠ 100 ∧ Forall (fun c => c ≠ 101) w.
Hypothesis f_word : ∀ prev c s rest n h w,
  match_here P prev (c :: s) = Some rest → f n = h :: w → is_word c = is_word h.

Lemma P_nil prev : match_here P prev [] = None.
Proof.
  destruct (match_here P prev []) as [rest|] eqn:H; [|done].
  apply P_ends in H as (m & H). by destruct m.
Qed.

(** A match is the stretch up to its bracket. *)
Lemma P_shape prev c s rest :
  match_here P prev (c :: s) = Some rest →
  ∃ m, s = m ++ rest ∧ prev_after prev (c :: m) = Some 91.
Proof.
  intros (m & H)%P_ends. destruct m as [|c' m].
  - injection H as -> ->. by exists [].
  - injection H as -> ->. exists (m ++ [91]). split; [by rewrite <- app_assoc|].
    change (prev_after prev (c' :: m ++ [91])) with (prev_after (Some c') (m ++ [91])).
    by rewrite prev_after_app.
Qed.

Lemma replace_head x n p s t :
  replace_go P f n 0 p s = x :: t → x = 110 ∨ x = 100 →
  ∃ s', s = x :: s' ∧ t = replace_go P f n 0 (Some x) s'.
Proof.
  intros H Hx. destruct s as [|c s].
  - simpl in H. by rewrite P_nil in H.
  - destruct (match_here P p (c :: s)) as [rest|] eqn:Hm.
    + destruct (P_shape _ _ _ _ Hm) as (m & -> & _).
      rewrite replace_go_hit in H by done.
      destruct (f_shape n) as (h & w & Hf & _ & Hn & Hd & _). rewrite Hf in H.
      injection H as -> _. lia.
    + rewrite replace_go_miss in H by done. injection H as -> <-. by exists s.
Qed.

Lemma replace_head_word n p s :
  word_opt (head (replace_go P f n 0 p s)) = word_opt (head s).
Proof.
  destruct s as [|c s].
  - simpl. by rewrite P_nil.
  - destruct (match_here P p (c :: s)) as [rest|] eqn:Hm.
    + destruct (P_shape _ _ _ _ Hm) as (m & Hs & _).
      destruct (f_shape n) as (h & w & Hf & _).
      pose proof (f_word _ _ _ _ n h _ Hm Hf) as Hw. subst s.
      rewrite replace_go_hit, Hf by done. simpl. by rewrite Hw.
    + by rewrite replace_go_miss.
Qed.

Lemma relabel_no_end_aux len : ∀ s n prev,
  (length s <= len)%nat →
  test_from re_end prev s = false →
  test_from re_end prev (replace_go P f n 0 prev s) = false.
Proof.
  assert (Hnil : ∀ n prev, test_from re_end prev [] = false →
            test_from re_end prev (replace_go P f n 0 prev []) = false).
  { intros n prev H. simpl replace_go. by rewrite P_nil. }
  induction len as [|len IH]; intros s n prev Hlen Ht.
  { destruct s; [by apply Hnil|simpl in Hlen; lia]. }
  destruct s as [|c s]; [by apply Hnil|]. simpl in Hlen.
  destruct (match_here P prev (c :: s)) as [rest|] eqn:Hm.
  - destruct (P_shape _ _ _ _ Hm) as (m & -> & Hprev).
    rewrite replace_go_hit, Hprev by done.
    destruct (f_shape n) as (h & w & Hf & He & _ & _ & Hw). rewrite Hf.
    change (h :: w ++ [91]) with ((h :: w) ++ [91]). rewrite <- app_assoc.
    rewrite test_end_skip by (by constructor).
    change ([91] ++ ?x) with (91 :: x). cbn [test_from].
    rewrite end_needs_e by done.
    apply IH; [rewrite length_app in Hlen; lia|].
    apply (test_from_suffix re_end (c :: m)) in Ht. by rewrite Hprev in Ht.
  - rewrite replace_go_miss by done. cbn [test_from] in *.
    destruct (match_here re_end prev (c :: s)) as [?|] eqn:He; [done|].
    destruct (match_here re_end prev (c :: replace_go P f n 0 (Some c) s))
      as [ro|] eqn:Ho; [|apply IH; [lia|done]].
    exfalso. apply end_match_iff in Ho as (Hb & Heq & Hb2).
    injection Heq as -> Ho.
    apply replace_head in Ho as (s1 & -> & Ho); [|by left].
    symmetry in Ho. apply replace_head in Ho as (s2 & -> & ->); [|by right].
    assert (Hsome : match_here re_end prev (101 :: 110 :: 100 :: s2) = Some s2).
    { apply end_match_iff. split; [exact Hb|]. split; [done|].
      unfold at_word_boundary in *. by rewrite replace_head_word in Hb2. }
    by rewrite Hsome in He.
Qed.

Lemma relabel_no_end s :
  test re_end s = false → test re_end (replace P f s) = false.
Proof. apply (relabel_no_end_aux (length s)). lia. Qed.

End Relabel.

Lemma decimal_no_e n : Forall (fun c => c ≠ 101) (decimal n).
Proof.
  eapply Forall_impl; [apply decimal_digits|]. intros c Hc.
  unfold is_digit in Hc. lia.
Qed.

Lemma subgraph_no_end s :
  test re_end s = false → test re_end (replace re_cjk_subgraph sg_name s) = false.
Proof.
  apply relabel_no_end.
  - intros prev t rest.
    apply (match_ends_with 91
             [Lit kw_subgraph; Plus Js.is_space; Cls is_cjk; Star not_bracket_quote_nl]).
  - intros n. exists 115, ([117; 98; 103; 114; 97; 112; 104; 32; 83; 71] ++ decimal (S n)).
    split; [reflexivity|]. repeat split; try lia.
    apply Forall_app. split; [repeat constructor; lia|apply decimal_no_e].
  - intros prev c t rest n h w Hm Hf. unfold sg_name, sg_prefix in Hf.
    injection Hf as <- _. unfold re_cjk_subgraph, kw_subgraph in Hm.
    cbn [match_here lit] in Hm. by destruct (Z.eqb_spec c 115) as [->|].
Qed.

Lemma node_no_end s :
  test re_end s = false → test re_end (replace re_cjk_node node_name s) = false.
Proof.
  apply relabel_no_end.
  - intros prev t rest.
    apply (match_ends_with 91 [Bol; Star Js.is_space; Plus is_cjk]).
  - intros n. exists 32, ([32; 32; 32; 78] ++ decimal (S n)).
    split; [reflexivity|]. repeat split; try lia.
    apply Forall_app. split; [repeat constructor; lia|apply decimal_no_e].
  - intros prev c t rest n h w Hm Hf. unfold node_name, node_prefix in Hf.
    injection Hf as <- _. unfold re_cjk_node in Hm. cbn [match_here] in Hm.
    destruct (at_line_start prev); [|done]. cbn [star_greedy] in Hm.
    assert (Hc : Js.is_space c = true ∨ is_cjk c = true).
    { destruct (Js.is_space c); [by left|]. right. by destruct (is_cjk c). }
    unfold Js.is_space, is_cjk, is_word, is_digit in *. lia.
Qed.

Lemma end_lines_no_bracket j :
  Forall (fun c => (c =? 91) = false) (mjoin (replicate j end_line)).
Proof.
  induction j as [|j IH]; [constructor|]. simpl. by repeat (constructor; [done|]).
Qed.

(** The flow fix: the ids are renamed in the source, and the [end]
    lines follow. *)
Lemma fixFlow_appends d :
  fixFlow d
  = replace re_cjk_node node_name (replace re_cjk_subgraph sg_name d)
    ++ mjoin (replicate (count re_subgraph d - count re_end d) end_line).
Proof.
  unfold fixFlow. cbv zeta.
  set (j := (count re_subgraph d - count re_end d)%nat).
  assert (Hclosed : (if (count re_end d <? count re_subgraph d)%nat
                     then append_ends j d else d)
                    = d ++ mjoin (replicate j end_line)).
  { destruct (Nat.ltb_spec (count re_end d) (count re_subgraph d)).
    - apply append_ends_concat.
    - replace j with 0%nat by (unfold j; lia). by rewrite app_nil_r. }
  rewrite Hclosed.
  pose proof (replace_tail 91 _ (end_lines_no_bracket j)
                [Lit kw_subgraph; Plus Js.is_space; Cls is_cjk; Star not_bracket_quote_nl]
                sg_name d) as H1.
  pose proof (replace_tail 91 _ (end_lines_no_bracket j)
                [Bol; Star Js.is_space; Plus is_cjk] node_name
                (replace re_cjk_subgraph sg_name d)) as H2.
  cbn [app] in H1, H2. unfold re_cjk_subgraph, re_cjk_node in *.
  by rewrite H1, H2.
Qed.

End EndCount.

(** ** The repair of diagrams: the claims *)

Section RepairClaims.
Import Regex Mermaid Chart.



Lemma forallb_Forall_lines (p : line → bool) ls :
  forallb p ls = true → Forall (fun l => p l = true) ls.
Proof.
  rewrite forallb_forall, Forall_forall. intros H l Hl. by apply H, list_elem_of_In.
Qed.















(** The closings of a text followed by [j] appended [end] lines. *)
Lemma count_end_lines j d :
  count re_end (d ++ mjoin (replicate j end_line)) = (count re_end d + j)%nat.
Proof. rewrite <- append_ends_concat. apply count_end_append_ends. Qed.

(** Renaming the ids leaves a text without closing without closing. *)
Lemma renamed_no_end d :
  count re_end d = 0%nat →
  count re_end (replace re_cjk_node node_name (replace re_cjk_subgraph sg_name d))
  = 0%nat.
Proof.
  unfold count. rewrite !count_zero_test. intros Ht.
  by apply node_no_end, subgraph_no_end.
Qed.

(** C9. In a flow chart, with [opens] the number of [subgraph] openings
    and [closes] the number of [end] closings of the source: the repaired
    text is the source with its ideograph ids renamed, followed by one
    [end] line for each opening that has no closing; its closings are
    those of the renamed source and the appended ones; nothing is
    appended when the openings do not exceed the closings; a source
    without closing is repaired to a text with as many closings as it has
    openings, exactly two for two openings. *)
Theorem fixFlow_closes_subgraphs (d : list Z) :
  test re_flow_header d = true →
  let opens := count re_subgraph d in
  let closes := count re_end d in
  let renamed :=
    replace re_cjk_node node_name (replace re_cjk_subgraph sg_name d) in
  fixFlow d = renamed ++ mjoin (replicate (opens - closes) end_line)
  ∧ count re_end (fixFlow d) = (count re_end renamed + (opens - closes))%nat
  ∧ ((opens <= closes)%nat → fixFlow d = renamed)
  ∧ (closes = 0%nat → count re_end (fixFlow d) = opens)
  ∧ (opens = 2%nat → closes = 0%nat →
     fixFlow d = renamed ++ end_line ++ end_line
     ∧ count re_end (fixFlow d) = 2%nat)
  ∧ (includes quadrantChart d = false → fixDefinition d = fixFlow d).
Proof.
  intros Hflow opens closes renamed.
  pose proof (fixFlow_appends d) as Hfix. fold opens closes renamed in Hfix.
  assert (Hcount : count re_end (fixFlow d)
                   = (count re_end renamed + (opens - closes))%nat).
  { rewrite Hfix. apply count_end_lines. }
  assert (Hzero : closes = 0%nat → count re_end (fixFlow d) = opens).
  { intros H0. rewrite Hcount. unfold renamed. rewrite renamed_no_end by done.
    rewrite H0. lia. }
  split; [done|]. split; [done|]. split.
  { intros Hle. rewrite Hfix. replace (opens - closes)%nat with 0%nat by lia.
    apply app_nil_r. }
  split; [done|]. split.
  - intros H2 H0. split.
    + rewrite Hfix, H2, H0. reflexivity.
    + rewrite Hzero by done. done.
  - intros Hq. unfold fixDefinition. by rewrite Hq, Hflow.
Qed.

Lemma fixFlow_closes_subgraphs_witness :
  fixFlow flow_two_open = flow_two_open_repaired
  ∧ count re_end (fixFlow flow_two_open) = 2%nat.
Proof.
  assert (Ht : test re_flow_header flow_two_open = true) by (vm_compute; reflexivity).
  destruct (fixFlow_closes_subgraphs flow_two_open Ht) as (_ & _ & _ & _ & H & _).
  destruct H as [H1 H2]; [vm_compute; reflexivity|vm_compute; reflexivity|].
  split; [rewrite H1; vm_compute; reflexivity|exact H2].
Defined.

End RepairClaims.


(** ** The repair of diagrams: further properties *)

Section RepairMore.
Import Regex Mermaid Chart.

(** X1. On a quadrant chart in plain form (the header [quadrantChart],
    then lines of a line break and four spaces each: statements of
    [title], [x-axis], [y-axis], [quadrant-1] to [quadrant-4] with a
    non-empty text of ideographs, capitals, digits, spaces, [-] and [>]
    that begins and ends with an ideograph, capital or digit, and points
    [name: [x, y]] with a non-empty name of ideographs, capitals and
    digits and non-empty coordinates of digits and dots), repairing the
    repaired text changes nothing. Other quadrant charts are not covered;
    on some of them the repair is not idempotent, as the next property
    shows. *)
Theorem repair_idempotent_on_charts (ls : list line) :
  forallb source_line ls = true →
  Mermaid.repair (Mermaid.repair (render ls)) = Mermaid.repair (render ls).
Proof.
  intros Hsrc%forallb_Forall_lines.
  rewrite repair_render by done.
  destruct (repaired_final ls Hsrc) as [Hfin Hpt].
  apply repair_repaired; [done|]. by rewrite Hpt.
Qed.

Lemma repair_idempotent_on_charts_witness :
  Mermaid.repair (Mermaid.repair (render mixed_chart))
  = Mermaid.repair (render mixed_chart).
Proof. apply (repair_idempotent_on_charts mixed_chart). reflexivity. Defined.

(** X2. The repair is not idempotent on every quadrant chart: a chart that
    ends with a quadrant statement without a label gets the default point
    appended, and the next repair takes that point for the label of the
    statement. *)
Theorem repair_not_idempotent :
  ∃ s, includes quadrantChart s = true
       ∧ Mermaid.repair (Mermaid.repair s) ≠ Mermaid.repair s.
Proof.
  exists quadrant_unlabelled. split; [by vm_compute|]. vm_compute. discriminate.
Qed.

Lemma number_points_shape ls : ∀ n,
  length (number_points n ls) = length ls
  ∧ List.map coordinates (number_points n ls) = List.map coordinates ls
  ∧ List.map keyword_of (number_points n ls) = List.map keyword_of ls.
Proof.
  induction ls as [|l ls IH]; intros n; [done|].
  destruct l as [kw body|kw|name x y|m x y]; simpl;
    try (destruct (IH n) as (-> & -> & ->); done).
  destruct (has_cjk name); simpl.
  - by destruct (IH (S n)) as (-> & -> & ->).
  - by destruct (IH n) as (-> & -> & ->).
Qed.

Lemma fix_stmt_shape ls :
  List.map coordinates (List.map fix_stmt ls) = List.map coordinates ls
  ∧ List.map keyword_of (List.map fix_stmt ls) = List.map keyword_of ls.
Proof.
  induction ls as [|l ls [IH1 IH2]]; [done|]. simpl. rewrite IH1, IH2.
  destruct l as [kw body| | |]; try done. simpl. by destruct (has_cjk body).
Qed.

Lemma number_points_indices ls : ∀ n,
  Forall (fun l => req_index l = None) ls →
  omap req_index (number_points n ls)
  = seq n (length (List.filter cjk_point ls)).
Proof.
  induction ls as [|l ls IH]; intros n Hls; [done|].
  apply Forall_cons in Hls as [Hl Hls].
  destruct l as [kw body|kw|name x y|m x y]; try done; simpl;
    try (by apply IH).
  destruct (has_cjk name); simpl; [|by apply IH]. f_equal. by apply IH.
Qed.

(** X3. The repair of a quadrant chart in plain form (statements with a
    non-empty text of ideographs, capitals, digits, spaces, [-] and [>]
    that begins and ends with an ideograph, capital or digit; points with
    a non-empty name of ideographs, capitals and digits and non-empty
    coordinates of digits and dots; each on a line of its own after a line
    break and four spaces) keeps the number and the order of its lines, the
    keyword of every statement and the coordinates of every point, and the
    points it renames, those whose name has an ideograph, are numbered 1,
    2, ... in their order, without a gap. Other quadrant charts are not
    covered. *)
Theorem repair_keeps_lines (ls : list line) :
  forallb source_line ls = true →
  ∃ out,
    Mermaid.repair (render ls) = render out ++ sample_if (existsb is_point ls)
    ∧ length out = length ls
    ∧ List.map keyword_of out = List.map keyword_of ls
    ∧ List.map coordinates out = List.map coordinates ls
    ∧ omap req_index out = seq 0 (length (List.filter cjk_point ls)).
Proof.
  intros Hsrc%forallb_Forall_lines. exists (repaired ls).
  split; [by apply repair_render|]. unfold repaired.
  destruct (number_points_shape (List.map fix_stmt ls) 0) as (Hlen & Hco & Hkw).
  destruct (fix_stmt_shape ls) as [Hco' Hkw'].
  rewrite Hlen, Hco, Hkw, Hco', Hkw', length_map. repeat split.
  rewrite number_points_indices.
  - f_equal. f_equal. clear. induction ls as [|l ls IH]; [done|].
    destruct l as [kw body| |name x y|]; simpl; rewrite ?IH; try done.
    destruct (has_cjk body); simpl; by rewrite ?IH.
  - apply Forall_fmap. eapply Forall_impl; [exact Hsrc|].
    intros [kw body| | |]; simpl; try done. by destruct (has_cjk body).
Qed.

Lemma repair_keeps_lines_witness :
  ∃ out,
    Mermaid.repair (render mixed_chart)
    = render out ++ sample_if (existsb is_point mixed_chart)
    ∧ length out = length mixed_chart
    ∧ List.map keyword_of out = List.map keyword_of mixed_chart
    ∧ List.map coordinates out = List.map coordinates mixed_chart
    ∧ omap req_index out = seq 0 (length (List.filter cjk_point mixed_chart)).
Proof. apply (repair_keeps_lines mixed_chart). reflexivity. Defined.

Lemma end_lines_no_cjk j :
  Forall (fun c => is_cjk c = false) (mjoin (replicate j end_line)).
Proof.
  induction j as [|j IH]; [constructor|]. simpl. by repeat (constructor; [done|]).
Qed.

Lemma fixDefinition_plain (d : list Z) :
  Forall (fun c => is_cjk c = false) d →
  includes quadrantChart d = false →
  fixDefinition d
  = if test re_flow_header d
    then d ++ mjoin (replicate (count re_subgraph d - count re_end d) end_line)
    else d.
Proof.
  intros Hd Hq. unfold fixDefinition. rewrite Hq.
  destruct (test re_flow_header d); [|done].
  unfold fixFlow. cbv zeta.
  set (j := (count re_subgraph d - count re_end d)%nat).
  assert (Hclosed : (if (count re_end d <? count re_subgraph d)%nat
                     then append_ends j d else d)
                    = d ++ mjoin (replicate j end_line)).
  { destruct (Nat.ltb_spec (count re_end d) (count re_subgraph d)).
    - apply append_ends_concat.
    - replace j with 0%nat by (unfold j; lia). by rewrite app_nil_r. }
  rewrite Hclosed.
  assert (Hall : Forall (fun c => is_cjk c = false) (d ++ mjoin (replicate j end_line))).
  { apply Forall_app. split; [done|apply end_lines_no_cjk]. }
  rewrite (replace_requires is_cjk re_cjk_subgraph) by
    (try done; apply Exists_cons_tl, Exists_cons_tl, Exists_cons_hd; by intros ? ?).
  rewrite (replace_requires is_cjk re_cjk_node) by
    (try done; apply Exists_cons_tl, Exists_cons_tl, Exists_cons_hd; by intros ? ?).
  done.
Qed.

(** X4. A diagram without ideographs that is not a quadrant chart is
    changed only if it is a flow chart, and then only by the [end] lines
    appended for the openings that are not closed. *)
Theorem fixDefinition_without_ideographs (d : list Z) :
  Forall (fun c => is_cjk c = false) d →
  includes quadrantChart d = false →
  fixDefinition d
  = if test re_flow_header d
    then d ++ mjoin (replicate (count re_subgraph d - count re_end d) end_line)
    else d.
Proof. apply fixDefinition_plain. Qed.

Lemma fixDefinition_without_ideographs_witness :
  fixDefinition flow_latin = flow_latin ++ end_line.
Proof.
  rewrite (fixDefinition_without_ideographs flow_latin).
  - vm_compute. reflexivity.
  - unfold flow_latin. repeat (constructor; [reflexivity|]). constructor.
  - vm_compute. reflexivity.
Defined.

End RepairMore.

(** ** The answer controls: further properties *)

Section SelectionMore.

Lemma indexOf_from_notin (l : list (list Z)) (x : list Z) : ∀ i,
  x ∉ l → Js.indexOf_from i l x = -1.
Proof.
  induction l as [|y l IH]; intros i Hx; simpl; [done|].
  apply not_elem_of_cons in Hx as [Hne Hx].
  destruct (decide (y = x)); [congruence|]. by apply IH.
Qed.

Lemma indexOf_from_first (l1 l2 : list (list Z)) (x : list Z) : ∀ i,
  x ∉ l1 → Js.indexOf_from i (l1 ++ x :: l2) x = i + Z.of_nat (length l1).
Proof.
  induction l1 as [|y l1 IH]; intros i Hx; simpl.
  - destruct (decide (x = x)); [lia|done].
  - apply not_elem_of_cons in Hx as [Hne Hx].
    destruct (decide (y = x)); [congruence|]. rewrite IH by done. lia.
Qed.

Lemma splice1_middle {A} (l1 l2 : list A) (x : A) :
  splice1 (length l1) (l1 ++ x :: l2) = l1 ++ l2.
Proof.
  unfold splice1. induction l1 as [|y l1 IH]; simpl; [by rewrite drop_0|].
  by rewrite IH.
Qed.

(** What [toggleOption] does to the selection in multi-select mode. *)
Lemma toggleOption_multi_absent st o :
  multiSelect (currentQuestion st) = true → o ∉ selectedAnswers st →
  toggleOption o st = set_selectedAnswers (selectedAnswers st ++ [o]) st.
Proof.
  intros Hm Ho. unfold toggleOption, Js.indexOf.
  rewrite Hm, indexOf_from_notin by done. reflexivity.
Qed.

Lemma toggleOption_multi_present st o l1 l2 :
  multiSelect (currentQuestion st) = true →
  selectedAnswers st = l1 ++ o :: l2 → o ∉ l1 →
  toggleOption o st = set_selectedAnswers (l1 ++ l2) st.
Proof.
  intros Hm Hsel Ho. unfold toggleOption, Js.indexOf.
  rewrite Hm, Hsel, indexOf_from_first by done.
  destruct (Z.ltb_spec (-1) (0 + Z.of_nat (length l1))); [|lia].
  by rewrite Z.add_0_l, Nat2Z.id, splice1_middle.
Qed.

(** X5. In multi-select mode, choosing an option that is not selected and
    choosing it again gives back the state as it was. *)
Theorem toggleOption_twice (st : State) (o : list Z) :
  multiSelect (currentQuestion st) = true →
  o ∉ selectedAnswers st →
  toggleOption o (toggleOption o st) = st.
Proof.
  intros Hm Ho. rewrite (toggleOption_multi_absent st o Hm Ho).
  rewrite (toggleOption_multi_present _ o (selectedAnswers st) []);
    [|by destruct st|by destruct st|done].
  rewrite app_nil_r. by destruct st.
Qed.

Lemma toggleOption_twice_witness :
  toggleOption (Js.u "B")
    (toggleOption (Js.u "B")
       (state_of (session_of 0 0 0 0) "customer_needs" (question_of true)
          [Js.u "A"] false []))
  = state_of (session_of 0 0 0 0) "customer_needs" (question_of true)
      [Js.u "A"] false [].
Proof.
  apply toggleOption_twice; [reflexivity|].
  apply (bool_decide_unpack _). vm_compute. exact I.
Defined.

(** X6. In multi-select mode, as long as no option is selected twice,
    [toggleOption] flips whether its option is selected, leaves every
    other option and the custom answer as they are, and no option gets
    selected twice. *)
Theorem toggleOption_multi_flips (st : State) (o : list Z) :
  multiSelect (currentQuestion st) = true →
  NoDup (selectedAnswers st) →
  NoDup (selectedAnswers (toggleOption o st))
  ∧ isOptionSelected o (toggleOption o st) = negb (isOptionSelected o st)
  ∧ (∀ o', o' ≠ o →
       isOptionSelected o' (toggleOption o st) = isOptionSelected o' st)
  ∧ otherSelected (toggleOption o st) = otherSelected st
  ∧ otherAnswerText (toggleOption o st) = otherAnswerText st.
Proof.
  intros Hm Hnd. unfold isOptionSelected.
  destruct (decide (o ∈ selectedAnswers st)) as [Hin|Hout].
  - destruct (list_elem_of_split_l _ _ Hin) as (l1 & l2 & Hsel & Ho1).
    rewrite (toggleOption_multi_present st o l1 l2 Hm Hsel Ho1).
    rewrite Hsel in Hnd |- *. 
    apply NoDup_app in Hnd as (Hnd1 & Hdisj & [Ho2 Hnd2]%NoDup_cons).
    assert (Hsel' : ∀ v, selectedAnswers (set_selectedAnswers v st) = v) by done.
    rewrite !Hsel'. repeat split.
    + apply NoDup_app. repeat split; [done| |done].
      intros x Hx Hx2. apply (Hdisj x Hx). by right.
    + rewrite bool_decide_eq_false_2, bool_decide_eq_true_2; [done| |].
      * apply elem_of_app. right. by left.
      * intros [?|?]%elem_of_app; done.
    + intros o' Hne. apply bool_decide_ext.
      rewrite !elem_of_app, elem_of_cons. tauto.
  - rewrite (toggleOption_multi_absent st o Hm Hout).
    assert (Hsel' : ∀ v, selectedAnswers (set_selectedAnswers v st) = v) by done.
    rewrite !Hsel'. repeat split.
    + apply NoDup_app. repeat split; [done| |apply NoDup_singleton].
      intros x Hx ->%list_elem_of_singleton. done.
    + rewrite bool_decide_eq_true_2, bool_decide_eq_false_2; [done|done|].
      apply elem_of_app. right. by left.
    + intros o' Hne. apply bool_decide_ext.
      rewrite elem_of_app, list_elem_of_singleton. tauto.
Qed.

Lemma toggleOption_multi_flips_witness :
  isOptionSelected (Js.u "A")
    (toggleOption (Js.u "A")
       (state_of (session_of 0 0 0 0) "customer_needs" (question_of true)
          [Js.u "A"; Js.u "B"] false []))
  = negb (isOptionSelected (Js.u "A")
            (state_of (session_of 0 0 0 0) "customer_needs" (question_of true)
               [Js.u "A"; Js.u "B"] false [])).
Proof.
  apply toggleOption_multi_flips; [reflexivity|].
  apply (bool_decide_unpack _). vm_compute. exact I.
Defined.

(** X7. In multi-select mode, two clicks on the other option leave it
    selected or not as it was, and leave the selected options alone, but
    the custom text is lost. *)
Theorem toggleOther_twice (st : State) :
  multiSelect (currentQuestion st) = true →
  toggleOther (toggleOther st) = set_otherAnswerText [] st.
Proof.
  intros Hm. destruct st as [sess dim q sel txt os lq gp wi ws t]. simpl in Hm.
  unfold toggleOther. simpl. rewrite Hm. destruct os; simpl; by rewrite Hm.
Qed.

Lemma toggleOther_twice_witness :
  toggleOther
    (toggleOther
       (state_of (session_of 0 0 0 0) "customer_needs" (question_of true)
          [Js.u "A"] true (Js.u "C")))
  = set_otherAnswerText []
      (state_of (session_of 0 0 0 0) "customer_needs" (question_of true)
         [Js.u "A"] true (Js.u "C")).
Proof. apply toggleOther_twice. reflexivity. Defined.

Lemma select_step_frame (st : State) (a : SelectAction) :
  currentQuestion (select_step st a) = currentQuestion st
  ∧ currentSession (select_step st a) = currentSession st
  ∧ currentDimension (select_step st a) = currentDimension st.
Proof.
  destruct a; simpl; unfold toggleOption, toggleOther.
  - destruct (multiSelect (currentQuestion st)); [|done].
    by destruct (-1 <? _).
  - destruct (multiSelect (currentQuestion st)); [|done].
    by destruct (negb _).
Qed.

Lemma select_run_frame (acts : list SelectAction) : ∀ st,
  currentQuestion (select_run acts st) = currentQuestion st
  ∧ currentSession (select_run acts st) = currentSession st
  ∧ currentDimension (select_run acts st) = currentDimension st.
Proof.
  induction acts as [|a acts IH]; intros st; [done|].
  unfold select_run in *. simpl.
  destruct (IH (select_step st a)) as (-> & -> & ->). apply select_step_frame.
Qed.

(** X8. The answer controls never change the question, the session or
    the active dimension; so the closing message and the placeholder of a
    failed request cannot be submitted, whatever is clicked: the check
    fails and [submitAnswer] does nothing. *)
Theorem placeholder_never_submittable (st : State) (acts : list SelectAction) :
  (currentQuestion st = allDoneQuestion
   ∨ ∃ title detail, currentQuestion st = errorQuestion title detail) →
  currentQuestion (select_run acts st) = currentQuestion st
  ∧ currentSession (select_run acts st) = currentSession st
  ∧ currentDimension (select_run acts st) = currentDimension st
  ∧ canSubmitAnswer (select_run acts st) = false
  ∧ ∀ api replies,
      submitAnswer api replies (select_run acts st)
      = Some (select_run acts st, replies).
Proof.
  intros Hq. destruct (select_run_frame acts st) as (Hq' & Hs & Hd).
  assert (Hno : canSubmitAnswer (select_run acts st) = false).
  { unfold canSubmitAnswer. rewrite Hq'.
    destruct Hq as [->|(title & detail & ->)]; reflexivity. }
  repeat split; try done.
  intros api replies. unfold submitAnswer. by rewrite Hno.
Qed.

Lemma placeholder_never_submittable_witness :
  canSubmitAnswer
    (select_run [ToggleOption (Js.u "A"); ToggleOther]
       (state_of (session_of 0 0 0 0) "customer_needs" allDoneQuestion [] false []))
  = false.
Proof.
  apply (placeholder_never_submittable
           (state_of (session_of 0 0 0 0) "customer_needs" allDoneQuestion [] false [])).
  by left.
Defined.

Lemma trim_length_nonempty (s : list Z) :
  (0 <? length s)%nat = true → s ≠ [].
Proof. by destruct s. Qed.

(** X9. Whenever the check of [canSubmitAnswer] passes, [submitAnswer]
    has an answer to send (never [undefined]), and the answer is not
    empty as long as no selected option is the empty string. *)
Theorem canSubmitAnswer_answer (st : State) :
  canSubmitAnswer st = true →
  ∃ answer, composeAnswer st = Some answer
            ∧ (Forall (fun o => o ≠ []) (selectedAnswers st) → answer ≠ []).
Proof.
  unfold canSubmitAnswer, composeAnswer.
  destruct (negb _ || _); [done|].
  destruct (multiSelect (currentQuestion st)).
  - intros Hcan. eexists. split; [reflexivity|]. intros Hne.
    destruct (selectedAnswers st) as [|first more] eqn:Hsel.
    + simpl in Hcan. apply andb_prop in Hcan as [-> Hlen].
      rewrite truthy_length in Hlen. rewrite Hlen. simpl.
      by destruct (Js.trim (otherAnswerText st)).
    + apply Forall_cons in Hne as [Hfirst _].
      clear Hcan. destruct (otherSelected st && Js.truthy _); simpl app; rewrite join_cons;
        by destruct first.
  - destruct (otherSelected st).
    + intros Hlen. eexists. split; [reflexivity|]. intros _.
      by apply trim_length_nonempty.
    + destruct (selectedAnswers st) as [|first more]; [done|]. intros _.
      exists first. split; [done|]. by intros [? _]%Forall_cons.
Qed.

Lemma canSubmitAnswer_answer_witness :
  ∃ answer,
    composeAnswer (state_of (session_of 0 0 0 0) "customer_needs" (question_of true)
                     [Js.u "A"; Js.u "B"] false []) = Some answer
    ∧ (Forall (fun o => o ≠ []) [Js.u "A"; Js.u "B"] → answer ≠ []).
Proof.
  apply (canSubmitAnswer_answer
           (state_of (session_of 0 0 0 0) "customer_needs" (question_of true)
              [Js.u "A"; Js.u "B"] false [])).
  reflexivity.
Defined.

End SelectionMore.

(** ** Requests: further properties *)

Section RequestsMore.

Lemma fetchSettled_flags st :
  loadingQuestion (fetchSettled st) = false
  ∧ webSearchPollInterval (fetchSettled st) = false
  ∧ webSearching (fetchSettled st) = false
  ∧ isGoingPrev (fetchSettled st) = false.
Proof. destruct st as [? ? ? ? ? ? ? ? [] ? ?]; done. Qed.

Lemma selection_fetchSettled st : selection (fetchSettled st) = selection st.
Proof. unfold selection. by autorewrite with state. Qed.

Lemma cleared_not_submittable st :
  selection st = ([], false, []) → canSubmitAnswer st = false.
Proof.
  unfold selection. intros [= Hs Ho Ht]. unfold canSubmitAnswer.
  rewrite Hs, Ho. destruct (negb _ || _); [done|].
  by destruct (multiSelect (currentQuestion st)).
Qed.

Lemma fetchNextQuestion_result replies : ∀ st st' rest,
  fetchNextQuestion replies st = Some (st', rest) →
  (∃ x, st' = fetchSettled x ∧ selection x = ([], false, []))
  ∧ ∃ used, replies = used ++ rest.
Proof.
  assert (Hsel : ∀ st q, selection (set_currentQuestion q (fetchBegin st)) = ([], false, []))
    by (intros; unfold selection; by autorewrite with state).
  assert (Hfail : ∀ st, selection (fetchFailed (fetchBegin st)) = ([], false, []))
    by (intros; unfold selection; by autorewrite with state).
  assert (Herr : ∀ st q m t,
            selection (set_currentQuestion q (showToast m t (fetchBegin st)))
            = ([], false, []))
    by (intros; unfold selection; by autorewrite with state).
  induction replies as [|reply replies IH]; intros st st' rest H;
    rewrite fetchNextQuestion_unfold in H;
    destruct (currentSession (fetchBegin st)) as [sess|].
  - done.
  - injection H as <- <-. split; [by eexists|by exists []].
  - destruct reply as [|ok result].
    { injection H as <- <-. split; [by eexists|by exists [FetchRejected]]. }
    destruct (negb ok || truthy_opt (r_error result)).
    { injection H as <- <-. split; [by eexists|by eexists [_]]. }
    destruct (r_completed result).
    + destruct (scanAfter _ _ _) as [[nextDim|]|].
      * destruct (fetchNextQuestion replies _) as [[st'' rest'']|] eqn:Hrec; [|done].
        injection H as <- <-.
        apply IH in Hrec as [(x & -> & Hx) (used & ->)]. split.
        -- exists (fetchSettled x). split; [done|]. by rewrite selection_fetchSettled.
        -- by exists (FetchResolved ok result :: used).
      * injection H as <- <-. split; [by eexists|by eexists [_]].
      * injection H as <- <-. split; [by eexists|by eexists [_]].
    + injection H as <- <-. split; [by eexists|by eexists [_]].
  - injection H as <- <-. split; [by eexists|by exists []].
Qed.

(** X10. Whenever [fetchNextQuestion] is through, with a question, the
    closing message or an error, nothing is loading, the polling timer is
    stopped, the selection and the custom answer are empty, so the new
    question cannot be submitted before something is chosen; and the
    replies it did not read are still to come. *)
Theorem fetchNextQuestion_settled (replies : list FetchReply) (st st' : State)
    (rest : list FetchReply) :
  fetchNextQuestion replies st = Some (st', rest) →
  loadingQuestion st' = false
  ∧ webSearchPollInterval st' = false
  ∧ webSearching st' = false
  ∧ isGoingPrev st' = false
  ∧ selectedAnswers st' = []
  ∧ otherSelected st' = false
  ∧ otherAnswerText st' = []
  ∧ canSubmitAnswer st' = false
  ∧ ∃ used, replies = used ++ rest.
Proof.
  intros [(x & -> & Hx) Hused]%fetchNextQuestion_result.
  pose proof (selection_fetchSettled x) as Hsel. rewrite Hx in Hsel.
  pose proof (cleared_not_submittable _ Hsel) as Hcan.
  destruct (fetchSettled_flags x) as (H1 & H2 & H3 & H4).
  unfold selection in Hsel. injection Hsel as H5 H6 H7. done.
Qed.

Lemma fetchNextQuestion_settled_witness :
  ∃ st', fetchNextQuestion [FetchRejected] state_second_done = Some (st', [])
         ∧ canSubmitAnswer st' = false.
Proof.
  eexists. split; [reflexivity|].
  eapply (fetchNextQuestion_settled [FetchRejected] state_second_done). reflexivity.
Defined.

Lemma rotation_after_perm cur : rotation_after cur ≡ₚ dimensionOrder.
Proof.
  unfold rotation_after. rewrite Permutation_app_comm. by rewrite take_drop.
Qed.

Lemma scanAfter_next sess cur :
  all_dimensions_present sess = true →
  existsb (incomplete sess) dimensionOrder = true →
  cur ∈ dimensionOrder →
  ∃ next,
    scanAfter (dimensions sess) (Js.indexOf dimensionOrder cur)
      (seqZ 1 (Z.of_nat (length dimensionOrder))) = Some (Some next)
    ∧ next ∈ dimensionOrder.
Proof.
  intros Hall Hinc Hcur. rewrite scanAfter_rotation by done.
  pose proof (rotation_after_perm cur) as Hperm.
  destruct (scanIncomplete_total (dimensions sess) (rotation_after cur)) as [r Hr].
  { rewrite Hperm. by apply all_dimensions_present_Forall. }
  destruct r as [next|].
  - exists next. split; [done|].
    apply scanIncomplete_found in Hr as (before & after & d & Heq & _).
    rewrite <- Hperm, Heq. apply elem_of_app. right. by left.
  - exfalso. apply (scanIncomplete_some_incomplete sess (rotation_after cur)); [|done].
    apply existsb_exists in Hinc as (k & Hk & Hki). apply existsb_exists.
    exists k. split; [|done]. apply list_elem_of_In. rewrite Hperm.
    by apply list_elem_of_In.
Qed.

(** X11. When some dimension of the session is below 100 and the server
    answers every request with [completed], [fetchNextQuestion] goes on
    to the next dimension and asks again, for as long as the server does
    so: it reads every reply and is still waiting. *)
Theorem fetchNextQuestion_keeps_asking (replies : list FetchReply) (st : State)
    (sess : Session) :
  currentSession st = Some sess →
  all_dimensions_present sess = true →
  existsb (incomplete sess) dimensionOrder = true →
  currentDimension st ∈ dimensionOrder →
  forallb says_completed replies = true →
  fetchNextQuestion replies st = None.
Proof.
  intros Hs Hall Hinc. revert st Hs.
  induction replies as [|reply replies IH]; intros st Hs Hcur Hrep;
    rewrite fetchNextQuestion_unfold, currentSession_fetchBegin, Hs; [done|].
  simpl in Hrep. apply andb_prop in Hrep as [Hreply Hrep].
  destruct reply as [|ok result]; [done|]. simpl in Hreply.
  apply andb_prop in Hreply as [[-> Herr%negb_true_iff]%andb_prop ->].
  rewrite Herr, currentDimension_fetchBegin. cbn [negb orb].
  destruct (scanAfter_next sess (currentDimension st) Hall Hinc Hcur)
    as (next & -> & Hnext).
  rewrite IH; [done| | |done]; by autorewrite with state.
Qed.

Lemma fetchNextQuestion_keeps_asking_witness :
  fetchNextQuestion
    (replicate 5 (FetchResolved true (reply_body true []))) state_second_done
  = None.
Proof.
  apply (fetchNextQuestion_keeps_asking _ _ (session_of 50 100 50 70)).
  - reflexivity.
  - vm_compute. reflexivity.
  - vm_compute. reflexivity.
  - apply (bool_decide_unpack _). vm_compute. exact I.
  - reflexivity.
Defined.

Lemma getNextIncompleteDimension_total st sess :
  currentSession st = Some sess → all_dimensions_present sess = true →
  is_Some (getNextIncompleteDimension st).
Proof.
  intros Hs Hall. unfold getNextIncompleteDimension. rewrite Hs.
  destruct (scanIncomplete_total (dimensions sess) dimensionOrder) as [r ->].
  { by apply all_dimensions_present_Forall. }
  destruct r; by eexists.
Qed.

(** X12. An answer that the server accepts: the session becomes the one
    the server sent; if the active dimension has reached 100 in it, the
    first dimension of the canonical order that is below 100 becomes
    active (the first one if none is), else the active dimension stays;
    and the question that comes next is shown with nothing selected. *)
Theorem submitAnswer_moves_on (api : SubmitBody → ApiReply Session) (st : State)
    (sess updated : Session) (d : Dimension) (q : NextQuestionBody)
    (rest : list FetchReply) :
  canSubmitAnswer st = true →
  currentSession st = Some sess →
  (∀ body, api body = ApiOk updated) →
  all_dimensions_present updated = true →
  dimensions updated !! currentDimension st = Some d →
  r_error q = None → r_completed q = false →
  ∃ st' dim,
    submitAnswer api (FetchResolved true q :: rest) st = Some (st', rest)
    ∧ getNextIncompleteDimension (set_currentSession (Some updated) st) = Some dim
    ∧ currentSession st' = Some updated
    ∧ currentDimension st' = (if 100 <=? coverage d then dim else currentDimension st)
    ∧ currentQuestion st' = questionOf q
    ∧ selection st' = ([], false, [])
    ∧ canSubmitAnswer st' = false.
Proof.
  intros Hcan Hs Hapi Hall Hd Hqe Hqc.
  set (st1 := set_currentSession (Some updated) st).
  assert (Hs1 : currentSession st1 = Some updated) by done.
  destruct (getNextIncompleteDimension_total st1 updated Hs1 Hall) as [dim Hdim].
  assert (Hfetch : ∀ x, currentSession x = Some updated →
            ∃ st', fetchNextQuestion (FetchResolved true q :: rest) x = Some (st', rest)
                   ∧ currentSession st' = Some updated
                   ∧ currentDimension st' = currentDimension x
                   ∧ currentQuestion st' = questionOf q
                   ∧ selection st' = ([], false, [])
                   ∧ canSubmitAnswer st' = false).
  { intros x Hx. rewrite (fetchNextQuestion_question updated x q rest Hx Hqe Hqc).
    eexists. split; [reflexivity|].
    assert (Hsel : selection (fetchSettled (set_currentQuestion (questionOf q) (fetchBegin x)))
                   = ([], false, []))
      by (unfold selection; by autorewrite with state).
    repeat split; try (by autorewrite with state); try done.
    by apply cleared_not_submittable. }
  unfold submitAnswer. rewrite Hcan, Hs, Hapi. cbv zeta. fold st1.
  replace (currentDimension st1) with (currentDimension st) by done.
  rewrite Hd, Hdim.
  destruct (100 <=? coverage d).
  - destruct (Hfetch (set_currentDimension dim st1)) as (st' & -> & H1 & H2 & H3 & H4 & H5);
      [done|].
    exists st', dim. repeat split; try done.
  - destruct (Hfetch st1) as (st' & -> & H1 & H2 & H3 & H4 & H5); [done|].
    exists st', dim. repeat split; try done.
Qed.

Lemma submitAnswer_moves_on_witness :
  ∃ st' dim,
    submitAnswer (fun _ => ApiOk (session_of 50 100 50 70))
      [FetchResolved true (reply_body false (Js.u "Q2"))]
      (state_of (session_of 50 90 50 70) "business_process" (question_of false)
         [Js.u "A"] false [])
    = Some (st', [])
    ∧ getNextIncompleteDimension
        (set_currentSession (Some (session_of 50 100 50 70))
           (state_of (session_of 50 90 50 70) "business_process" (question_of false)
              [Js.u "A"] false [])) = Some dim
    ∧ currentSession st' = Some (session_of 50 100 50 70)
    ∧ currentDimension st' = (if 100 <=? coverage (cov 100) then dim
                              else "business_process"%string)
    ∧ currentQuestion st' = questionOf (reply_body false (Js.u "Q2"))
    ∧ selection st' = ([], false, [])
    ∧ canSubmitAnswer st' = false.
Proof.
  apply (submitAnswer_moves_on (fun _ => ApiOk (session_of 50 100 50 70))
           (state_of (session_of 50 90 50 70) "business_process" (question_of false)
              [Js.u "A"] false [])
           (session_of 50 90 50 70) (session_of 50 100 50 70) (cov 100)
           (reply_body false (Js.u "Q2")) []); reflexivity.
Defined.

End RequestsMore.

(** ** Going back, opening a session, numbering and progress *)

Section FlowMore.

(** X13. What [goPrevQuestion] can do: nothing, when there is no answer
    to take back; after a failed request only the error toast; else the
    question, options and dimension of the last answer are restored from
    the log, with nothing selected. The flag [isGoingPrev] is down after
    every call that passed the check, and the warning that there is
    nothing to undo is never shown. *)
Theorem goPrevQuestion_outcomes (api : ApiReply Session) (st : State) :
  (canGoPrevQuestion st = false ∧ goPrevQuestion api st = st)
  ∨ (canGoPrevQuestion st = true
     ∧ isGoingPrev (goPrevQuestion api st) = false
     ∧ ((api_fails api = true
         ∧ goPrevQuestion api st
           = set_isGoingPrev false (showToast msg_undo_failed toast_error st))
        ∨ (∃ updated sess lastLog,
             api = ApiOk updated
             ∧ currentSession st = Some sess
             ∧ list.last (interview_log sess) = Some lastLog
             ∧ currentSession (goPrevQuestion api st) = Some updated
             ∧ currentDimension (goPrevQuestion api st) = log_dimension lastLog
             ∧ currentQuestion (goPrevQuestion api st) = savedQuestion lastLog
             ∧ selection (goPrevQuestion api st) = ([], false, [])
             ∧ loadingQuestion (goPrevQuestion api st) = false
             ∧ toast (goPrevQuestion api st) = Some toast_restored
             ∧ canSubmitAnswer (goPrevQuestion api st) = false))).
Proof.
  unfold goPrevQuestion, canGoPrevQuestion.
  destruct (currentSession st) as [sess|] eqn:Hs; [|by left].
  destruct (interview_log sess) as [|e log] eqn:Hlog; [by left|].
  right. split; [done|]. cbn [length Nat.ltb Nat.leb negb].
  destruct (list.last (e :: log)) as [lastLog|] eqn:Hlast;
    [|by apply last_None in Hlast].
  split; [by destruct api|].
  destruct api as [|err|updated]; [by left|by left|]. right.
  exists updated, sess, lastLog. rewrite Hlog. repeat split; try done.
  apply cleared_not_submittable. reflexivity.
Qed.

(** X14. When the server takes the last answer off the log, the question
    that [goPrevQuestion] restores gets the number it had when it was
    asked: one less than the next question of its dimension would have
    had. *)
Theorem goPrevQuestion_number (st : State) (sess updated : Session)
    (lastLog : LogEntry) :
  currentSession st = Some sess →
  interview_log sess = interview_log updated ++ [lastLog] →
  ∃ n, getQuestionNumber (goPrevQuestion (ApiOk updated) st) = Some n
       ∧ getQuestionNumber (set_currentDimension (log_dimension lastLog) st)
         = Some (n + 1)
       ∧ 1 <= n.
Proof.
  intros Hs Hlog.
  destruct (goPrevQuestion_outcomes (ApiOk updated) st)
    as [[Hcan _]|(_ & _ & [[Hf _]|(u & s & l & [= <-] & Hs' & Hlast & Hs2 & Hd & _)])].
  - unfold canGoPrevQuestion in Hcan. rewrite Hs, Hlog, length_app in Hcan.
    simpl in Hcan. apply Nat.ltb_ge in Hcan. lia.
  - done.
  - rewrite Hs in Hs'. injection Hs' as <-.
    rewrite Hlog, last_snoc in Hlast. injection Hlast as <-.
    unfold getQuestionNumber. rewrite Hs2, Hd.
    replace (currentSession (set_currentDimension (log_dimension lastLog) st))
      with (Some sess) by (by rewrite <- Hs).
    replace (currentDimension (set_currentDimension (log_dimension lastLog) st))
      with (log_dimension lastLog) by done.
    eexists. split; [reflexivity|]. rewrite Hlog, filter_app, length_app.
    rewrite filter_cons_True by done. simpl. split; [f_equal; lia|lia].
Qed.

Lemma goPrevQuestion_number_witness :
  ∃ n, getQuestionNumber
         (goPrevQuestion
            (ApiOk (session_with_log [log_entry "customer_needs" (Js.u "Q1")]))
            (state_of
               (session_with_log [log_entry "customer_needs" (Js.u "Q1");
                                  log_entry "customer_needs" (Js.u "Q2")])
               "business_process" (question_of false) [] false []))
       = Some n
       ∧ getQuestionNumber
           (set_currentDimension
              (log_dimension (log_entry "customer_needs" (Js.u "Q2")))
              (state_of
                 (session_with_log [log_entry "customer_needs" (Js.u "Q1");
                                    log_entry "customer_needs" (Js.u "Q2")])
                 "business_process" (question_of false) [] false []))
         = Some (n + 1)
       ∧ 1 <= n.
Proof.
  apply (goPrevQuestion_number _
           (session_with_log [log_entry "customer_needs" (Js.u "Q1");
                              log_entry "customer_needs" (Js.u "Q2")])); reflexivity.
Defined.

Lemma answered_cons e log dim :
  answered dim (e :: log)
  = ((if decide (log_dimension e = dim) then 1 else 0) + answered dim log)%nat.
Proof.
  unfold answered. rewrite filter_cons. by destruct (decide (log_dimension e = dim)).
Qed.

(** X15. The numbers of the questions count every answer once: when every
    entry of the log belongs to one of the four dimensions, the numbers
    that [getQuestionNumber] gives for the four dimensions, each less
    one, add up to the length of the log. *)
Theorem getQuestionNumber_partition (st : State) (sess : Session) :
  currentSession st = Some sess →
  Forall (fun l => log_dimension l ∈ dimensionOrder) (interview_log sess) →
  ∃ n1 n2 n3 n4,
    getQuestionNumber (set_currentDimension "customer_needs" st) = Some n1
    ∧ getQuestionNumber (set_currentDimension "business_process" st) = Some n2
    ∧ getQuestionNumber (set_currentDimension "tech_constraints" st) = Some n3
    ∧ getQuestionNumber (set_currentDimension "project_constraints" st) = Some n4
    ∧ (n1 - 1) + (n2 - 1) + (n3 - 1) + (n4 - 1)
      = Z.of_nat (length (interview_log sess)).
Proof.
  intros Hs Hlog. unfold getQuestionNumber.
  assert (Hs' : ∀ dim, currentSession (set_currentDimension dim st) = Some sess)
    by (intros; by rewrite <- Hs).
  rewrite !Hs'. cbv zeta.
  assert (Hd : ∀ dim, currentDimension (set_currentDimension dim st) = dim) by done.
  rewrite !Hd. do 4 eexists. repeat (split; [reflexivity|]).
  fold (answered "customer_needs" (interview_log sess)).
  fold (answered "business_process" (interview_log sess)).
  fold (answered "tech_constraints" (interview_log sess)).
  fold (answered "project_constraints" (interview_log sess)).
  induction Hlog as [|e log He _ IH]; [done|].
  rewrite !answered_cons, length_cons.
  unfold dimensionOrder in He.
  repeat (apply elem_of_cons in He as [->|He]); [..|by apply elem_of_nil in He];
    repeat (destruct (decide _) as [?|?]; try done); lia.
Qed.

Lemma getQuestionNumber_partition_witness :
  ∃ n1 n2 n3 n4,
    getQuestionNumber
      (set_currentDimension "customer_needs"
         (state_of (session_with_log [log_entry "customer_needs" (Js.u "Q1");
                                      log_entry "tech_constraints" (Js.u "Q2")])
            "business_process" (question_of false) [] false [])) = Some n1
    ∧ getQuestionNumber
        (set_currentDimension "business_process"
           (state_of (session_with_log [log_entry "customer_needs" (Js.u "Q1");
                                        log_entry "tech_constraints" (Js.u "Q2")])
              "business_process" (question_of false) [] false [])) = Some n2
    ∧ getQuestionNumber
        (set_currentDimension "tech_constraints"
           (state_of (session_with_log [log_entry "customer_needs" (Js.u "Q1");
                                        log_entry "tech_constraints" (Js.u "Q2")])
              "business_process" (question_of false) [] false [])) = Some n3
    ∧ getQuestionNumber
        (set_currentDimension "project_constraints"
           (state_of (session_with_log [log_entry "customer_needs" (Js.u "Q1");
                                        log_entry "tech_constraints" (Js.u "Q2")])
              "business_process" (question_of false) [] false [])) = Some n4
    ∧ (n1 - 1) + (n2 - 1) + (n3 - 1) + (n4 - 1)
      = Z.of_nat (length [log_entry "customer_needs" (Js.u "Q1");
                          log_entry "tech_constraints" (Js.u "Q2")]).
Proof.
  apply (getQuestionNumber_partition _
           (session_with_log [log_entry "customer_needs" (Js.u "Q1");
                              log_entry "tech_constraints" (Js.u "Q2")]));
    [reflexivity|].
  apply (bool_decide_unpack _). vm_compute. exact I.
Defined.

Lemma getTotalProgress_four (st : State) (sess : Session) (d1 d2 d3 d4 : Dimension) :
  currentSession st = Some sess →
  dimensions sess !! "customer_needs"%string = Some d1 →
  dimensions sess !! "business_process"%string = Some d2 →
  dimensions sess !! "tech_constraints"%string = Some d3 →
  dimensions sess !! "project_constraints"%string = Some d4 →
  size (dimensions sess) = 4%nat →
  getTotalProgress st
  = Some ((coverage d1 + coverage d2 + coverage d3 + coverage d4 + 2) `div` 4).
Proof.
  intros Hs H1 H2 H3 H4 Hsize.
  pose proof (Object_values_four _ _ _ _ _ H1 H2 H3 H4 Hsize) as Hperm.
  unfold getTotalProgress. rewrite Hs. cbv zeta.
  rewrite foldl_coverage_sum, (coverage_sum_perm _ _ Hperm).
  pose proof (Permutation_length Hperm) as Hlen. simpl in Hlen.
  destruct (Object_values (dimensions sess)) as [|d ds] eqn:Hvals; [done|].
  rewrite Hlen. simpl foldr.
  change (inject_Z (Z.of_nat 4)) with 4%Q.
  rewrite Math_round_quarter. do 2 f_equal. lia.
Qed.

(** X16. The overall progress is 100 exactly when the four coverages add
    up to 398 or more: it is 100 when all four dimensions are complete,
    and it can be 100 while a dimension is still below 100. It never
    decreases when a coverage grows. *)
Theorem getTotalProgress_full (st : State) (sess : Session)
    (d1 d2 d3 d4 : Dimension) :
  currentSession st = Some sess →
  dimensions sess !! "customer_needs"%string = Some d1 →
  dimensions sess !! "business_process"%string = Some d2 →
  dimensions sess !! "tech_constraints"%string = Some d3 →
  dimensions sess !! "project_constraints"%string = Some d4 →
  size (dimensions sess) = 4%nat →
  coverage d1 <= 100 → coverage d2 <= 100 →
  coverage d3 <= 100 → coverage d4 <= 100 →
  let total := coverage d1 + coverage d2 + coverage d3 + coverage d4 in
  (getTotalProgress st = Some 100 ↔ 398 <= total)
  ∧ (scanIncomplete (dimensions sess) dimensionOrder = Some None →
     getTotalProgress st = Some 100)
  ∧ (∀ st' sess' e1 e2 e3 e4,
       currentSession st' = Some sess' →
       dimensions sess' !! "customer_needs"%string = Some e1 →
       dimensions sess' !! "business_process"%string = Some e2 →
       dimensions sess' !! "tech_constraints"%string = Some e3 →
       dimensions sess' !! "project_constraints"%string = Some e4 →
       size (dimensions sess') = 4%nat →
       coverage d1 <= coverage e1 → coverage d2 <= coverage e2 →
       coverage d3 <= coverage e3 → coverage d4 <= coverage e4 →
       ∃ p p', getTotalProgress st = Some p ∧ getTotalProgress st' = Some p'
               ∧ p <= p').
Proof.
  intros Hs H1 H2 H3 H4 Hsize Hc1 Hc2 Hc3 Hc4 total.
  rewrite (getTotalProgress_four st sess d1 d2 d3 d4) by done. fold total.
  assert (Hdiv : ∀ t, 4 * ((t + 2) `div` 4) <= t + 2 < 4 * ((t + 2) `div` 4) + 4).
  { intros t. pose proof (Z.div_mod (t + 2) 4 ltac:(lia)).
    pose proof (Z.mod_pos_bound (t + 2) 4 ltac:(lia)). lia. }
  assert (Hfull : (Some ((total + 2) `div` 4) = Some 100 ↔ 398 <= total)).
  { pose proof (Hdiv total). unfold total in *. split.
    - intros [= Heq]. lia.
    - intros Hge. f_equal. lia. }
  split; [done|]. split.
  - intros Hscan%scanIncomplete_none. apply Hfull.
    unfold dimensionOrder in Hscan.
    apply Forall_cons in Hscan as [(x1 & Hx1 & Hg1) Hscan].
    apply Forall_cons in Hscan as [(x2 & Hx2 & Hg2) Hscan].
    apply Forall_cons in Hscan as [(x3 & Hx3 & Hg3) Hscan].
    apply Forall_cons in Hscan as [(x4 & Hx4 & Hg4) _].
    rewrite H1 in Hx1. rewrite H2 in Hx2. rewrite H3 in Hx3. rewrite H4 in Hx4.
    injection Hx1 as <-. injection Hx2 as <-. injection Hx3 as <-.
    injection Hx4 as <-. unfold total. lia.
  - intros st' sess' e1 e2 e3 e4 Hs' G1 G2 G3 G4 Hsize' L1 L2 L3 L4.
    rewrite (getTotalProgress_four st' sess' e1 e2 e3 e4) by done.
    do 2 eexists. repeat split. apply Z.div_le_mono; [lia|]. unfold total. lia.
Qed.

Lemma getTotalProgress_full_witness :
  getTotalProgress state_almost_done = Some 100 ↔ 398 <= 100 + 100 + 100 + 98.
Proof.
  apply (getTotalProgress_full state_almost_done (session_of 100 100 100 98)
           (cov 100) (cov 100) (cov 100) (cov 98)); try reflexivity; simpl; lia.
Defined.

(** X17. A progress of 100 does not mean that the interview is complete:
    there is a session that shows 100 while [getNextIncompleteDimension]
    still finds a dimension below 100. *)
Theorem progress_full_while_incomplete :
  ∃ st dim sess d,
    getTotalProgress st = Some 100
    ∧ currentSession st = Some sess
    ∧ getNextIncompleteDimension st = Some dim
    ∧ dimensions sess !! dim = Some d
    ∧ coverage d < 100.
Proof.
  exists state_almost_done, "project_constraints"%string,
    (session_of 100 100 100 98), (cov 98).
  repeat split; reflexivity.
Qed.

(** X18. [openSession] on a session that the server sends in full: it
    becomes the current session, the first dimension of the canonical
    order below 100 becomes active, and the interview view is shown. A
    session without answers stays at step 0 and no question is asked for;
    a session with answers goes to step 1 and shows the next question. *)
Theorem openSession_opens (sess : Session) (replies : list FetchReply) (app : App) :
  all_dimensions_present sess = true →
  ∃ dim,
    getNextIncompleteDimension (set_currentSession (Some sess) (app_state app))
    = Some dim
    ∧ (interview_log sess = [] →
       ∃ app', openSession (ApiOk sess) replies app = Some (app', replies)
               ∧ currentStep app' = 0
               ∧ currentView app' = view_interview
               ∧ currentSession (app_state app') = Some sess
               ∧ currentDimension (app_state app') = dim
               ∧ currentQuestion (app_state app') = currentQuestion (app_state app))
    ∧ (interview_log sess ≠ [] →
       ∀ q rest, replies = FetchResolved true q :: rest →
         r_error q = None → r_completed q = false →
         ∃ app', openSession (ApiOk sess) replies app = Some (app', rest)
                 ∧ currentStep app' = 1
                 ∧ currentView app' = view_interview
                 ∧ currentSession (app_state app') = Some sess
                 ∧ currentDimension (app_state app') = dim
                 ∧ currentQuestion (app_state app') = questionOf q).
Proof.
  intros Hall.
  set (st1 := set_currentSession (Some sess) (app_state app)).
  assert (Hs1 : currentSession st1 = Some sess) by done.
  destruct (getNextIncompleteDimension_total st1 sess Hs1 Hall) as [dim Hdim].
  exists dim. split; [done|]. unfold openSession. cbv zeta. fold st1. rewrite Hdim.
  split.
  - intros ->. simpl. eexists. split; [reflexivity|]. by repeat split.
  - intros Hlog q rest -> Hqe Hqc.
    destruct (interview_log sess) as [|e log]; [done|].
    cbn [length Nat.ltb Nat.leb Z.eqb Pos.eqb].
    rewrite (fetchNextQuestion_question sess _ q rest) by done.
    eexists. split; [reflexivity|]. cbn [app_state currentStep currentView].
    repeat split; by autorewrite with state.
Qed.

Lemma openSession_opens_witness :
  ∃ dim,
    getNextIncompleteDimension
      (set_currentSession (Some (session_of 100 100 50 70))
         (app_state (app_of state_second_done))) = Some dim
    ∧ (interview_log (session_of 100 100 50 70) = [] →
       ∃ app', openSession (ApiOk (session_of 100 100 50 70)) []
                 (app_of state_second_done) = Some (app', [])
               ∧ currentStep app' = 0
               ∧ currentView app' = view_interview
               ∧ currentSession (app_state app') = Some (session_of 100 100 50 70)
               ∧ currentDimension (app_state app') = dim
               ∧ currentQuestion (app_state app')
                 = currentQuestion (app_state (app_of state_second_done))).
Proof.
  destruct (openSession_opens (session_of 100 100 50 70) [] (app_of state_second_done))
    as (dim & Hdim & Hfresh & _); [by vm_compute|].
  exists dim. split; [exact Hdim|exact Hfresh].
Defined.

(** X19. [openSession] on a session without the entry of the first
    dimension: the failure toast is shown and the view and the active
    dimension stay as they were, but the session and the step have
    already been replaced. *)
Theorem openSession_malformed (sess : Session) (replies : list FetchReply)
    (app : App) :
  dimensions sess !! "customer_needs"%string = None →
  ∃ app',
    openSession (ApiOk sess) replies app = Some (app', replies)
    ∧ toast (app_state app')
      = Some {| toast_message := msg_load_failed; toast_type := toast_error |}
    ∧ currentView app' = currentView app
    ∧ currentDimension (app_state app') = currentDimension (app_state app)
    ∧ currentQuestion (app_state app') = currentQuestion (app_state app)
    ∧ currentSession (app_state app') = Some sess
    ∧ currentStep app' = (if (0 <? length (interview_log sess))%nat then 1 else 0).
Proof.
  intros Hnone. unfold openSession. cbv zeta.
  assert (Hthrow : getNextIncompleteDimension
                     (set_currentSession (Some sess) (app_state app)) = None).
  { unfold getNextIncompleteDimension.
    replace (currentSession (set_currentSession (Some sess) (app_state app)))
      with (Some sess) by done.
    unfold dimensionOrder. cbn [scanIncomplete]. by rewrite Hnone. }
  rewrite Hthrow. eexists. split; [reflexivity|]. by repeat split.
Qed.

Lemma openSession_malformed_witness :
  ∃ app',
    openSession (ApiOk session_without_dimensions) [] (app_of state_second_done)
    = Some (app', [])
    ∧ toast (app_state app')
      = Some {| toast_message := msg_load_failed; toast_type := toast_error |}
    ∧ currentView app' = currentView (app_of state_second_done)
    ∧ currentDimension (app_state app')
      = currentDimension (app_state (app_of state_second_done))
    ∧ currentQuestion (app_state app')
      = currentQuestion (app_state (app_of state_second_done))
    ∧ currentSession (app_state app') = Some session_without_dimensions
    ∧ currentStep app'
      = (if (0 <? length (interview_log session_without_dimensions))%nat
         then 1 else 0).
Proof.
  apply (openSession_malformed session_without_dimensions [] (app_of state_second_done)).
  reflexivity.
Defined.

(** X20. [startInterview] asks its first question about the first
    dimension of the canonical order, whatever the coverages are, where
    [openSession] starts at the first dimension below 100. *)
Theorem startInterview_first_dimension (sess : Session) (q : NextQuestionBody)
    (rest : list FetchReply) (app : App) :
  currentSession (app_state app) = Some sess →
  r_error q = None → r_completed q = false →
  ∃ app',
    startInterview (FetchResolved true q :: rest) app = Some (app', rest)
    ∧ currentStep app' = 1
    ∧ head dimensionOrder = Some (currentDimension (app_state app'))
    ∧ currentQuestion (app_state app') = questionOf q
    ∧ currentSession (app_state app') = Some sess.
Proof.
  intros Hs Hqe Hqc. unfold startInterview.
  rewrite (fetchNextQuestion_question sess _ q rest) by done.
  eexists. split; [reflexivity|]. cbn [app_state currentStep].
  repeat split; by autorewrite with state.
Qed.

Lemma startInterview_first_dimension_witness :
  ∃ app',
    startInterview [FetchResolved true (reply_body false (Js.u "Q1"))]
      (app_of (state_of (session_of 100 100 50 70) "tech_constraints"
                 (question_of false) [] false []))
    = Some (app', [])
    ∧ currentStep app' = 1
    ∧ head dimensionOrder = Some (currentDimension (app_state app'))
    ∧ currentQuestion (app_state app') = questionOf (reply_body false (Js.u "Q1"))
    ∧ currentSession (app_state app') = Some (session_of 100 100 50 70).
Proof.
  apply (startInterview_first_dimension (session_of 100 100 50 70)); reflexivity.
Defined.

(** X21. The rotation of the quotes: the index stays inside the array,
    after [n] ticks it has moved on by [n] around the array, and after as
    many ticks as there are quotes it is back where it was. *)
Theorem nextQuoteIndex_rotation (len i : Z) :
  0 < len → 0 <= i < len →
  0 <= nextQuoteIndex len i < len
  ∧ (∀ n : nat, Nat.iter n (nextQuoteIndex len) i = (i + Z.of_nat n) `mod` len)
  ∧ Nat.iter (Z.to_nat len) (nextQuoteIndex len) i = i.
Proof.
  intros Hlen Hi.
  assert (Hstep : ∀ j, 0 <= j < len → nextQuoteIndex len j = (j + 1) `mod` len).
  { intros j Hj. unfold nextQuoteIndex. apply Z.rem_mod_nonneg; lia. }
  assert (Hiter : ∀ n : nat,
            Nat.iter n (nextQuoteIndex len) i = (i + Z.of_nat n) `mod` len).
  { induction n as [|n IH].
    - simpl. rewrite Z.add_0_r, Z.mod_small; lia.
    - rewrite Nat.iter_succ, IH, Hstep by (apply Z.mod_pos_bound; lia).
      rewrite Zplus_mod_idemp_l. f_equal. lia. }
  split; [rewrite Hstep by done; apply Z.mod_pos_bound; lia|].
  split; [done|]. rewrite Hiter, Z2Nat.id by lia.
  rewrite <- (Z.mul_1_l len) at 1. rewrite Z_mod_plus_full. apply Z.mod_small. lia.
Qed.

Lemma nextQuoteIndex_rotation_witness :
  Nat.iter (Z.to_nat 5) (nextQuoteIndex 5) 3 = 3.
Proof. apply (nextQuoteIndex_rotation 5 3); lia. Defined.

(** X22. [getStepClass] marks a step as the current one exactly when it is
    the current step, except that the third step is shown as done while
    a report is being generated. *)
Theorem getStepClass_current (idx : Z) (app : App) :
  getStepClass idx app = class_step_current
  ↔ idx = currentStep app ∧ ¬ (idx = 2 ∧ generatingReport app = true).
Proof.
  unfold getStepClass.
  destruct (Z.ltb_spec idx (currentStep app)); cbn [orb].
  { split; [done|]. intros [-> _]. lia. }
  destruct (Z.eqb_spec idx 2) as [->|Hne]; cbn [andb].
  - destruct (generatingReport app).
    + split; [done|]. intros [_ Hno]. by destruct Hno.
    + destruct (Z.eqb_spec 2 (currentStep app)) as [Heq|Hneq].
      * split; [|done]. intros _. split; [done|]. by intros [_ ?].
      * split; [done|]. by intros [? _].
  - destruct (Z.eqb_spec idx (currentStep app)) as [Heq|Hneq].
    + split; [|done]. intros _. split; [done|]. by intros [? _].
    + split; [done|]. by intros [? _].
Qed.

End FlowMore.

(** ** Decoding the entities of a diagram block *)

Section Entities.
Import Regex.

Lemma match_literal w prev rest : match_here [Lit w] prev (w ++ rest) = Some rest.
Proof. cbn [match_here]. by rewrite lit_app. Qed.

(** A literal replacement, token by token. *)
Lemma literal_replace w r tok s : ∀ n prev,
  w ≠ [] → literal_scan w tok s →
  replace_go [Lit w] (fun _ => r) n 0 prev (flat_map tok s)
  = flat_map (literal_step w r tok) s.
Proof.
  induction s as [|c s IH]; intros n prev Hw Hs.
  - simpl. by destruct w.
  - destruct Hs as [Hc Hs]. cbn [flat_map]. unfold literal_step at 1.
    destruct (decide (tok c = w)) as [Htok|Hne].
    + rewrite bool_decide_eq_true_2 by done. rewrite Htok.
      rewrite replace_go_hit_app; [|done|apply match_literal].
      f_equal. by apply IH.
    + rewrite bool_decide_eq_false_2 by done. destruct Hc as [?|Hno]; [done|].
      rewrite replace_go_copy; [f_equal; by apply IH|].
      intros i prev' Hi. cbn [match_here]. by apply Hno.
Qed.

Lemma literal_replace_all w r tok tok' s :
  w ≠ [] → literal_scan w tok s → (∀ c, literal_step w r tok c = tok' c) →
  replace [Lit w] (fun _ => r) (flat_map tok s) = flat_map tok' s.
Proof.
  intros Hw Hs Hstep. unfold replace. rewrite literal_replace by done.
  induction s as [|c s IH]; [done|]. simpl. rewrite Hstep.
  f_equal. apply IH. by destruct Hs.
Qed.

Ltac no_match_in_token :=
  let i := fresh "i" in
  intros i ? ? ?;
  do 6 (try (destruct i as [|i]; [reflexivity|])); simpl in *; lia.

Ltac plain_unit :=
  let i := fresh "i" in
  let Hi := fresh "Hi" in
  intros i ? ? Hi; destruct i as [|i]; [|simpl in Hi; lia];
  apply lit_mismatch; congruence.

Lemma scan_lt s : literal_scan ent_lt escape_unit s.
Proof.
  induction s as [|c s IH]; [done|]. split; [|done]. unfold escape_unit.
  destruct (Z.eqb_spec c 38); [right; no_match_in_token|].
  destruct (Z.eqb_spec c 60); [by left|].
  destruct (Z.eqb_spec c 62); [right; no_match_in_token|].
  destruct (Z.eqb_spec c 34); [right; no_match_in_token|].
  right. plain_unit.
Qed.

Lemma scan_gt s : literal_scan ent_gt escape_unit1 s.
Proof.
  induction s as [|c s IH]; [done|]. split; [|done]. unfold escape_unit1.
  destruct (Z.eqb_spec c 38); [right; no_match_in_token|].
  destruct (Z.eqb_spec c 62); [by left|].
  destruct (Z.eqb_spec c 34); [right; no_match_in_token|].
  right. plain_unit.
Qed.

Lemma scan_amp s : literal_scan ent_amp escape_unit2 s.
Proof.
  induction s as [|c s IH]; [done|]. split; [|done]. unfold escape_unit2.
  destruct (Z.eqb_spec c 38); [by left|].
  destruct (Z.eqb_spec c 34); [right; no_match_in_token|].
  right. plain_unit.
Qed.

(** A literal without the ampersand and the double quote is found in the
    escaped text only where it is in the text. *)
Lemma lit_escaped w : ∀ s k prev,
  Forall (fun c => c ≠ 34 ∧ c ≠ 38) w → is_prefix w s = false →
  lit w k prev (flat_map escape_unit3 s) = None.
Proof.
  induction w as [|a w IH]; intros s k prev Hw Hp; [by destruct s|].
  apply Forall_cons in Hw as [[Ha1 Ha2] Hw].
  destruct s as [|c s]; [done|]. cbn [flat_map]. unfold escape_unit3 at 1.
  destruct (Z.eqb_spec c 34) as [->|Hc].
  - apply lit_mismatch. congruence.
  - cbn [app lit]. simpl in Hp. destruct (c =? a); [|done]. by apply IH.
Qed.

Lemma scan_quot s : includes ent_quot s = false → literal_scan ent_quot escape_unit3 s.
Proof.
  induction s as [|c s IH]; intros Hinc; [done|].
  cbn [includes] in Hinc. apply orb_false_elim in Hinc as [Hpre Hinc].
  split; [|by apply IH].
  destruct (Z.eqb_spec c 34) as [->|Hc]; [by left|]. right.
  assert (Htok : escape_unit3 c = [c]).
  { unfold escape_unit3. by destruct (Z.eqb_spec c 34). }
  rewrite Htok. intros i k prev Hi. destruct i as [|i]; [|simpl in Hi; lia].
  cbn [drop app]. destruct (Z.eqb_spec c 38) as [->|Hne].
  - change (lit [113; 117; 111; 116; 59] k (Some 38) (flat_map escape_unit3 s) = None).
    apply lit_escaped; [repeat constructor; lia|].
    unfold ent_quot in Hpre. cbn [is_prefix] in Hpre. by rewrite Z.eqb_refl in Hpre.
  - apply lit_mismatch. congruence.
Qed.

Lemma flat_map_singleton (s : list Z) : flat_map (fun c => [c]) s = s.
Proof. induction s as [|c s IH]; [done|]. simpl. by rewrite IH. Qed.

Ltac step_units :=
  let c := fresh "c" in
  let H := fresh "H" in
  intros c;
  unfold literal_step, escape_unit, escape_unit1, escape_unit2, escape_unit3;
  repeat match goal with
         | |- context [?x =? ?y] => destruct (Z.eqb_spec x y); try lia
         end;
  subst;
  try (case_bool_decide as H;
  first [ reflexivity
        | exfalso; unfold ent_lt, ent_gt, ent_amp, ent_quot in H; congruence ]).

(** X23. The decoding undoes the escaping, up to the final [trim], for
    every text in which the six code units of the entity of the double
    quote do not occur. *)
Theorem decodedCode_escapeHtml (s : list Z) :
  includes ent_quot s = false →
  decodedCode (escapeHtml s) = Js.trim s.
Proof.
  intros Hq. unfold decodedCode, escapeHtml. cbv zeta.
  rewrite (literal_replace_all ent_lt [60] escape_unit escape_unit1);
    [|done|apply scan_lt|by step_units].
  rewrite (literal_replace_all ent_gt [62] escape_unit1 escape_unit2);
    [|done|apply scan_gt|by step_units].
  rewrite (literal_replace_all ent_amp [38] escape_unit2 escape_unit3);
    [|done|apply scan_amp|by step_units].
  rewrite (literal_replace_all ent_quot [34] escape_unit3 (fun c => [c]));
    [|done|by apply scan_quot|by step_units].
  by rewrite flat_map_singleton.
Qed.

Lemma decodedCode_escapeHtml_witness :
  decodedCode (escapeHtml (Js.u "A --> B & C")) = Js.trim (Js.u "A --> B & C").
Proof. apply decodedCode_escapeHtml. reflexivity. Defined.

(** X24. The decoding decodes twice where the text has the entity of the
    double quote written out: the ampersand is decoded before the quote,
    so the escaped form of the six code units comes out as one double
    quote. *)
Theorem decodedCode_decodes_twice :
  decodedCode (escapeHtml ent_quot) = [34]
  ∧ ∃ s, decodedCode (escapeHtml s) ≠ Js.trim s.
Proof.
  split; [by vm_compute|]. exists ent_quot. by vm_compute.
Qed.

End Entities.

(** ** The colour of the progress bar *)

Section ProgressColor.

Lemma getProgressColor_table (cfg : option (list Z)) :
  forallb
    (fun p =>
       bool_decide
         (getProgressColor cfg (JsNumber.of_Z p)
          = rgb (Some (grey_level p)) (Some (grey_level p)) (Some (grey_level p))))
    (seqZ 0 100)
  = true.
Proof. vm_compute. reflexivity. Qed.

(** X25. For every whole percentage from 0 to 99, computed in the floating
    point arithmetic of the language, [getProgressColor] is the grey
    [rgb(c, c, c)] with c = 212 - 1.3 p rounded to the nearest integer
    (ties up): c goes from 212 down to 83 and never increases with the
    percentage. At 100 the colour is the configured one, or the default
    blue. *)
Theorem getProgressColor_grey (cfg : option (list Z)) (p : Z) :
  0 <= p < 100 →
  getProgressColor cfg (JsNumber.of_Z p)
  = rgb (Some (grey_level p)) (Some (grey_level p)) (Some (grey_level p))
  ∧ 83 <= grey_level p <= 212
  ∧ (∀ q, p <= q → grey_level q <= grey_level p)
  ∧ getProgressColor cfg (JsNumber.of_Z 100) = or_default cfg color_complete.
Proof.
  intros Hp. split; [|split; [|split]].
  - pose proof (getProgressColor_table cfg) as Htab.
    rewrite forallb_forall in Htab.
    apply (bool_decide_unpack _), Is_true_true, Htab, list_elem_of_In, elem_of_seqZ. lia.
  - unfold grey_level.
    split; [apply Z.div_le_lower_bound; lia|apply Z.lt_succ_r, Z.div_lt_upper_bound; lia].
  - intros q Hq. unfold grey_level. apply Z.div_le_mono; lia.
  - by destruct cfg as [[|c cfg]|].
Qed.

Lemma getProgressColor_grey_witness :
  getProgressColor None (JsNumber.of_Z 45)
  = rgb (Some (grey_level 45)) (Some (grey_level 45)) (Some (grey_level 45)).
Proof. apply (getProgressColor_grey None 45). lia. Defined.

End ProgressColor.

(** ** Flow charts without ideographs, and the list of sessions *)

Section MoreProperties.
Import Regex Mermaid.

(** X26. After the whole repair of a flow chart without ideographs every
    opening has its closing: the repaired text has as many [end] as the
    source has [subgraph] openings, or as many as the source had when it
    had more. *)
Theorem fixDefinition_closes_all (d : list Z) :
  Forall (fun c => is_cjk c = false) d →
  includes quadrantChart d = false →
  test re_flow_header d = true →
  count re_end (fixDefinition d) = Nat.max (count re_subgraph d) (count re_end d)
  ∧ (count re_subgraph d <= count re_end (fixDefinition d))%nat.
Proof.
  intros Hd Hq Hflow. rewrite fixDefinition_plain, Hflow by done.
  rewrite <- append_ends_concat, count_end_append_ends. lia.
Qed.

Lemma fixDefinition_closes_all_witness :
  count re_end (fixDefinition flow_latin)
  = Nat.max (count re_subgraph flow_latin) (count re_end flow_latin)
  ∧ (count re_subgraph flow_latin <= count re_end (fixDefinition flow_latin))%nat.
Proof.
  apply (fixDefinition_closes_all flow_latin).
  - unfold flow_latin. repeat (constructor; [reflexivity|]). constructor.
  - vm_compute. reflexivity.
  - vm_compute. reflexivity.
Defined.

(** X27. [deleteSession] after [confirmDeleteSession]: when the server
    deletes the session, exactly the sessions with that id leave the
    list, the others stay in their order, and the dialog is closed; when
    the request fails, the list and the pending deletion stay as they
    are, so that the deletion can be tried again. *)
Theorem deleteSession_removes (api : ApiReply unit) (id : list Z) (sl : SessionList) :
  id ≠ [] →
  let sl' := deleteSession api (confirmDeleteSession id sl) in
  (api_fails api = false →
     (∀ s, s ∈ sessions sl' ↔ s ∈ sessions sl ∧ session_id s ≠ id)
     ∧ sessions sl' `sublist_of` sessions sl
     ∧ sessionToDelete sl' = None
     ∧ showDeleteModal sl' = false
     ∧ deleteSession api sl' = sl')
  ∧ (api_fails api = true →
     sessions sl' = sessions sl
     ∧ sessionToDelete sl' = Some id
     ∧ showDeleteModal sl' = true).
Proof.
  intros Hid sl'. unfold sl', deleteSession, confirmDeleteSession.
  cbn [sessionToDelete sessions showDeleteModal list_toast].
  destruct id as [|c id]; [done|]. cbn [Js.truthy negb].
  destruct api as [|err|[]]; split; try done.
  intros _. split; [|split; [|done]].
  - intros s. cbn [sessions]. rewrite list_elem_of_filter. tauto.
  - cbn [sessions]. apply sublist_filter.
Qed.

Lemma deleteSession_removes_witness :
  sessions (deleteSession (ApiOk tt) (confirmDeleteSession (Js.u "s1") two_sessions))
  `sublist_of` sessions two_sessions.
Proof.
  destruct (deleteSession_removes (ApiOk tt) (Js.u "s1") two_sessions) as [Hok _];
    [discriminate|].
  destruct (Hok eq_refl) as (_ & Hsub & _). exact Hsub.
Defined.

End MoreProperties.

(** ** Quadrant statements with a description *)

Section ColonLines.
Import Regex Mermaid Chart.

#[local] Arguments replace_go : simpl never.
#[local] Arguments match_here : simpl never.

Lemma colon_copy kw0 (w : list Z) n p seg s :
  Forall (fun c => c ≠ first_char kw0) seg →
  replace_go (colon_pattern kw0) (fun _ => w) n 0 p (seg ++ s)
  = seg ++ replace_go (colon_pattern kw0) (fun _ => w) n 0 (prev_after p seg) s.
Proof.
  intros Hseg. destruct (keyword_text_cons kw0) as [w0 Hw].
  unfold colon_pattern. rewrite Hw. by apply replace_go_copy_lit.
Qed.

Lemma indent_not_first kw0 : Forall (fun c => c ≠ first_char kw0) indent.
Proof.
  destruct (first_char_cases kw0) as [-> | [-> | [-> | ->]]];
    repeat constructor; lia.
Qed.

Lemma described_not_first kw0 label desc :
  Forall (fun c => body_char c = true) label →
  Forall (fun c => body_char c = true) desc →
  Forall (fun c => c ≠ first_char kw0) (label ++ 58 :: 32 :: desc).
Proof.
  intros Hl Hd. apply Forall_app. split.
  - eapply Forall_impl; [exact Hl|]. apply body_char_not_first.
  - destruct (first_char_cases kw0) as [Hf | [Hf | [Hf | Hf]]];
      (constructor; [lia|]); (constructor; [lia|]);
      (eapply Forall_impl; [exact Hd|]; apply body_char_not_first).
Qed.

(** The colon pattern of the keyword of the statement takes the statement
    up to the end of its line. *)
Lemma colon_match kw label desc prev rest :
  is_body label = true → is_body desc = true → rest_ok rest →
  match_here (colon_pattern kw) prev
    ((keyword_text kw ++ 32 :: label ++ 58 :: 32 :: desc) ++ rest)
  = Some rest.
Proof.
  intros (c & t & -> & Hc & Hlabel)%is_body_inv (e & u & -> & He & Hdesc)%is_body_inv
    Hrest.
  unfold colon_pattern. rewrite <- app_assoc. apply match_lit.
  change (32 :: (c :: t) ++ 58 :: 32 :: e :: u)
    with ([32] ++ (c :: t) ++ [58] ++ [32] ++ (e :: u)).
  rewrite <- !app_assoc. apply match_plus; [by repeat constructor| |].
  { by apply label_char_not_space. }
  apply match_star; [by apply body_not_colon_nl|done|].
  apply match_lit. apply match_star; [by repeat constructor| |].
  { by apply label_char_not_space. }
  apply match_star.
  - eapply Forall_impl; [exact Hdesc|]. by intros x (? & _)%body_char_facts.
  - destruct rest as [|d rest]; [done|]. simpl in Hrest. by subst d.
  - reflexivity.
Qed.

Lemma colon_line_hit kw (w : list Z) n prev label desc rest :
  is_body label = true → is_body desc = true → rest_ok rest →
  ∃ prev', at_line_start prev' = false ∧
    replace_go (colon_pattern kw) (fun _ => w) n 0 prev
      (colon_line kw label desc ++ rest)
    = indent ++ w ++ replace_go (colon_pattern kw) (fun _ => w) (S n) 0 prev' rest.
Proof.
  intros Hlabel Hdesc Hrest. unfold colon_line. eexists. split; cycle 1.
  - rewrite <- app_assoc, colon_copy by apply indent_not_first. f_equal.
    rewrite replace_go_hit_app; [reflexivity|by destruct kw|].
    by apply colon_match.
  - pose proof Hlabel as (c & t & -> & _ & Hl)%is_body_inv.
    pose proof Hdesc as (e & u & -> & _ & Hd)%is_body_inv.
    apply prev_after_line_start; [reflexivity|].
    apply Forall_app. split; [by destruct kw; repeat constructor|].
    constructor; [done|]. apply Forall_app. split; [by apply body_no_terminator|].
    constructor; [done|]. constructor; [done|]. by apply body_no_terminator.
Qed.

Lemma keyword_line_other kw0 kw (w : list Z) prev body rest :
  kw0 ≠ kw → Forall (fun c => c ≠ first_char kw0) body →
  replace_go (colon_pattern kw0) (fun _ => w) 0 0 prev
    ((indent ++ keyword_text kw ++ 32 :: body) ++ rest)
  = (indent ++ keyword_text kw ++ 32 :: body)
    ++ replace_go (colon_pattern kw0) (fun _ => w) 0 0
         (prev_after (prev_after (prev_after prev indent) (keyword_text kw ++ [32]))
            body) rest.
Proof.
  intros Hne Hbody.
  rewrite <- app_assoc, colon_copy by apply indent_not_first.
  replace ((keyword_text kw ++ 32 :: body) ++ rest)
    with ((keyword_text kw ++ [32]) ++ body ++ rest)
    by (by rewrite <- !app_assoc).
  rewrite (replace_go_copy_at _ _ _ (keyword_text kw ++ [32])).
  - rewrite colon_copy by done. by rewrite <- !app_assoc.
  - intros i Hi. destruct kw0, kw; try done; simpl in Hi;
      do 11 (try (destruct i as [|i]; [reflexivity|])); lia.
Qed.

Lemma colon_line_other kw0 kw (w : list Z) prev label desc rest :
  kw0 ≠ kw → is_body label = true → is_body desc = true →
  ∃ prev', at_line_start prev' = false ∧
    replace_go (colon_pattern kw0) (fun _ => w) 0 0 prev
      (colon_line kw label desc ++ rest)
    = colon_line kw label desc
      ++ replace_go (colon_pattern kw0) (fun _ => w) 0 0 prev' rest.
Proof.
  intros Hne Hlabel Hdesc.
  pose proof Hlabel as (c & t & -> & _ & Hl)%is_body_inv.
  pose proof Hdesc as (e & u & -> & _ & Hd)%is_body_inv.
  unfold colon_line. eexists. split; cycle 1.
  - apply keyword_line_other; [done|]. by apply described_not_first.
  - apply prev_after_line_start.
    + apply prev_after_line_start; [reflexivity|].
      apply Forall_app. split; [by destruct kw; repeat constructor|by repeat constructor].
    + apply Forall_app. split; [by apply body_no_terminator|].
      constructor; [done|]. constructor; [done|]. by apply body_no_terminator.
Qed.

Lemma colon_on_lines kw0 (w : list Z) ls prev :
  Forall (fun l => wf_line l = true) ls → at_line_start prev = false →
  replace_go (colon_pattern kw0) (fun _ => w) 0 0 prev (render_lines ls)
  = render_lines ls.
Proof.
  intros Hls Hprev. rewrite <- (app_nil_r (render_lines ls)) at 1.
  destruct (replace_lines_const (colon_pattern kw0) w wf_line (fun l => l)
              (fun l prev rest Hl _ Hrest => colon_on_line kw0 w l prev rest Hl Hrest)
              ls prev [] Hls Hprev I) as (prev' & _ & ->).
  rewrite map_id, replace_go_nil, app_nil_r; [done|by destruct kw0].
Qed.

(** The colon pattern of another keyword leaves the statement and the
    lines after it alone. *)
Lemma colon_tail_other kw0 kw (w : list Z) label desc post prev :
  kw0 ≠ kw → is_body label = true → is_body desc = true →
  Forall (fun l => wf_line l = true) post →
  replace_go (colon_pattern kw0) (fun _ => w) 0 0 prev
    (colon_line kw label desc ++ render_lines post)
  = colon_line kw label desc ++ render_lines post.
Proof.
  intros Hne Hlabel Hdesc Hpost.
  destruct (colon_line_other kw0 kw w prev label desc (render_lines post) Hne Hlabel Hdesc)
    as (prev' & Hprev' & ->).
  by rewrite colon_on_lines.
Qed.

Lemma colon_chart_other kw0 kw (w : list Z) pre label desc post :
  kw0 ≠ kw → is_body label = true → is_body desc = true →
  Forall (fun l => wf_line l = true) pre →
  Forall (fun l => wf_line l = true) post →
  replace (colon_pattern kw0) (fun _ => w) (colon_chart pre kw label desc post)
  = colon_chart pre kw label desc post.
Proof.
  intros Hne Hlabel Hdesc Hpre Hpost. unfold colon_chart.
  apply colon_on_chart; [done|done|]. intros prev. by apply colon_tail_other.
Qed.

(** The colon pattern of its keyword turns the statement into the fixed
    one. *)
Lemma colon_chart_hit kw pre label desc post :
  is_body label = true → is_body desc = true →
  Forall (fun l => wf_line l = true) pre →
  Forall (fun l => wf_line l = true) post →
  replace (colon_pattern kw) (fun _ => keyword_label kw)
    (colon_chart pre kw label desc post)
  = render (pre ++ Fixed kw :: post).
Proof.
  intros Hlabel Hdesc Hpre Hpost. unfold colon_chart, replace, render.
  rewrite <- app_assoc.
  rewrite header_colon by (destruct pre; done).
  destruct (replace_lines_const (colon_pattern kw) (keyword_label kw) wf_line (fun l => l)
              (fun l prev rest Hl _ Hrest =>
                 colon_on_line kw (keyword_label kw) l prev rest Hl Hrest)
              pre (Some 116) (colon_line kw label desc ++ render_lines post)
              Hpre eq_refl eq_refl) as (prev' & _ & ->).
  rewrite map_id.
  destruct (colon_line_hit kw (keyword_label kw) 0 prev' label desc (render_lines post)
              Hlabel Hdesc (rest_ok_lines post)) as (prev'' & Hprev'' & ->).
  rewrite (replace_go_const _ _ _ 1 0), colon_on_lines by done.
  unfold render_lines. rewrite flat_map_app. cbn [flat_map render_line].
  rewrite <- ?app_assoc. reflexivity.
Qed.

Lemma colon_phases_hit kw pre label desc post :
  is_quadrant kw = true → is_body label = true → is_body desc = true →
  Forall (fun l => wf_line l = true) pre →
  Forall (fun l => wf_line l = true) post →
  replace (re_quadrant_colon 4) (fun _ => q4_label)
    (replace (re_quadrant_colon 3) (fun _ => q3_label)
       (replace (re_quadrant_colon 2) (fun _ => q2_label)
          (replace (re_quadrant_colon 1) (fun _ => q1_label)
             (colon_chart pre kw label desc post))))
  = render (pre ++ Fixed kw :: post).
Proof.
  intros Hq Hlabel Hdesc Hpre Hpost.
  assert (Hwf : Forall (fun l => wf_line l = true) (pre ++ Fixed kw :: post)).
  { apply Forall_app. split; [done|]. by constructor. }
  assert (Hid : ∀ kw0 w,
            replace (colon_pattern kw0) (fun _ => w) (render (pre ++ Fixed kw :: post))
            = render (pre ++ Fixed kw :: post)).
  { intros kw0 w. pose proof (colon_on_chart kw0 w (pre ++ Fixed kw :: post) [] Hwf I) as H.
    rewrite !app_nil_r in H. apply H. intros prev. by destruct kw0. }
  change (re_quadrant_colon 1) with (colon_pattern KQuadrant1).
  change (re_quadrant_colon 2) with (colon_pattern KQuadrant2).
  change (re_quadrant_colon 3) with (colon_pattern KQuadrant3).
  change (re_quadrant_colon 4) with (colon_pattern KQuadrant4).
  change q1_label with (keyword_label KQuadrant1).
  change q2_label with (keyword_label KQuadrant2).
  change q3_label with (keyword_label KQuadrant3).
  change q4_label with (keyword_label KQuadrant4).
  destruct kw; try done.
  - rewrite colon_chart_hit by done. by rewrite !Hid.
  - rewrite colon_chart_other by done. rewrite colon_chart_hit by done. by rewrite !Hid.
  - rewrite !colon_chart_other by done. rewrite colon_chart_hit by done. by rewrite !Hid.
  - rewrite !colon_chart_other by done. by rewrite colon_chart_hit.
Qed.

(** The replacements for ideographs and the numbering of the points, on a
    chart that may have fixed statements. *)
Lemma cjk_phases_render ls :
  Forall (fun l => unnumbered l = true) ls →
  replace re_cjk_point req_name
    (replace (re_cjk_line kw_y_axis) (fun _ => y_axis_label)
       (replace (re_cjk_line kw_x_axis) (fun _ => x_axis_label)
          (replace (re_cjk_line kw_title) (fun _ => title_label)
             (replace (re_cjk_line (kw_quadrant 4)) (fun _ => q4_label)
                (replace (re_cjk_line (kw_quadrant 3)) (fun _ => q3_label)
                   (replace (re_cjk_line (kw_quadrant 2)) (fun _ => q2_label)
                      (replace (re_cjk_line (kw_quadrant 1)) (fun _ => q1_label)
                         (render ls))))))))
  = render (repaired ls).
Proof.
  intros Hun.
  change (kw_quadrant 1) with (keyword_text KQuadrant1).
  change (kw_quadrant 2) with (keyword_text KQuadrant2).
  change (kw_quadrant 3) with (keyword_text KQuadrant3).
  change (kw_quadrant 4) with (keyword_text KQuadrant4).
  change kw_title with (keyword_text KTitle).
  change kw_x_axis with (keyword_text KXAxis).
  change kw_y_axis with (keyword_text KYAxis).
  change q1_label with (keyword_label KQuadrant1).
  change q2_label with (keyword_label KQuadrant2).
  change q3_label with (keyword_label KQuadrant3).
  change q4_label with (keyword_label KQuadrant4).
  change title_label with (keyword_label KTitle).
  change x_axis_label with (keyword_label KXAxis).
  change y_axis_label with (keyword_label KYAxis).
  destruct (cjk_line_on_chart KQuadrant1 _ Hun) as [-> H1].
  destruct (cjk_line_on_chart KQuadrant2 _ H1) as [-> H2].
  destruct (cjk_line_on_chart KQuadrant3 _ H2) as [-> H3].
  destruct (cjk_line_on_chart KQuadrant4 _ H3) as [-> H4].
  destruct (cjk_line_on_chart KTitle _ H4) as [-> H5].
  destruct (cjk_line_on_chart KXAxis _ H5) as [-> H6].
  destruct (cjk_line_on_chart KYAxis _ H6) as [-> H7].
  rewrite !List.map_map in *.
  rewrite (List.map_ext _ fix_stmt fix_keyword_all) in *.
  unfold replace, render. rewrite header_cjk_point by apply rest_ok_lines.
  by rewrite cjk_point_on_lines.
Qed.

Lemma repaired_final_unnumbered ls :
  Forall (fun l => unnumbered l = true) ls →
  Forall (fun l => final_line l = true) (repaired ls)
  ∧ existsb is_point (repaired ls) = existsb is_point ls.
Proof.
  intros Hun. unfold repaired.
  assert (Hpt : existsb is_point (List.map fix_stmt ls) = existsb is_point ls).
  { clear Hun. induction ls as [|l ls IH]; [done|]. simpl. rewrite IH. f_equal.
    destruct l as [kw body| | |]; try done. simpl. by destruct (has_cjk body). }
  rewrite <- Hpt. apply number_points_final.
  - apply Forall_forall. intros l' Hl'. apply list_elem_of_In, in_map_iff in Hl'.
    destruct Hl' as (l & <- & Hl). rewrite Forall_forall in Hun.
    apply list_elem_of_In, Hun in Hl. destruct l as [kw body| | |]; try done.
    simpl. by destruct (has_cjk body).
  - apply Forall_forall. intros l' Hl'. apply list_elem_of_In, in_map_iff in Hl'.
    destruct Hl' as (l & <- & Hl). destruct l as [kw body| | |]; try done.
    simpl. by destruct (has_cjk body) eqn:?.
Qed.

Lemma colon_chart_trim pre kw label desc post :
  is_body label = true → is_body desc = true →
  Forall (fun l => wf_line l = true) post →
  Js.trim (colon_chart pre kw label desc post) = colon_chart pre kw label desc post.
Proof.
  intros Hlabel Hdesc Hpost.
  assert (Hlast : Js.is_space (List.last (colon_chart pre kw label desc post) 0) = false).
  { unfold colon_chart. rewrite last_app_ne by (by destruct post).
    destruct post as [|l post _] using rev_ind.
    - rewrite app_nil_r. unfold colon_line.
      pose proof Hdesc as (e & u & -> & _)%is_body_inv.
      unfold is_body in Hdesc. apply andb_prop in Hdesc as [_ Hdesc].
      change (indent ++ keyword_text kw ++ 32 :: label ++ 58 :: 32 :: e :: u)
        with (indent ++ keyword_text kw ++ [32] ++ label ++ [58; 32] ++ e :: u).
      rewrite !app_assoc, last_app_ne by done. by apply label_char_not_space.
    - apply Forall_app in Hpost as [_ [Hl _]%Forall_cons].
      unfold render_lines. rewrite flat_map_app.
      change (flat_map render_line [l]) with (render_line l ++ []).
      rewrite app_nil_r, !app_assoc, last_app_ne; [by apply render_line_last|by destruct l]. }
  unfold colon_chart, render, quadrantChart in *. cbn [app] in *. by apply trim_id.
Qed.

(** X28. In a quadrant chart whose other lines are in plain form, a
    quadrant statement with a description after a colon,
    [quadrant-k label: description], whose label and description are
    texts of the plain form (non-empty, of ideographs, capitals, digits,
    spaces, [-] and [>], beginning and ending with an ideograph, capital
    or digit), is replaced by the fixed statement of its quadrant, whether
    or not the label or the description has an ideograph; the rest of the
    chart is repaired as without it. Labels and descriptions with other
    code units (lower-case letters, a second colon) are not covered. *)
Theorem repair_quadrant_colon (pre post : list line) (kw : keyword)
    (label desc : list Z) :
  is_quadrant kw = true →
  is_body label = true → is_body desc = true →
  forallb source_line pre = true → forallb source_line post = true →
  Mermaid.repair (colon_chart pre kw label desc post)
  = render (repaired (pre ++ Fixed kw :: post))
    ++ sample_if (existsb is_point (pre ++ post)).
Proof.
  intros Hq Hlabel Hdesc Hpre%forallb_Forall_lines Hpost%forallb_Forall_lines.
  assert (Hun : Forall (fun l => unnumbered l = true) (pre ++ Fixed kw :: post)).
  { apply Forall_app. split; [|constructor; [done|]];
      (eapply Forall_impl; [eassumption|]; apply source_unnumbered). }
  assert (Hwf1 : Forall (fun l => wf_line l = true) pre).
  { eapply Forall_impl; [exact Hpre|]. intros l Hl. by apply unnumbered_wf, source_unnumbered. }
  assert (Hwf2 : Forall (fun l => wf_line l = true) post).
  { eapply Forall_impl; [exact Hpost|]. intros l Hl. by apply unnumbered_wf, source_unnumbered. }
  destruct (repaired_final_unnumbered _ Hun) as [Hfin Hpt].
  assert (Hwf' : Forall (fun l => wf_line l = true) (repaired (pre ++ Fixed kw :: post))).
  { eapply Forall_impl; [exact Hfin|]. apply final_wf. }
  assert (Hpts : existsb is_point (pre ++ Fixed kw :: post) = existsb is_point (pre ++ post)).
  { by rewrite !existsb_app. }
  unfold Mermaid.repair, fixDefinition. rewrite colon_chart_trim by done.
  assert (Hinc : includes quadrantChart (colon_chart pre kw label desc post) = true).
  { unfold colon_chart. apply includes_chart. }
  rewrite Hinc, fixQuadrant_unfold. unfold fixQuadrant_rewrites. cbv zeta.
  rewrite colon_phases_hit, cjk_phases_render by done.
  rewrite <- Hpts, <- Hpt.
  destruct (existsb is_point (repaired (pre ++ Fixed kw :: post))) eqn:Hp.
  - pose proof (test_data_point_chart _ [] Hfin Hp) as Ht.
    rewrite app_nil_r in Ht. rewrite Ht. cbn [negb].
    pose proof (flow_test_chart _ true Hwf') as Hflow. unfold sample_if in *.
    rewrite app_nil_r in Hflow. by rewrite Hflow, app_nil_r.
  - rewrite test_data_point_none by done. cbn [negb].
    pose proof (flow_test_chart _ false Hwf') as Hflow. unfold sample_if in *.
    by rewrite Hflow.
Qed.

Lemma repair_quadrant_colon_witness :
  Mermaid.repair
    (colon_chart [] KQuadrant2 (Js.u "PLAN") (Js.u "NEXT QUARTER") mixed_chart)
  = render (repaired ([] ++ Fixed KQuadrant2 :: mixed_chart))
    ++ sample_if (existsb is_point ([] ++ mixed_chart)).
Proof. by apply repair_quadrant_colon. Defined.

End ColonLines.
